(** * JsMeetsStarlette: a shallow embedding of the messaging core

    The development follows the Python modules of the package:
    - [JsPyTextSocket]  the connection registry (socket ids, connection limit);
    - [JsPyFunction]    exposed functions, remote calls and their correlation;
    - [JsPyQueue]       acknowledged queue pushes;
    - [JsPyPubsub]      topic subscriptions and fan-out.

    Python dictionaries are finite maps ([gmap]) where the iteration order is
    irrelevant and association lists in insertion order where the code
    iterates over them; Python sets of socket ids are [gset Z]; integers are
    unbounded ([Z]); asyncio futures are a three-state value. *)

From Stdlib Require Import ZArith List Lia.
From stdpp Require Import base numbers option list gmap sets strings.

Local Open Scope Z_scope.
Local Set Warnings "-register-all,-clear-no-such-hyp".

(** ** Values decoded from the wire *)

(** What [json.loads] can produce (floating point numbers are left out). *)
Inductive json : Type :=
| JNull
| JBool (b : bool)
| JInt (n : Z)
| JStr (s : string)
| JList (l : list json)
| JDict (kvs : list (string * json)).

(** The five-key dictionary exchanged over a websocket. *)
Record envelope : Type := Envelope {
  protocol : json;
  key : json;
  id : json;
  data : json;
  exception : json
}.

(** [x is None], [x is False]: identity with the singletons. *)
Definition is_None (x : json) : bool :=
  match x with JNull => true | _ => false end.

Definition is_False (x : json) : bool :=
  match x with JBool false => true | _ => false end.

(** [isinstance(x, int)]: [bool] is a subclass of [int] and [True == 1]. *)
Definition as_int (x : json) : option Z :=
  match x with
  | JInt n => Some n
  | JBool b => Some (Z.b2z b)
  | _ => None
  end.

(** [isinstance(x, str)] *)
Definition as_str (x : json) : option string :=
  match x with JStr s => Some s | _ => None end.

(** Python truthiness, as used by [if not exception]. *)
Definition truthy (x : json) : bool :=
  match x with
  | JNull => false
  | JBool b => b
  | JInt n => negb (n =? 0)
  | JStr s => negb (String.eqb s EmptyString)
  | JList l => match l with [] => false | _ => true end
  | JDict kvs => match kvs with [] => false | _ => true end
  end.

(** A websocket object, identified by the order in which the server saw it. *)
Definition WebSocket : Type := nat.

(** A Python function object: its identity, its [__name__] and what
    [asyncio.iscoroutinefunction] answers for it. *)
Record pyfunc : Type := PyFunc {
  fn_ident : nat;
  fn_name : string;
  iscoroutinefunction : bool
}.

(** An asyncio future. *)
Inductive future (A E : Type) : Type :=
| Pending
| Result (value : A)
| Raised (exc : E).
Arguments Pending {A E}.
Arguments Result {A E} value.
Arguments Raised {A E} exc.

Definition done {A E} (ft : future A E) : bool :=
  match ft with Pending => false | _ => true end.

(** The double quote character of a Python string literal. *)
Definition dquote : string := String (Ascii.ascii_of_nat 34) EmptyString.

Definition json_is_str (x : json) (s : string) : bool :=
  match x with JStr s' => String.eqb s' s | _ => false end.

(** ** JsPyBackground.py: calls reserved for the event loop *)

Module JsPyBackground.

(** How a reserved call ends when the loop runs it. *)
Inductive ending : Type :=
| Returned
| RaisedException
| RaisedCancelled.      (* asyncio.CancelledError *)

Section Reservations.

(** A reservation is the pair [(func, param)]. *)
Context {R : Type}.

(** [_func_queue], what [_event_loop] has called so far, and whether the
    loop is still in its [while True]. *)
Record state : Type := State {
  _func_queue : list R;
  called : list R;
  looping : bool
}.

(** [_func_queue.put_nowait((func, param))] *)
Definition register_function (reserve : R) (st : state) : state :=
  State (_func_queue st ++ [reserve]) (called st) (looping st).

(** One round of the [while True] of [_event_loop]. *)
Definition _event_loop_round (ends : R → ending) (st : state) : state :=
  if looping st then
    match _func_queue st with
    | [] => st
    | reserve :: rest =>
        State rest (called st ++ [reserve])
              match ends reserve with
              | RaisedCancelled => false
              | _ => true
              end
    end
  else st.

Fixpoint _event_loop (rounds : nat) (ends : R → ending) (st : state) : state :=
  match rounds with
  | O => st
  | S rounds' => _event_loop rounds' ends (_event_loop_round ends st)
  end.

End Reservations.

Arguments state R : clear implicits.

End JsPyBackground.

(** ** JsPyTextSocket.py: the connection registry *)

Module JsPyTextSocket.

Definition SERIAL_MAX : Z := 0xFFFFFFFF.

(** The class attributes of [JsPyTextSocket]. *)
Record registry : Type := Registry {
  _connected : Z;
  _connection_limit : Z;
  _socket_serial : Z;
  _socket_pool : gmap Z WebSocket
}.

Definition initial : registry := Registry 0 0 0 ∅.

Definition set_connection_limit (limit : Z) (r : registry) : registry :=
  Registry (_connected r) (if 0 <=? limit then limit else 0)
           (_socket_serial r) (_socket_pool r).

Definition number_of_connections (r : registry) : Z := _connected r.

(** [tuple(cls._socket_pool.keys())]; the order of the tuple is not kept. *)
Definition get_socket_id (r : registry) : list Z :=
  elements (dom (_socket_pool r)).

(** [serial += 1; if serial > SERIAL_MAX: serial = 1] *)
Definition bump (serial : Z) : Z :=
  if SERIAL_MAX <? serial + 1 then 1 else serial + 1.

(** [while serial in pool: bump]; [fuel] bounds the number of tests. *)
Fixpoint probe (fuel : nat) (serial : Z) (pool : gmap Z WebSocket) : option Z :=
  match fuel with
  | O => None
  | S fuel' =>
      match pool !! serial with
      | Some _ => probe fuel' (bump serial) pool
      | None => Some serial
      end
  end.

Definition _append_socket (fuel : nat) (ws : WebSocket) (r : registry)
  : option (Z * registry) :=
  match probe fuel (bump (_socket_serial r)) (_socket_pool r) with
  | None => None
  | Some serial =>
      Some (serial,
            Registry (_connected r) (_connection_limit r) serial
                     (<[serial := ws]> (_socket_pool r)))
  end.

Definition _delete_socket (socket_id : Z) (r : registry) : registry :=
  match _socket_pool r !! socket_id with
  | Some _ => Registry (_connected r) (_connection_limit r) (_socket_serial r)
                       (delete socket_id (_socket_pool r))
  | None => r
  end.

(** What a handler does to its websocket. *)
Inductive action : Type :=
| Accept
| SendJson (e : envelope)
| Close.

Definition refused : envelope :=
  Envelope (JStr "system") (JStr "connect") (JInt 0) JNull
           (JStr "Connection refused due to connection limit @python").

Definition welcome (socket_id : Z) : envelope :=
  Envelope (JStr "system") (JStr "connect") (JInt 0) (JInt socket_id) JNull.

(** [on_connect] is a coroutine: it counts the connection and is
    suspended at [await ws.accept()], where the other handlers run and
    may change the registry; [on_connect_begin] is the coroutine up to
    that await. *)
Definition on_connect_begin (r : registry) : list action * registry :=
  ([Accept],
   Registry (_connected r + 1) (_connection_limit r)
            (_socket_serial r) (_socket_pool r)).

(** [on_connect] from its resumption after the accept, on the registry as
    it is then: id assignment and limit test (no await between them),
    greeting. The registry is not touched after the test. *)
Definition on_connect_accepted (fuel : nat) (ws : WebSocket) (r : registry)
  : option (Z * list action * registry) :=
  match _append_socket fuel ws r with
  | None => None
  | Some (socket_id, r') =>
      if (0 <? _connection_limit r') && (_connection_limit r' <? _connected r')
      then Some (socket_id, [SendJson refused; Close], r')
      else Some (socket_id, [SendJson (welcome socket_id)], r')
  end.

Definition on_disconnect (socket_id : Z) (r : registry) : registry :=
  let r' := _delete_socket socket_id r in
  Registry (_connected r' - 1) (_connection_limit r')
           (_socket_serial r') (_socket_pool r').

(** The sockets [multicast] writes to: [None] is everyone, an [int] or a
    collection is filtered by the pool. *)
Inductive target : Type :=
| TNone
| TInt (socket_id : Z)
| TMany (socket_ids : list Z)
| TOther.

Definition multicast_targets (t : target) (r : registry) : list Z :=
  match t with
  | TNone => get_socket_id r
  | TInt s => match _socket_pool r !! s with Some _ => [s] | None => [] end
  | TMany l => filter (λ i, is_Some (_socket_pool r !! i)) l
  | TOther => []
  end.

(** What the modules reserve with [JsPyBackground.register_function]. *)
Inductive reservation : Type :=
| ReserveClose (ws : WebSocket)
| ReserveMulticast (data : envelope) (socket : target).

Definition close_socket (socket_id : Z) (r : registry)
    (bg : JsPyBackground.state reservation)
  : bool * JsPyBackground.state reservation :=
  match _socket_pool r !! socket_id with
  | Some ws => (true, JsPyBackground.register_function (ReserveClose ws) bg)
  | None => (false, bg)
  end.

Definition reservecast (data : envelope) (socket : target)
    (bg : JsPyBackground.state reservation)
  : JsPyBackground.state reservation :=
  JsPyBackground.register_function (ReserveMulticast data socket) bg.

(** [multicast(data, socket)]: the text frames it hands to the websockets
    of the pool. *)
Definition multicast (data : envelope) (socket : target) (r : registry)
  : list (WebSocket * envelope) :=
  omap (λ i, (λ ws, (ws, data)) <$> _socket_pool r !! i)
       (multicast_targets socket r).

Definition broadcast (data : envelope) (r : registry)
  : list (WebSocket * envelope) :=
  multicast data TNone r.

(** [dict_data[k]] for the dict that [json.loads] builds from an object:
    of two members with the same name the last one counts. *)
Fixpoint dict_item (k : string) (kvs : list (string * json)) : option json :=
  match kvs with
  | [] => None
  | (k', v) :: rest =>
      match dict_item k rest with
      | Some v' => Some v'
      | None => if String.eqb k k' then Some v else None
      end
  end.

(** [cls._protocol_table[protocol] = func] *)
Definition add_protocol {H : Type} (protocol : string) (func : H)
    (table : gmap string H) : gmap string H :=
  <[protocol := func]> table.

(** What [on_receive] does with a handler: a coroutine function is made a
    task, another function is called. *)
Inductive dispatched (H : Type) : Type :=
| CreateTask (call_func : H) (dict_data : envelope)
| CallNow (call_func : H) (dict_data : envelope).
Arguments CreateTask {H} call_func dict_data.
Arguments CallNow {H} call_func dict_data.

(** [on_receive]: [data] is the result of [json.loads], [None] when it
    raises. Whatever is raised before the handler runs is swallowed
    ([None]): a value that is not a dict, a missing key, a protocol that is
    not in the table. *)
Definition on_receive {H : Type} (iscoroutine : H → bool)
    (table : gmap string H) (data : option json) : option (dispatched H) :=
  match data with
  | Some (JDict kvs) =>
      match dict_item "protocol" kvs, dict_item "key" kvs, dict_item "id" kvs,
            dict_item "data" kvs, dict_item "exception" kvs with
      | Some p, Some k, Some i, Some d, Some e =>
          match as_str p ≫= (λ name, table !! name) with
          | Some call_func =>
              if iscoroutine call_func
              then Some (CreateTask call_func (Envelope p k i d e))
              else Some (CallNow call_func (Envelope p k i d e))
          | None => None
          end
      | _, _, _, _, _ => None
      end
  | _ => None
  end.

End JsPyTextSocket.

(** ** JsPyFunction.py: exposed functions and remote calls *)

Module JsPyFunction.

Definition _CALL_ID_MAX : Z := 0xFFFFFFFF.

(** [JsPyError(msg, protocol, key, id, socket_id)] *)
Record JsPyError : Type := MkJsPyError {
  _msg : string;
  _protocol : string;
  _key : string;
  _id : json;
  _socket_id : Z
}.

Definition get_socket_id (e : JsPyError) : Z := _socket_id e.

(** The constructor evaluates [report()], which concatenates [msg],
    [protocol] and [key] with string literals: anything but [str] there
    raises [TypeError] ([None] is returned then). *)
Definition new_JsPyError (msg protocol key id : json) (socket_id : Z)
  : option JsPyError :=
  match as_str msg, as_str protocol, as_str key with
  | Some m, Some p, Some k => Some (MkJsPyError m p k id socket_id)
  | _, _, _ => None
  end.

(** The value list stored under a key of [_exposed_function]:
    [[Callable, iscoroutine, is_running, queue.Queue or None]].
    The queue is an object shared with the running handlers, kept in the
    store [queues] and named by its index there. *)
Record exposed : Type := Exposed {
  ex_func : pyfunc;
  ex_iscoroutine : bool;
  ex_running : bool;
  ex_exclusive : option nat
}.

(** One slot of a pending call: [(socket_id, data)] or a [JsPyError]. *)
Definition slot : Type := future (Z * json) JsPyError.

(** What the exposed function does when it is run. *)
Inductive outcome : Type :=
| Returns (value : json)
| ReturnsUnserializable (err : string)
| Raises (msg : string).

(** Where a [_call_from_js] coroutine is suspended. *)
Inductive pc : Type :=
| AwaitTicket      (* await this_future *)
| FirstSleep       (* first await asyncio.sleep(0) *)
| InFunc           (* await func(...) *)
| SecondSleep      (* second await asyncio.sleep(0) *)
| Finished
| Crashed.         (* KeyError on _exposed_function[key] *)

(** The local variables of a [_call_from_js] coroutine. *)
Record frame : Type := Frame {
  f_pc : pc;
  f_ws : WebSocket;
  f_key : json;
  f_protocol : json;
  f_iscoroutine : bool;
  f_exclusive : option nat;
  f_send_dic : envelope
}.

(** The module globals, the queue objects, the futures of the wait lists
    (one per coroutine, named after it; [resolved] holds those with a
    result), the coroutines and what was written to the websockets. *)
Record state : Type := State {
  _exposed_function : gmap string exposed;
  queues : list (list nat);
  resolved : gset nat;
  tasks : gmap nat frame;
  outbox : list (WebSocket * envelope);
  _call_id : Z;
  _call_memory : gmap Z (list slot)
}.

Definition initial : state := State ∅ [] ∅ ∅ [] 0 ∅.

Definition with_exposed (f : gmap string exposed → gmap string exposed)
    (st : state) : state :=
  State (f (_exposed_function st)) (queues st) (resolved st) (tasks st)
        (outbox st) (_call_id st) (_call_memory st).

Definition with_queues (f : list (list nat) → list (list nat)) (st : state)
  : state :=
  State (_exposed_function st) (f (queues st)) (resolved st) (tasks st)
        (outbox st) (_call_id st) (_call_memory st).

Definition with_resolved (f : gset nat → gset nat) (st : state) : state :=
  State (_exposed_function st) (queues st) (f (resolved st)) (tasks st)
        (outbox st) (_call_id st) (_call_memory st).

Definition with_tasks (f : gmap nat frame → gmap nat frame) (st : state)
  : state :=
  State (_exposed_function st) (queues st) (resolved st) (f (tasks st))
        (outbox st) (_call_id st) (_call_memory st).

Definition with_outbox (f : list (WebSocket * envelope) → list (WebSocket * envelope))
    (st : state) : state :=
  State (_exposed_function st) (queues st) (resolved st) (tasks st)
        (f (outbox st)) (_call_id st) (_call_memory st).

Definition with_call_id (i : Z) (st : state) : state :=
  State (_exposed_function st) (queues st) (resolved st) (tasks st)
        (outbox st) i (_call_memory st).

Definition with_call_memory (f : gmap Z (list slot) → gmap Z (list slot))
    (st : state) : state :=
  State (_exposed_function st) (queues st) (resolved st) (tasks st)
        (outbox st) (_call_id st) (f (_call_memory st)).

(** *** Registration *)

Definition is_key_running (key : string) (st : state) : bool :=
  match _exposed_function st !! key with
  | Some r => ex_running r
  | None => false
  end.

(** [queue.Queue() if exclusive else None]: a new queue is the next index
    of the store. *)
Definition expose (key : string) (func : pyfunc) (exclusive : bool) (st : state)
  : bool * state :=
  if is_key_running key st then (false, st)
  else
    let q := if exclusive then Some (length (queues st)) else None in
    let st1 := if exclusive then with_queues (λ qs, qs ++ [[]]) st else st in
    (true,
     with_exposed
       <[key := Exposed func (iscoroutinefunction func) false q]> st1).

Inductive KeyError : Type := MkKeyError (msg : string).

Definition callable (func : pyfunc) (st : state) : (KeyError + pyfunc) * state :=
  match _exposed_function st !! fn_name func with
  | None =>
      (inr func,
       with_exposed
         <[fn_name func := Exposed func (iscoroutinefunction func) false None]>
         st)
  | Some _ =>
      (inl (MkKeyError ("The exposed function " +:+ dquote +:+ fn_name func
                        +:+ dquote +:+ " is invalid @python")), st)
  end.

Definition exclusive_callable (func : pyfunc) (st : state)
  : (KeyError + pyfunc) * state :=
  match _exposed_function st !! fn_name func with
  | None =>
      (inr func,
       with_exposed
         <[fn_name func :=
             Exposed func (iscoroutinefunction func) false
                     (Some (length (queues st)))]>
         (with_queues (λ qs, qs ++ [[]]) st))
  | Some _ =>
      (inl (MkKeyError ("The exposed function " +:+ dquote +:+ fn_name func
                        +:+ dquote +:+ " is invalid @python")), st)
  end.

Definition clear (key : string) (st : state) : bool * state :=
  match _exposed_function st !! key with
  | Some r =>
      if ex_running r then (false, st)
      else (true, with_exposed (delete key) st)
  | None => (false, st)
  end.

Definition is_running (key : string) (st : state) : bool :=
  is_key_running key st.

Definition has (key : string) (st : state) : bool :=
  bool_decide (is_Some (_exposed_function st !! key)).

(** *** Calling the clients: the closure returned by [call] *)

Definition next_call_id (c : Z) : Z :=
  if _CALL_ID_MAX <? c + 1 then 1 else c + 1.

(** [target_sockets] of [inner]. *)
Definition target_sockets (t : JsPyTextSocket.target)
    (r : JsPyTextSocket.registry) : list Z :=
  match t with
  | JsPyTextSocket.TNone => JsPyTextSocket.get_socket_id r
  | JsPyTextSocket.TInt s =>
      if bool_decide (s ∈ JsPyTextSocket.get_socket_id r) then [s] else []
  | JsPyTextSocket.TMany l =>
      filter (λ i, i ∈ JsPyTextSocket.get_socket_id r) l
  | JsPyTextSocket.TOther => []
  end.

(** The value of a key of the returned dict. *)
Inductive returned : Type :=
| Value (data : json)
| Error (e : JsPyError).

(** [inner] up to [await asyncio.wait(...)]: either the empty dict at
    once, or the id under which the futures wait and the sockets the
    ["function_call"] envelope is written to. *)
Inductive issued : Type :=
| NoTarget (return_value : gmap Z returned)
| Waiting (this_id : Z) (sent_to : list Z) (send_dic : envelope).

Definition inner_issue (key : string) (t : JsPyTextSocket.target)
    (args : list json) (r : JsPyTextSocket.registry) (st : state)
  : issued * state :=
  let this_id := next_call_id (_call_id st) in
  let st1 := with_call_id this_id st in
  let targets := target_sockets t r in
  if bool_decide (length targets = 0%nat) then (NoTarget ∅, st1)
  else
    let send_dic :=
      Envelope (JStr "function_call") (JStr key) (JInt this_id)
               (JList args) JNull in
    let this_futures : list slot := map (λ _, Pending) targets in
    (Waiting this_id
             (JsPyTextSocket.multicast_targets (JsPyTextSocket.TMany targets) r)
             send_dic,
     with_call_memory <[this_id := this_futures]> st1).

(** [if (timeout is not None) and (timeout <= 0): timeout = None]
    (a timeout is a whole number of seconds here) *)
Definition effective_timeout (timeout : option Z) : option Z :=
  match timeout with
  | Some t => if t <=? 0 then None else Some t
  | None => None
  end.

(** [for ft in done: ...], in the order of the slots (the code walks a
    set of futures; the order only matters when two slots carry the same
    socket id). *)
Fixpoint collect (futures : list slot) (return_value : gmap Z returned)
  : gmap Z returned :=
  match futures with
  | [] => return_value
  | Pending :: rest => collect rest return_value
  | Result (socket_id, data) :: rest =>
      collect rest (<[socket_id := Value data]> return_value)
  | Raised e :: rest =>
      collect rest (<[get_socket_id e := Error e]> return_value)
  end.

(** [inner] from the return of [asyncio.wait] on. *)
Definition inner_finish (this_id : Z) (st : state)
  : gmap Z returned * state :=
  let this_futures := default [] (_call_memory st !! this_id) in
  (collect this_futures ∅, with_call_memory (delete this_id) st).

Definition all_done (this_id : Z) (st : state) : bool :=
  forallb done (default [] (_call_memory st !! this_id)).

(** The loop of [_return_from_js] over the futures of the call id: the
    first future that is not done takes the reply. [None] is the
    [TypeError] of the [JsPyError] constructor. *)
Fixpoint return_loop (socket_id : Z) (dict_data : envelope) (futures : list slot)
  : option (list slot) :=
  match futures with
  | [] => Some []
  | ft :: rest =>
      if done ft then cons ft <$> return_loop socket_id dict_data rest
      else if negb (is_None (exception dict_data)) then
        match new_JsPyError (exception dict_data) (protocol dict_data)
                            (key dict_data) (id dict_data) socket_id with
        | Some e => Some (Raised e :: rest)
        | None => None
        end
      else Some (Result (socket_id, data dict_data) :: rest)
  end.

(** Processes data with protocol 'function_return'. An exception leaves
    the handler and is swallowed by [on_receive]. *)
Definition _return_from_js (socket_id : Z) (dict_data : envelope) (st : state)
  : state :=
  match as_int (id dict_data) with
  | Some i =>
      match _call_memory st !! i with
      | Some futures =>
          match return_loop socket_id dict_data futures with
          | Some futures' => with_call_memory <[i := futures']> st
          | None => st
          end
      | None => st
      end
  | None => st
  end.

(** What reaches the event loop while a call is waiting. *)
Inductive wire_event : Type :=
| Reply (socket_id : Z) (dict_data : envelope)
| TimerFires.




(** *** Serving the clients: [_call_from_js] *)

(** [_exposed_function[key][2] = b]; [None] is the [KeyError] of a key
    that is no longer exposed. *)
Definition set_running (key : json) (b : bool) (st : state) : option state :=
  match as_str key with
  | Some k =>
      match _exposed_function st !! k with
      | Some r =>
          Some (with_exposed
                  <[k := Exposed (ex_func r) (ex_iscoroutine r) b (ex_exclusive r)]>
                  st)
      | None => None
      end
  | None => None
  end.

Definition at_pc (p : pc) (f : frame) : frame :=
  Frame p (f_ws f) (f_key f) (f_protocol f) (f_iscoroutine f) (f_exclusive f)
        (f_send_dic f).

Definition with_send_dic (data exception : json) (f : frame) : frame :=
  Frame (f_pc f) (f_ws f) (f_key f) (f_protocol f) (f_iscoroutine f)
        (f_exclusive f)
        (Envelope (protocol (f_send_dic f)) (key (f_send_dic f))
                  (id (f_send_dic f)) data exception).

(** [if protocol == 'function_call': ... await ws.send_text(send_text)] *)
Definition reply (f : frame) (st : state) : state :=
  if json_is_str (f_protocol f) "function_call"
  then with_outbox (λ out, out ++ [(f_ws f, f_send_dic f)]) st
  else st.

(** [_call_from_js] at [_exposed_function[key][2] = True], up to the first
    [sleep(0)]. *)
Definition enter (t : nat) (f : frame) (st : state) : state :=
  match set_running (f_key f) true st with
  | Some st1 => with_tasks <[t := at_pc FirstSleep f]> st1
  | None => with_tasks <[t := at_pc Crashed f]> st
  end.

(** Processes data with protocol 'function_call' or 'function': the
    coroutine [t] from its start to its first suspension. *)
Definition _call_from_js (t : nat) (ws : WebSocket) (dict_data : envelope)
    (st : state) : state :=
  let send_dic :=
    Envelope (JStr "function_return") (key dict_data) (id dict_data)
             JNull JNull in
  let f0 := Frame Finished ws (key dict_data) (protocol dict_data) false None
                  send_dic in
  let unregistered :=
    let f := with_send_dic JNull
               (JStr "Function key name is not registered @python") f0 in
    reply f (with_tasks <[t := f]> st) in
  match as_str (key dict_data) with
  | Some k =>
      match _exposed_function st !! k with
      | Some r =>
          let f := Frame AwaitTicket ws (key dict_data) (protocol dict_data)
                         (ex_iscoroutine r) (ex_exclusive r) send_dic in
          match ex_exclusive r with
          | Some q =>
              if ex_running r
              then with_queues (alter (λ waiting, waiting ++ [t]) q)
                               (with_tasks <[t := f]> st)
              else enter t f st
          | None => enter t f st
          end
      | None => unregistered
      end
  | None => unregistered
  end.

(** The [try: send_dic['data'] = func(...) except ...] block; a value
    that [json.dumps] refuses is replaced as in the final [try]. *)
Definition after_func (o : outcome) (f : frame) : frame :=
  at_pc SecondSleep
    match o with
    | Returns v => with_send_dic v JNull f
    | ReturnsUnserializable err => with_send_dic JNull (JStr (err +:+ " @python")) f
    | Raises msg => with_send_dic JNull (JStr (msg +:+ " @python")) f
    end.

(** [_call_from_js] from the second [sleep(0)] to its end. *)
Definition call_end (t : nat) (f : frame) (st : state) : state :=
  match set_running (f_key f) false st with
  | None => with_tasks <[t := at_pc Crashed f]> st
  | Some st1 =>
      let st2 :=
        match f_exclusive f with
        | Some q =>
            match queues st1 !! q with
            | Some (waiter :: waiting) =>
                let st' := with_resolved (λ fs, {[waiter]} ∪ fs)
                             (with_queues <[q := waiting]> st1) in
                default st' (set_running (f_key f) true st')
            | _ => st1
            end
        | None => st1
        end in
      reply f (with_tasks <[t := at_pc Finished f]> st2)
  end.

(** What the event loop does next: it starts the coroutine [t] for an
    envelope received from [socket_id], or it resumes the suspended
    coroutine [t]; [o] is what the exposed function does if it ends
    in this step. *)
Inductive event : Type :=
| Call (t : nat) (ws : WebSocket) (socket_id : Z) (dict_data : envelope)
| Resume (t : nat) (o : outcome).

Definition step (ev : event) (st : state) : option state :=
  match ev with
  | Call t ws _ dict_data =>
      match tasks st !! t with
      | Some _ => None
      | None => Some (_call_from_js t ws dict_data st)
      end
  | Resume t o =>
      match tasks st !! t with
      | Some f =>
          match f_pc f with
          | AwaitTicket =>
              if bool_decide (t ∈ resolved st) then Some (enter t f st)
              else None
          | FirstSleep =>
              if f_iscoroutine f
              then Some (with_tasks <[t := at_pc InFunc f]> st)
              else Some (with_tasks <[t := after_func o f]> st)
          | InFunc => Some (with_tasks <[t := after_func o f]> st)
          | SecondSleep => Some (call_end t f st)
          | Finished | Crashed => None
          end
      | None => None
      end
  end.

Fixpoint run (events : list event) (st : state) : option state :=
  match events with
  | [] => Some st
  | ev :: rest =>
      match step ev st with
      | Some st' => run rest st'
      | None => None
      end
  end.

(** The coroutines that are between [_exposed_function[key][2] = True]
    and [_exposed_function[key][2] = False]. *)
Definition executing (f : frame) : bool :=
  match f_pc f with
  | FirstSleep | InFunc | SecondSleep => true
  | _ => false
  end.

(** *** Calling the clients without waiting: the closure of [call_nowait] *)

Definition inner_nowait (key : string) (t : JsPyTextSocket.target)
    (args : list json) (st : state)
    (bg : JsPyBackground.state JsPyTextSocket.reservation)
  : state * JsPyBackground.state JsPyTextSocket.reservation :=
  let this_id := next_call_id (_call_id st) in
  let send_dic :=
    Envelope (JStr "function") (JStr key) (JInt this_id) (JList args) JNull in
  (with_call_id this_id st, JsPyTextSocket.reservecast send_dic t bg).

(** [list(_exposed_function.keys())], the order of the list left aside. *)
Definition get_keys (st : state) : list string :=
  elements (dom (_exposed_function st)).

End JsPyFunction.

(** ** JsPyQueue.py: the acknowledgements of [push] *)

Module JsPyQueue.

(** One slot of a pending push: the socket id that acknowledged, or what
    [set_exception] was given. *)
Definition slot : Type := future Z json.

Record state : Type := State {
  _queue_id : Z;
  _queue_memory : gmap Z (list slot)
}.

Section Futures.

(** Whether [Future.set_exception] takes the object it is given; when
    it does not, it raises and the future stays pending. *)
Variable accepts_exception : json → bool.

(** The loop of [_queue_return]; [None] is an exception raised by
    [set_exception]. *)
Fixpoint queue_return_loop (socket_id : Z) (dict_data : envelope)
    (futures : list slot) : option (list slot) :=
  match futures with
  | [] => Some []
  | ft :: rest =>
      if done ft then cons ft <$> queue_return_loop socket_id dict_data rest
      else if negb (truthy (exception dict_data)) then
        Some (Result socket_id :: rest)
      else if accepts_exception (exception dict_data) then
        Some (Raised (exception dict_data) :: rest)
      else None
  end.

(** Processes data with protocol 'queue_return'. *)
Definition _queue_return (socket_id : Z) (dict_data : envelope) (st : state)
  : state :=
  match as_int (id dict_data) with
  | Some i =>
      match _queue_memory st !! i with
      | Some futures =>
          match queue_return_loop socket_id dict_data futures with
          | Some futures' =>
              State (_queue_id st) (<[i := futures']> (_queue_memory st))
          | None => st
          end
      | None => st
      end
  | None => st
  end.

End Futures.

Definition _QUEUE_ID_MAX : Z := 0xFFFFFFFF.

Definition next_queue_id (c : Z) : Z :=
  if _QUEUE_ID_MAX <? c + 1 then 1 else c + 1.

(** The closure of [push_nowait(key, target)]. *)
Definition inner_nowait (key : string) (t : JsPyTextSocket.target)
    (data : json) (st : state)
    (bg : JsPyBackground.state JsPyTextSocket.reservation)
  : state * JsPyBackground.state JsPyTextSocket.reservation :=
  let queue_id := next_queue_id (_queue_id st) in
  let this_id := if _QUEUE_ID_MAX <? queue_id then 1 else queue_id in
  let send_dic :=
    Envelope (JStr "queue") (JStr key) (JInt this_id) data JNull in
  (State queue_id (_queue_memory st),
   JsPyTextSocket.reservecast send_dic t bg).

(** [target_sockets] of the closure of [push]. *)
Definition target_sockets (t : JsPyTextSocket.target)
    (r : JsPyTextSocket.registry) : list Z :=
  match t with
  | JsPyTextSocket.TNone => JsPyTextSocket.get_socket_id r
  | JsPyTextSocket.TInt s =>
      if bool_decide (s ∈ JsPyTextSocket.get_socket_id r) then [s] else []
  | JsPyTextSocket.TMany l =>
      filter (λ i, i ∈ JsPyTextSocket.get_socket_id r) l
  | JsPyTextSocket.TOther => []
  end.

(** The closure of [push] up to [await asyncio.wait(...)]. *)
Inductive issued : Type :=
| NoTarget (return_value : list Z)
| Waiting (this_id : Z) (sent : list (WebSocket * envelope)).

Definition inner_issue (key : string) (t : JsPyTextSocket.target)
    (data : json) (r : JsPyTextSocket.registry) (st : state)
  : issued * state :=
  let this_id := next_queue_id (_queue_id st) in
  let targets := target_sockets t r in
  if bool_decide (length targets = 0%nat)
  then (NoTarget [], State this_id (_queue_memory st))
  else
    let send_dic :=
      Envelope (JStr "queue_call") (JStr key) (JInt this_id) data JNull in
    let this_futures : list slot := map (λ _, Pending) targets in
    (Waiting this_id
             (JsPyTextSocket.multicast send_dic (JsPyTextSocket.TMany targets) r),
     State this_id (<[this_id := this_futures]> (_queue_memory st))).

(** [for ft in done: try: return_value.append(ft.result()) except: pass],
    in the order of the slots (the code walks a set of futures). *)
Fixpoint collect (futures : list slot) : list Z :=
  match futures with
  | [] => []
  | Result socket_id :: rest => socket_id :: collect rest
  | _ :: rest => collect rest
  end.

(** The closure of [push] from the return of [asyncio.wait] on. *)
Definition inner_finish (this_id : Z) (st : state) : list Z * state :=
  (collect (default [] (_queue_memory st !! this_id)),
   State (_queue_id st) (delete this_id (_queue_memory st))).

Definition all_done (this_id : Z) (st : state) : bool :=
  forallb done (default [] (_queue_memory st !! this_id)).

(** What reaches the event loop while a push is waiting. *)
Inductive wire_event : Type :=
| Ack (socket_id : Z) (dict_data : envelope)
| TimerFires.

Inductive push_status : Type :=
| StillWaiting
| HasReturned (return_value : list Z).

(** One push from its suspension on: it is resumed when every slot is
    settled or when its timer (if it has one) fires. *)
Fixpoint run_push (accepts_exception : json → bool) (timeout : option Z)
    (this_id : Z) (events : list wire_event) (status : push_status)
    (st : state) : push_status * state :=
  match events with
  | [] => (status, st)
  | ev :: rest =>
      match status, ev with
      | StillWaiting, Ack socket_id dict_data =>
          let st1 := _queue_return accepts_exception socket_id dict_data st in
          if all_done this_id st1 then
            let '(rv, st2) := inner_finish this_id st1 in
            run_push accepts_exception timeout this_id rest (HasReturned rv) st2
          else run_push accepts_exception timeout this_id rest StillWaiting st1
      | StillWaiting, TimerFires =>
          match JsPyFunction.effective_timeout timeout with
          | Some _ =>
              let '(rv, st1) := inner_finish this_id st in
              run_push accepts_exception timeout this_id rest (HasReturned rv) st1
          | None =>
              run_push accepts_exception timeout this_id rest StillWaiting st
          end
      | HasReturned rv, Ack socket_id dict_data =>
          run_push accepts_exception timeout this_id rest (HasReturned rv)
                   (_queue_return accepts_exception socket_id dict_data st)
      | HasReturned rv, TimerFires =>
          run_push accepts_exception timeout this_id rest (HasReturned rv) st
      end
  end.

(** The closure of [push(key, timeout, target)] applied to [data],
    followed by [events]. *)
Definition push (accepts_exception : json → bool) (key : string)
    (timeout : option Z) (t : JsPyTextSocket.target) (data : json)
    (events : list wire_event) (r : JsPyTextSocket.registry) (st : state)
  : push_status * state :=
  match inner_issue key t data r st with
  | (NoTarget rv, st1) =>
      run_push accepts_exception timeout 0 events (HasReturned rv) st1
  | (Waiting this_id _, st1) =>
      run_push accepts_exception timeout this_id events StillWaiting st1
  end.

End JsPyQueue.

(** ** JsPyPubsub.py: topics *)

(** A Python dict whose insertion order matters, as an association list:
    a new key goes to the end, an assignment to an old key keeps its place. *)
Section pydict.
Context {K V : Type} `{EqDecision K}.

Fixpoint dict_get (k : K) (d : list (K * V)) : option V :=
  match d with
  | [] => None
  | (k', v) :: rest => if decide (k = k') then Some v else dict_get k rest
  end.

Fixpoint dict_set (k : K) (v : V) (d : list (K * V)) : list (K * V) :=
  match d with
  | [] => [(k, v)]
  | (k', v') :: rest =>
      if decide (k = k') then (k, v) :: rest else (k', v') :: dict_set k v rest
  end.

Fixpoint dict_del (k : K) (d : list (K * V)) : list (K * V) :=
  match d with
  | [] => []
  | (k', v') :: rest =>
      if decide (k = k') then rest else (k', v') :: dict_del k rest
  end.

Definition dict_keys (d : list (K * V)) : list K := map fst d.
End pydict.

Module JsPyPubsub.

Definition _PUBSUB_ID_MAX : Z := 0xFFFFFFFF.

(** The hashable values a topic can be, up to Python's equality of keys
    ([True == 1], [False == 0]). *)
Inductive pykey : Type :=
| KNone
| KNum (n : Z)
| KStr (s : string).

#[global] Instance pykey_eq_dec : EqDecision pykey.
Proof. solve_decision. Defined.

(** [None] is the [TypeError] of an unhashable value. *)
Definition hash_key (x : json) : option pykey :=
  match x with
  | JNull => Some KNone
  | JBool b => Some (KNum (Z.b2z b))
  | JInt n => Some (KNum n)
  | JStr s => Some (KStr s)
  | JList _ | JDict _ => None
  end.

Record state : Type := State {
  _pubsub_id : Z;
  _topic_manager : list (pykey * gset Z);
  _topic_callback : list (pykey * pyfunc)
}.

Definition initial : state := State 0 [] [].

(** What a call of the module returns to Python code. *)
Inductive pyvalue : Type :=
| PyNone
| PyBool (b : bool)
| PyFunction (f : pyfunc)
| PyInner (topic : pykey).     (* the closure [inner] of [subscribe] *)

(** The closure returned by [subscribe(topic)]. *)
Definition inner (topic : pykey) (target_func : pyfunc) (st : state)
  : pyvalue * state :=
  (PyNone,
   State (_pubsub_id st) (_topic_manager st)
         (dict_set topic target_func (_topic_callback st))).

Definition subscribe (topic : pykey) (func : option pyfunc) (st : state)
  : pyvalue * state :=
  match func with
  | None => (PyInner topic, st)
  | Some f =>
      (PyBool true,
       State (_pubsub_id st) (_topic_manager st)
             (dict_set topic f (_topic_callback st)))
  end.

Definition unsubscribe (topic : pykey) (st : state) : pyvalue * state :=
  (PyBool true,
   State (_pubsub_id st) (_topic_manager st)
         (dict_del topic (_topic_callback st))).

(** [@decorator] over [def f]: the name of [f] is bound to
    [decorator(f)]; [None] is the [TypeError] of a value that cannot be
    called. *)
Definition decorate (decorator : pyvalue) (f : pyfunc)
    (namespace : gmap string pyvalue) (st : state)
  : option (gmap string pyvalue * state) :=
  match decorator with
  | PyInner topic =>
      let '(v, st') := inner topic f st in
      Some (<[fn_name f := v]> namespace, st')
  | _ => None
  end.

Definition with_manager (m : list (pykey * gset Z)) (st : state) : state :=
  State (_pubsub_id st) m (_topic_callback st).

(** Processes data with protocol 'sub_call'. *)
Definition _sub_from_js (ws : WebSocket) (socket_id : Z) (dict_data : envelope)
    (st : state) : state * list (WebSocket * envelope) :=
  let topic := key dict_data in
  let send_dic exc := Envelope (JStr "sub_return") topic (id dict_data) JNull exc in
  match hash_key topic with
  | Some k =>
      let m := _topic_manager st in
      let m' :=
        match dict_get k m with
        | Some subscribers => dict_set k (subscribers ∪ {[socket_id]}) m
        | None => dict_set k {[socket_id]} m
        end in
      (with_manager m' st, [(ws, send_dic JNull)])
  | None =>
      (st, [(ws, send_dic (JStr "The topic name is incorrect @python"))])
  end.

(** Processes data with protocol 'unsub_call'. *)
Definition _unsub_from_js (ws : WebSocket) (socket_id : Z) (dict_data : envelope)
    (st : state) : state * list (WebSocket * envelope) :=
  let topic := key dict_data in
  let send_dic exc := Envelope (JStr "unsub_return") topic (id dict_data) JNull exc in
  match hash_key topic with
  | Some k =>
      let m := _topic_manager st in
      let m' :=
        match dict_get k m with
        | Some subscribers =>
            let subscribers' := subscribers ∖ {[socket_id]} in
            if decide (subscribers' = ∅) then dict_del k m
            else dict_set k subscribers' m
        | None => m
        end in
      (with_manager m' st, [(ws, send_dic JNull)])
  | None =>
      (st, [(ws, send_dic (JStr "The topic name is incorrect @python"))])
  end.

Definition next_pubsub_id (c : Z) : Z :=
  if _PUBSUB_ID_MAX <? c + 1 then 1 else c + 1.

(** What [_pub_from_js] does besides changing the state. *)
Record published : Type := Published {
  pub_return : WebSocket * envelope;
  called_back : option pyfunc;
  pub : list (Z * envelope)
}.

(** The sockets of the fan-out: [_topic_manager[topic]], or that set
    without [socket_id], as far as [multicast] finds them in the pool. *)
Definition fan_out (socket_id : Z) (dict_data : envelope) (st : state)
    (r : JsPyTextSocket.registry) : list Z :=
  match hash_key (key dict_data) with
  | Some k =>
      match dict_get k (_topic_manager st) with
      | Some subscribers =>
          let suppress := exception dict_data in
          let targets :=
            if is_False suppress then subscribers
            else subscribers ∖ {[socket_id]} in
          JsPyTextSocket.multicast_targets
            (JsPyTextSocket.TMany (elements targets)) r
      | None => []
      end
  | None => []
  end.

(** Processes data with protocol 'pub_call'. *)
Definition _pub_from_js (ws : WebSocket) (socket_id : Z) (dict_data : envelope)
    (st : state) (r : JsPyTextSocket.registry) : state * published :=
  let topic := key dict_data in
  let message := data dict_data in
  let send_dic := Envelope (JStr "pub_return") topic (id dict_data) JNull JNull in
  let pubsub_id := next_pubsub_id (_pubsub_id st) in
  let callback :=
    match hash_key topic with
    | Some k => dict_get k (_topic_callback st)
    | None => None
    end in
  let send_pub := Envelope (JStr "pub") topic (JInt pubsub_id) message JNull in
  (State pubsub_id (_topic_manager st) (_topic_callback st),
   Published (ws, send_dic) callback
             (map (λ i, (i, send_pub)) (fan_out socket_id dict_data st r))).

Inductive RuntimeError : Type := DictionaryChangedSize.

(** The loop [for topic in _topic_manager] of [_socket_event], over the
    keys that are left to visit. A [del] changes the size of the dict
    under the iterator, whose next step then raises [RuntimeError]:
    the loop ends there, whatever is left to visit. *)
Fixpoint socket_event_loop (socket_id : Z) (topics : list pykey)
    (m : list (pykey * gset Z)) : list (pykey * gset Z) * option RuntimeError :=
  match topics with
  | [] => (m, None)
  | topic :: rest =>
      match dict_get topic m with
      | Some subscribers =>
          let subscribers' := subscribers ∖ {[socket_id]} in
          if decide (subscribers' = ∅)
          then (dict_del topic m, Some DictionaryChangedSize)
          else socket_event_loop socket_id rest (dict_set topic subscribers' m)
      | None => (m, None)
      end
  end.

(** The listener registered with [add_socket_event]. *)
Definition _socket_event (socket_id : Z) (event : string) (st : state)
  : state * option RuntimeError :=
  if String.eqb event "disconnect" then
    let '(m, raised) :=
      socket_event_loop socket_id (dict_keys (_topic_manager st))
                        (_topic_manager st) in
    (with_manager m st, raised)
  else (st, None).

(** What the broker sees of the clients. [on_disconnect] calls the
    listener inside [try: ... except: pass]. *)
Inductive client_event : Type :=
| Subscribe (ws : WebSocket) (socket_id : Z) (dict_data : envelope)
| Unsubscribe (ws : WebSocket) (socket_id : Z) (dict_data : envelope)
| Disconnect (socket_id : Z).

Definition handle (ev : client_event) (st : state) : state :=
  match ev with
  | Subscribe ws socket_id dict_data => fst (_sub_from_js ws socket_id dict_data st)
  | Unsubscribe ws socket_id dict_data => fst (_unsub_from_js ws socket_id dict_data st)
  | Disconnect socket_id => fst (_socket_event socket_id "disconnect" st)
  end.

Definition handle_all (events : list client_event) (st : state) : state :=
  fold_left (λ st ev, handle ev st) events st.

(** [list(_topic_callback.keys())] *)
Definition get_topics (st : state) : list pykey :=
  dict_keys (_topic_callback st).

End JsPyPubsub.

(** ** JsPyQueue.py: the queues of the server *)

Module JsPyQueueStack.

(** [_queue_stack], a dict of deques in insertion order, and
    [_queue_callbacks], a set of functions (its order is the order of
    arrival here). *)
Record store : Type := Store {
  _queue_stack : list (JsPyPubsub.pykey * list json);
  _queue_callbacks : list pyfunc
}.

Definition initial : store := Store [] [].

Definition pop (key : JsPyPubsub.pykey) (default_value : json) (st : store)
  : json * store :=
  match dict_get key (_queue_stack st) with
  | Some q =>
      match last q with
      | Some x =>
          (x, Store (dict_set key (removelast q) (_queue_stack st))
                    (_queue_callbacks st))
      | None => (default_value, st)
      end
  | None => (default_value, st)
  end.

Definition shift (key : JsPyPubsub.pykey) (default_value : json) (st : store)
  : json * store :=
  match dict_get key (_queue_stack st) with
  | Some (x :: q) =>
      (x, Store (dict_set key q (_queue_stack st)) (_queue_callbacks st))
  | _ => (default_value, st)
  end.

#[global] Instance pyfunc_eq_dec : EqDecision pyfunc.
Proof. solve_decision. Defined.

(** [_queue_callbacks.add(func)] *)
Definition add_callback (func : pyfunc) (st : store) : store :=
  Store (_queue_stack st)
        (if bool_decide (func ∈ _queue_callbacks st) then _queue_callbacks st
         else _queue_callbacks st ++ [func]).

Definition clear_callback (st : store) : store :=
  Store (_queue_stack st) [].

Definition is_empty (key : JsPyPubsub.pykey) (st : store) : bool :=
  match dict_get key (_queue_stack st) with
  | Some q => bool_decide (length q = 0%nat)
  | None => true
  end.

Definition get_keys (st : store) : list JsPyPubsub.pykey :=
  dict_keys (_queue_stack st).

Definition has (key : JsPyPubsub.pykey) (st : store) : bool :=
  bool_decide (is_Some (dict_get key (_queue_stack st))).

Definition clear (key : JsPyPubsub.pykey) (st : store) : store :=
  match dict_get key (_queue_stack st) with
  | Some _ => Store (dict_set key [] (_queue_stack st)) (_queue_callbacks st)
  | None => st
  end.

Definition clear_all (st : store) : store :=
  Store (map (λ kq, (fst kq, [])) (_queue_stack st)) (_queue_callbacks st).

Definition remove (key : JsPyPubsub.pykey) (st : store) : store :=
  match dict_get key (_queue_stack st) with
  | Some _ => Store (dict_del key (_queue_stack st)) (_queue_callbacks st)
  | None => st
  end.

Definition remove_all (st : store) : store :=
  Store [] (_queue_callbacks st).

(** How [_queue] starts an arrival callback. *)
Inductive started : Type :=
| CreateTask (callback : pyfunc) (key : json)
| Reserve (callback : pyfunc) (key : json).

(** Processes data with protocol 'queue', 'queue_call': the new store,
    what is written to the websocket and the callbacks that are started. *)
Definition _queue (ws : WebSocket) (socket_id : Z) (dict_data : envelope)
    (st : store) : store * list (WebSocket * envelope) * list started :=
  let send_dic exc :=
    Envelope (JStr "queue_return") (key dict_data) (id dict_data) JNull exc in
  let answer exc :=
    if json_is_str (protocol dict_data) "queue_call"
    then [(ws, send_dic exc)] else [] in
  match JsPyPubsub.hash_key (key dict_data) with
  | Some k =>
      let stack :=
        match dict_get k (_queue_stack st) with
        | Some q => dict_set k (q ++ [data dict_data]) (_queue_stack st)
        | None => dict_set k [data dict_data] (_queue_stack st)
        end in
      (Store stack (_queue_callbacks st),
       answer JNull,
       map (λ callback,
              if iscoroutinefunction callback
              then CreateTask callback (key dict_data)
              else Reserve callback (key dict_data))
           (_queue_callbacks st))
  | None =>
      (st, answer (JStr "The queue key name is incorrect @python"), [])
  end.

End JsPyQueueStack.

(** * Properties *)

(** ** Auxiliary notions *)

(** The server as its handlers see it: the registry, and the number of
    handlers that are suspended at the [await ws.accept()] of
    [on_connect]. *)
Record server : Type := Server {
  registry_of : JsPyTextSocket.registry;
  accepting : nat
}.

(** What the event loop runs next: a handler starts [on_connect] and is
    suspended at the accept, a suspended handler is resumed (with its
    websocket), a handler runs [on_disconnect], the application sets the
    limit. Handshakes overlap with each other and with everything else. *)
Inductive registry_event : Type :=
| Begins
| Resumes (fuel : nat) (ws : WebSocket)
| Disconnects (socket_id : Z)
| Limits (limit : Z).

Definition registry_step (ev : registry_event) (s : server) : option server :=
  match ev with
  | Begins =>
      Some (Server (snd (JsPyTextSocket.on_connect_begin (registry_of s)))
                   (S (accepting s)))
  | Resumes fuel ws =>
      match accepting s with
      | O => None
      | S n =>
          (λ res, Server (snd res) n)
            <$> JsPyTextSocket.on_connect_accepted fuel ws (registry_of s)
      end
  | Disconnects socket_id =>
      Some (Server (JsPyTextSocket.on_disconnect socket_id (registry_of s))
                   (accepting s))
  | Limits limit =>
      Some (Server (JsPyTextSocket.set_connection_limit limit (registry_of s))
                   (accepting s))
  end.

Fixpoint registry_run (events : list registry_event) (s : server)
  : option server :=
  match events with
  | [] => Some s
  | ev :: rest =>
      match registry_step ev s with
      | Some s' => registry_run rest s'
      | None => None
      end
  end.

(** The registries the server can be in, between two steps of the event
    loop, with [n] handshakes in progress. *)
Definition reachable_with (n : nat) (r : JsPyTextSocket.registry) : Prop :=
  ∃ events,
    registry_run events (Server JsPyTextSocket.initial 0) = Some (Server r n).

Definition reachable (r : JsPyTextSocket.registry) : Prop :=
  ∃ n, reachable_with n r.

(** The counter is within its range and so are the ids of the pool. *)
Definition in_range (r : JsPyTextSocket.registry) : Prop :=
  0 ≤ JsPyTextSocket._socket_serial r ≤ JsPyTextSocket.SERIAL_MAX ∧
  ∀ k, is_Some (JsPyTextSocket._socket_pool r !! k) →
       1 ≤ k ≤ JsPyTextSocket.SERIAL_MAX.




(** A coroutine of [_call_from_js] holds the function when it is
    between the two assignments to the running flag, or when it waits for
    a ticket that has been resolved. *)
Definition holding (resolved : gset nat) (t : nat) (fr : JsPyFunction.frame)
  : Prop :=
  JsPyFunction.executing fr = true ∨
  (JsPyFunction.f_pc fr = JsPyFunction.AwaitTicket ∧ t ∈ resolved).

(** The coroutines that serve the key [k], exposed with the wait queue 0:
    [b] is the running flag, [waiting] the content of the queue. *)
Definition serialized (k : string) (b : bool) (waiting : list nat)
    (resolved : gset nat) (tasks : gmap nat JsPyFunction.frame) : Prop :=
  NoDup waiting ∧
  (∀ t, t ∈ waiting ↔
        ∃ fr, tasks !! t = Some fr ∧
              JsPyFunction.f_pc fr = JsPyFunction.AwaitTicket ∧
              t ∉ resolved) ∧
  (b = false → waiting = []) ∧
  (∀ t fr, tasks !! t = Some fr →
           JsPyFunction.f_pc fr = JsPyFunction.Finished ∨
           (JsPyFunction.f_key fr = JStr k ∧
            JsPyFunction.f_exclusive fr = Some 0%nat ∧
            JsPyFunction.f_pc fr ≠ JsPyFunction.Crashed)) ∧
  (∀ t, t ∈ resolved → is_Some (tasks !! t)) ∧
  (∀ t1 t2 fr1 fr2,
     tasks !! t1 = Some fr1 → tasks !! t2 = Some fr2 →
     holding resolved t1 fr1 → holding resolved t2 fr2 → t1 = t2) ∧
  (b = true ↔ ∃ t fr, tasks !! t = Some fr ∧ holding resolved t fr).

Definition exclusive_inv (k : string) (f : pyfunc) (st : JsPyFunction.state)
  : Prop :=
  ∃ b waiting,
    JsPyFunction._exposed_function st
      = {[k := JsPyFunction.Exposed f (iscoroutinefunction f) b (Some 0%nat)]} ∧
    JsPyFunction.queues st = [waiting] ∧
    serialized k b waiting (JsPyFunction.resolved st) (JsPyFunction.tasks st).

(** The data that the envelopes [envs] bring to the queue [k], in the
    order of arrival, and the store after [_queue] has handled them. *)
Definition arrived (k : JsPyPubsub.pykey) (envs : list envelope) : list json :=
  map data (filter (λ e, JsPyPubsub.hash_key (key e) = Some k) envs).

Definition arrivals (ws : WebSocket) (socket_id : Z) (envs : list envelope)
    (st : JsPyQueueStack.store) : JsPyQueueStack.store :=
  fold_left (λ st e, fst (fst (JsPyQueueStack._queue ws socket_id e st))) envs st.

(** [n] calls of [shift], of [pop]: the values returned and the store. *)
Fixpoint shifts (n : nat) (k : JsPyPubsub.pykey) (default_value : json)
    (st : JsPyQueueStack.store) : list json * JsPyQueueStack.store :=
  match n with
  | O => ([], st)
  | S n' =>
      let '(x, st1) := JsPyQueueStack.shift k default_value st in
      let '(xs, st2) := shifts n' k default_value st1 in
      (x :: xs, st2)
  end.

Fixpoint pops (n : nat) (k : JsPyPubsub.pykey) (default_value : json)
    (st : JsPyQueueStack.store) : list json * JsPyQueueStack.store :=
  match n with
  | O => ([], st)
  | S n' =>
      let '(x, st1) := JsPyQueueStack.pop k default_value st in
      let '(xs, st2) := pops n' k default_value st1 in
      (x :: xs, st2)
  end.

(** The acknowledgments among the events of a push, and the slots of a
    push that are not settled. *)
Definition acks (events : list JsPyQueue.wire_event) : nat :=
  length (List.filter
            (λ ev, match ev with JsPyQueue.Ack _ _ => true | _ => false end)
            events).

Definition unsettled (futures : list JsPyQueue.slot) : nat :=
  length (List.filter (λ ft, negb (done ft)) futures).

(** Successive calls of the closure of [call_nowait(key, target)], of
    [push_nowait(key, target)]. *)
Definition nowaits (key : string) (t : JsPyTextSocket.target)
    (argss : list (list json)) (st : JsPyFunction.state)
    (bg : JsPyBackground.state JsPyTextSocket.reservation)
  : JsPyFunction.state * JsPyBackground.state JsPyTextSocket.reservation :=
  fold_left (λ s args, JsPyFunction.inner_nowait key t args (fst s) (snd s))
            argss (st, bg).

Definition push_nowaits (key : string) (t : JsPyTextSocket.target)
    (datas : list json) (st : JsPyQueue.state)
    (bg : JsPyBackground.state JsPyTextSocket.reservation)
  : JsPyQueue.state * JsPyBackground.state JsPyTextSocket.reservation :=
  fold_left (λ s data, JsPyQueue.inner_nowait key t data (fst s) (snd s))
            datas (st, bg).

(** What is written to a websocket answers a request among [events]:
    a "function_return" envelope for a "function_call" envelope received
    on that websocket, with the key and id of the request and no data
    beside an exception. [frame_answers] is the same for the envelope a
    coroutine of [_call_from_js] has prepared. *)
Definition answers (events : list JsPyFunction.event)
    (sent : WebSocket * envelope) : Prop :=
  protocol (snd sent) = JStr "function_return" ∧
  (exception (snd sent) ≠ JNull → data (snd sent) = JNull) ∧
  ∃ t socket_id request,
    JsPyFunction.Call t (fst sent) socket_id request ∈ events ∧
    protocol request = JStr "function_call" ∧
    key (snd sent) = key request ∧ id (snd sent) = id request.

Definition frame_answers (events : list JsPyFunction.event) (t : nat)
    (f : JsPyFunction.frame) : Prop :=
  protocol (JsPyFunction.f_send_dic f) = JStr "function_return" ∧
  (exception (JsPyFunction.f_send_dic f) ≠ JNull →
   data (JsPyFunction.f_send_dic f) = JNull) ∧
  ∃ socket_id request,
    JsPyFunction.Call t (JsPyFunction.f_ws f) socket_id request ∈ events ∧
    JsPyFunction.f_protocol f = protocol request ∧
    key (JsPyFunction.f_send_dic f) = key request ∧
    id (JsPyFunction.f_send_dic f) = id request.

(** The traces in which only connected sockets are disconnected, as when
    every handler calls [on_disconnect] once, for the id it was given. *)
Fixpoint orderly (events : list registry_event) (s : server) : bool :=
  match events with
  | [] => true
  | ev :: rest =>
      match ev with
      | Disconnects socket_id =>
          bool_decide
            (is_Some (JsPyTextSocket._socket_pool (registry_of s) !! socket_id))
      | _ => true
      end
      && match registry_step ev s with
         | Some s' => orderly rest s'
         | None => true
         end
  end.

(** ** The connection registry *)

Section registry.
Import JsPyTextSocket.

Lemma bump_range s : 0 ≤ s ≤ SERIAL_MAX → 1 ≤ bump s ≤ SERIAL_MAX.
Proof.
  unfold bump, SERIAL_MAX. intros Hs.
  destruct (Z.ltb_spec 4294967295 (s + 1)); lia.
Qed.

Lemma bump_closed_form s :
  1 ≤ s ≤ SERIAL_MAX → bump s = s mod SERIAL_MAX + 1.
Proof.
  unfold bump, SERIAL_MAX. intros Hs.
  destruct (Z.ltb_spec 4294967295 (s + 1)).
  - assert (s = 4294967295) as -> by lia. reflexivity.
  - rewrite Z.mod_small; lia.
Qed.

Lemma iter_bump_closed_form (j : nat) s :
  1 ≤ s ≤ SERIAL_MAX →
  Nat.iter j bump s = (s - 1 + Z.of_nat j) mod SERIAL_MAX + 1.
Proof.
  intros Hs. induction j as [|j IH].
  - simpl. rewrite Z.add_0_r, Z.mod_small; unfold SERIAL_MAX in *; lia.
  - simpl. rewrite IH.
    assert (Hm : 0 ≤ (s - 1 + Z.of_nat j) mod SERIAL_MAX < SERIAL_MAX)
      by (apply Z.mod_pos_bound; reflexivity).
    rewrite bump_closed_form by lia.
    rewrite <- Zplus_mod_idemp_l.
    replace (s - 1 + Z.of_nat (S j)) with (s - 1 + Z.of_nat j + 1) by lia.
    rewrite <- (Zplus_mod_idemp_l (s - 1 + Z.of_nat j) 1).
    set (m := (s - 1 + Z.of_nat j) mod SERIAL_MAX) in *.
    f_equal. rewrite Zplus_mod_idemp_l. reflexivity.
Qed.

Lemma iter_bump_range (j : nat) s :
  1 ≤ s ≤ SERIAL_MAX → 1 ≤ Nat.iter j bump s ≤ SERIAL_MAX.
Proof.
  intros Hs. rewrite iter_bump_closed_form by done.
  pose proof (Z.mod_pos_bound (s - 1 + Z.of_nat j) SERIAL_MAX eq_refl). lia.
Qed.

Lemma iter_bump_inj (i j : nat) s :
  1 ≤ s ≤ SERIAL_MAX →
  Z.of_nat i < SERIAL_MAX → Z.of_nat j < SERIAL_MAX →
  Nat.iter i bump s = Nat.iter j bump s → i = j.
Proof.
  intros Hs Hi Hj. rewrite !iter_bump_closed_form by done. intros Heq.
  assert (He : (s - 1 + Z.of_nat i) mod SERIAL_MAX
               = (s - 1 + Z.of_nat j) mod SERIAL_MAX) by lia.
  clear Heq. unfold SERIAL_MAX in *.
  pose proof (Z.div_mod (s - 1 + Z.of_nat i) 4294967295 ltac:(lia)) as Di.
  pose proof (Z.div_mod (s - 1 + Z.of_nat j) 4294967295 ltac:(lia)) as Dj.
  pose proof (Z.mod_pos_bound (s - 1 + Z.of_nat i) 4294967295 eq_refl).
  pose proof (Z.mod_pos_bound (s - 1 + Z.of_nat j) 4294967295 eq_refl).
  rewrite He in Di. lia.
Qed.

Lemma probe_None fuel s (pool : gmap Z WebSocket) :
  probe fuel s pool = None →
  ∀ j : nat, (j < fuel)%nat → is_Some (pool !! Nat.iter j bump s).
Proof.
  revert s. induction fuel as [|fuel IH]; intros s Hp j Hj; [lia|].
  simpl in Hp. destruct (pool !! s) as [ws|] eqn:Hs; [|discriminate].
  destruct j as [|j]; [simpl; eauto|].
  rewrite Nat.iter_succ_r. apply IH; [done|lia].
Qed.

Lemma probe_Some fuel s (pool : gmap Z WebSocket) x :
  probe fuel s pool = Some x →
  ∃ k : nat, (k < fuel)%nat ∧ x = Nat.iter k bump s ∧ pool !! x = None ∧
             ∀ j : nat, (j < k)%nat → is_Some (pool !! Nat.iter j bump s).
Proof.
  revert s. induction fuel as [|fuel IH]; intros s Hp; [discriminate|].
  simpl in Hp. destruct (pool !! s) as [ws|] eqn:Hs.
  - destruct (IH _ Hp) as (k & Hk & -> & Hfree & Hskip).
    exists (S k). rewrite Nat.iter_succ_r. repeat split; [lia|done|].
    intros [|j] Hj; [simpl; eauto|].
    rewrite Nat.iter_succ_r. apply Hskip. lia.
  - injection Hp as <-. exists 0%nat. repeat split; [lia|done|].
    intros j Hj. lia.
Qed.

Lemma probe_more_fuel fuel fuel' s (pool : gmap Z WebSocket) x :
  probe fuel s pool = Some x → (fuel ≤ fuel')%nat → probe fuel' s pool = Some x.
Proof.
  revert fuel' s. induction fuel as [|fuel IH]; intros fuel' s Hp Hle;
    [discriminate|].
  destruct fuel' as [|fuel']; [lia|].
  simpl in *. destruct (pool !! s); [|done]. apply IH; [done|lia].
Qed.

(** The pigeonhole argument: probes that all hit the pool are pairwise
    different ids of the pool. *)
Lemma probe_None_size fuel s (pool : gmap Z WebSocket) :
  1 ≤ s ≤ SERIAL_MAX → Z.of_nat fuel ≤ SERIAL_MAX →
  probe fuel s pool = None → (fuel ≤ size pool)%nat.
Proof.
  intros Hs Hfuel Hp.
  pose proof (probe_None _ _ _ Hp) as Hall.
  set (l := (λ j : nat, Nat.iter j bump s) <$> seq 0 fuel).
  assert (Hnd : NoDup l).
  { apply NoDup_fmap_2_strong; [|apply NoDup_seq].
    intros i j Hi Hj Heq. apply elem_of_seq in Hi, Hj.
    apply (iter_bump_inj i j s); [done|lia|lia|done]. }
  assert (Hsub : ∀ x, x ∈ l → x ∈ elements (dom pool)).
  { intros x Hx. apply list_elem_of_fmap in Hx as (j & -> & Hj).
    apply elem_of_seq in Hj. apply elem_of_elements, elem_of_dom, Hall. lia. }
  pose proof (submseteq_length _ _ (NoDup_submseteq _ _ Hnd Hsub)) as Hlen.
  unfold l in Hlen. rewrite length_fmap, length_seq in Hlen.
  rewrite <- size_dom. exact Hlen.
Qed.

Lemma probe_enough fuel s (pool : gmap Z WebSocket) :
  1 ≤ s ≤ SERIAL_MAX → Z.of_nat (size pool) < SERIAL_MAX →
  (size pool < fuel)%nat → is_Some (probe fuel s pool).
Proof.
  intros Hs Hsize Hfuel.
  destruct (probe (S (size pool)) s pool) as [x|] eqn:Hp.
  - exists x. eapply probe_more_fuel; [done|lia].
  - apply probe_None_size in Hp; [lia|done|lia].
Qed.

Lemma on_connect_accepted_inv fuel ws r socket_id acts r' :
  on_connect_accepted fuel ws r = Some (socket_id, acts, r') →
  probe fuel (bump (_socket_serial r)) (_socket_pool r) = Some socket_id ∧
  r' = Registry (_connected r) (_connection_limit r) socket_id
                (<[socket_id := ws]> (_socket_pool r)).
Proof.
  unfold on_connect_accepted, _append_socket.
  destruct (probe fuel (bump (_socket_serial r)) (_socket_pool r))
    as [x|] eqn:Hp; [|discriminate].
  simpl. intros Hc. by destruct (_ && _); injection Hc as <- _ <-.
Qed.

Lemma registry_step_in_range ev s s' :
  in_range (registry_of s) → registry_step ev s = Some s' →
  in_range (registry_of s').
Proof.
  intros [Hser Hpool] Hstep.
  destruct ev as [|fuel ws|sid|limit]; simpl in Hstep.
  - by injection Hstep as <-.
  - destruct (accepting s) as [|n]; [discriminate|].
    destruct (on_connect_accepted fuel ws (registry_of s))
      as [[[sid acts] r1]|] eqn:Hc; [|discriminate].
    injection Hstep as <-. apply on_connect_accepted_inv in Hc as [Hp ->].
    apply probe_Some in Hp as (k & _ & -> & _ & _).
    pose proof (iter_bump_range k _ (bump_range _ Hser)) as Hx.
    split; simpl; [lia|].
    intros j Hj. rewrite lookup_insert in Hj.
    case_decide; [lia|by apply Hpool].
  - injection Hstep as <-. simpl. unfold on_disconnect, _delete_socket.
    destruct (_socket_pool (registry_of s) !! sid) eqn:Hs; split; simpl;
      try done.
    intros k Hk. rewrite lookup_delete in Hk.
    case_decide; [by destruct Hk|by apply Hpool].
  - by injection Hstep as <-.
Qed.

Lemma registry_run_in_range events s s' :
  in_range (registry_of s) → registry_run events s = Some s' →
  in_range (registry_of s').
Proof.
  revert s. induction events as [|ev events IH]; intros s Hs Hrun; simpl in Hrun.
  - by injection Hrun as <-.
  - destruct (registry_step ev s) as [s1|] eqn:Hstep; [|discriminate].
    eauto using registry_step_in_range.
Qed.

Lemma reachable_in_range r : reachable r → in_range r.
Proof.
  intros (n & events & Hrun).
  apply (registry_run_in_range events (Server initial 0) (Server r n));
    [|done].
  split; [simpl; unfold SERIAL_MAX; lia|].
  intros k [ws Hk]. simpl in Hk. by rewrite lookup_empty in Hk.
Qed.

(** A connection keeps its id as long as it is not disconnected. *)
Lemma registry_run_keeps events s s' k ws :
  registry_run events s = Some s' →
  _socket_pool (registry_of s) !! k = Some ws →
  Disconnects k ∉ events →
  _socket_pool (registry_of s') !! k = Some ws.
Proof.
  revert s. induction events as [|ev events IH]; intros s Hrun Hk Hnot;
    simpl in Hrun.
  - by injection Hrun as <-.
  - destruct (registry_step ev s) as [s1|] eqn:Hstep; [|discriminate].
    apply (IH s1); [done| |set_solver].
    destruct ev as [|fuel ws'|sid|limit]; simpl in Hstep.
    + by injection Hstep as <-.
    + destruct (accepting s) as [|n]; [discriminate|].
      destruct (on_connect_accepted fuel ws' (registry_of s))
        as [[[sid acts] r2]|] eqn:Hc; [|discriminate].
      injection Hstep as <-. apply on_connect_accepted_inv in Hc as [Hp ->].
      apply probe_Some in Hp as (_ & _ & _ & Hfree & _). simpl.
      rewrite lookup_insert_ne; [done|congruence].
    + injection Hstep as <-. simpl. unfold on_disconnect, _delete_socket.
      destruct (_socket_pool (registry_of s) !! sid) eqn:Hs; simpl; [|done].
      rewrite lookup_delete_ne; [done|]. intros ->. set_solver.
    + by injection Hstep as <-.
Qed.

(** C5. In every registry the server can be in, handshakes in progress
    or not, that still has a free id, [_append_socket] gives an id which
    is positive (never 0) and at most 2^32-1, which no connected peer
    holds at that time, and which is the first id not in the pool on the
    way from the counter by steps of one, the step after 2^32-1 leading
    to 1; the counter is left at the id that was given, so that the next
    id is drawn from there. The connection then holds that id, whatever
    happens, until it is disconnected, so that the id is given again only
    after that. *)
Theorem socket_id_assignment (r : registry) :
  reachable r →
  (∀ (ws : WebSocket) (fuel : nat),
     Z.of_nat (size (_socket_pool r)) < SERIAL_MAX →
     (size (_socket_pool r) < fuel)%nat →
     ∃ socket_id r',
       _append_socket fuel ws r = Some (socket_id, r') ∧
       1 ≤ socket_id ≤ SERIAL_MAX ∧
       _socket_pool r !! socket_id = None ∧
       _socket_pool r' = <[socket_id := ws]> (_socket_pool r) ∧
       _socket_serial r' = socket_id ∧
       _connected r' = _connected r ∧
       _connection_limit r' = _connection_limit r ∧
       (∃ k : nat,
          socket_id = Nat.iter (S k) bump (_socket_serial r) ∧
          ∀ j : nat, (j < k)%nat →
            is_Some (_socket_pool r !! Nat.iter (S j) bump (_socket_serial r))) ∧
       ∀ events n s'',
         registry_run events (Server r' n) = Some s'' →
         Disconnects socket_id ∉ events →
         _socket_pool (registry_of s'') !! socket_id = Some ws) ∧
  bump SERIAL_MAX = 1 ∧
  (∀ s, s < SERIAL_MAX → bump s = s + 1).
Proof.
  intros Hr. destruct (reachable_in_range r Hr) as [Hser Hpool].
  split; [|split].
  - intros ws fuel Hsize Hfuel.
    destruct (probe_enough fuel (bump (_socket_serial r)) (_socket_pool r))
      as [x Hp]; [by apply bump_range|done|done|].
    exists x, (Registry (_connected r) (_connection_limit r) x
                        (<[x := ws]> (_socket_pool r))).
    unfold _append_socket. rewrite Hp.
    apply probe_Some in Hp as (k & _ & Hx & Hfree & Hskip).
    split; [done|]. split.
    { rewrite Hx. apply iter_bump_range. by apply bump_range. }
    split; [done|]. split; [done|]. split; [done|]. split; [done|].
    split; [done|]. split.
    + exists k. rewrite !Nat.iter_succ_r. split; [done|].
      intros j Hj. rewrite Nat.iter_succ_r. by apply Hskip.
    + intros events n s'' Hrun Hnot.
      eapply registry_run_keeps; [done| |done]. simpl.
      by rewrite lookup_insert_eq.
  - reflexivity.
  - intros s Hs. unfold bump.
    destruct (Z.ltb_spec SERIAL_MAX (s + 1)); lia.
Qed.

Lemma socket_id_assignment_witness :
  let r := Registry 2 0 1 {[1 := 7%nat]} in
  reachable r ∧
  ∃ socket_id r',
    _append_socket 2 8%nat r = Some (socket_id, r') ∧
    1 ≤ socket_id ≤ SERIAL_MAX ∧
    _socket_pool r !! socket_id = None ∧
    _socket_serial r' = socket_id.
Proof.
  intros r.
  assert (Hr : reachable r).
  { exists 1%nat, [Begins; Begins; Resumes 1 7%nat]. reflexivity. }
  split; [exact Hr|].
  destruct (socket_id_assignment r Hr) as [Hconnect _].
  destruct (Hconnect 8%nat 2%nat)
    as (socket_id & r' & Ha & Hpos & Hfree & _ & Hserial & _).
  - vm_compute. reflexivity.
  - vm_compute. lia.
  - exists socket_id, r'. auto.
Defined.

(** What [on_connect] does from its resumption on, when it returns. *)
Lemma on_connect_sends (fuel : nat) (ws : WebSocket) (r : registry)
    (socket_id : Z) (acts : list action) (r' : registry) :
  on_connect_accepted fuel ws r = Some (socket_id, acts, r') →
  _append_socket fuel ws r = Some (socket_id, r') ∧
  (0 < _connection_limit r ∧ _connection_limit r < _connected r →
     acts = [SendJson refused; Close] ∧
     _socket_pool (on_disconnect socket_id r') = _socket_pool r ∧
     _connected (on_disconnect socket_id r') = _connected r - 1) ∧
  (¬ (0 < _connection_limit r ∧ _connection_limit r < _connected r) →
     acts = [SendJson (welcome socket_id)] ∧
     _socket_pool r' !! socket_id = Some ws) ∧
  (_connection_limit r = 0 → Close ∉ acts).
Proof.
  intros Hc. pose proof (on_connect_accepted_inv _ _ _ _ _ _ Hc) as [Hp Hr'].
  pose proof (probe_Some _ _ _ _ Hp) as (_ & _ & _ & Hfree & _).
  assert (Hnot : Close ∉ [SendJson (welcome socket_id)]).
  { intros Hin. apply elem_of_cons in Hin as [?|Hin]; [done|].
    by apply elem_of_nil in Hin. }
  unfold on_connect_accepted, _append_socket in *.
  rewrite Hp in *. simpl in Hc. subst r'. simpl in *.
  split; [done|].
  destruct (Z.ltb_spec 0 (_connection_limit r)) as [Hpos|Hzero];
    destruct (Z.ltb_spec (_connection_limit r) (_connected r)) as [Hex|Hok];
    simpl in Hc; injection Hc as <-.
  - split; [|split]; [|intros Hn; exfalso; apply Hn; lia|intros ?; lia].
    intros _. unfold on_disconnect, _delete_socket. simpl.
    rewrite lookup_insert_eq. simpl. split; [done|].
    split; [by apply delete_insert_id|done].
  - split; [|split]; [intros [Ha Hb]; lia| |done].
    intros _. split; [done|]. apply lookup_insert_eq.
  - split; [|split]; [intros [Ha Hb]; lia| |done].
    intros _. split; [done|]. apply lookup_insert_eq.
  - split; [|split]; [intros [Ha Hb]; lia| |done].
    intros _. split; [done|]. apply lookup_insert_eq.
Qed.

(** C6. A new connection is counted and accepted: [on_connect] runs up
    to the await of the accept, where it is suspended. In every registry
    the server can be in when the handler is resumed, whatever the other
    handlers did meanwhile, that still has a free id, the connection is
    given an id and then sent one "system"/"connect" envelope. When the
    limit is positive and the count of connections at that time (this
    one is counted since its begin, like every handshake in progress)
    exceeds it, the envelope has null data and the refusal in its
    exception field, the connection is closed, and the disconnect that
    follows takes the id out of the pool again and the connection out of
    the count. Otherwise the envelope has the id as data and a null
    exception. With the limit 0 no connection is closed. *)
Theorem on_connect_greeting (fuel : nat) (ws : WebSocket) (r : registry) :
  reachable r →
  Z.of_nat (size (_socket_pool r)) < SERIAL_MAX →
  (size (_socket_pool r) < fuel)%nat →
  (fst (on_connect_begin r) = [Accept] ∧
   _connected (snd (on_connect_begin r)) = _connected r + 1 ∧
   _connection_limit (snd (on_connect_begin r)) = _connection_limit r ∧
   _socket_serial (snd (on_connect_begin r)) = _socket_serial r ∧
   _socket_pool (snd (on_connect_begin r)) = _socket_pool r ∧
   ∀ n, reachable_with n r → reachable_with (S n) (snd (on_connect_begin r))) ∧
  ∃ socket_id acts r',
    on_connect_accepted fuel ws r = Some (socket_id, acts, r') ∧
    1 ≤ socket_id ∧
    _append_socket fuel ws r = Some (socket_id, r') ∧
    (0 < _connection_limit r ∧ _connection_limit r < _connected r →
       ∃ e, acts = [SendJson e; Close] ∧
            protocol e = JStr "system" ∧ key e = JStr "connect" ∧
            id e = JInt 0 ∧ data e = JNull ∧
            exception e =
              JStr "Connection refused due to connection limit @python" ∧
            _socket_pool (on_disconnect socket_id r') = _socket_pool r ∧
            _connected (on_disconnect socket_id r') = _connected r - 1) ∧
    (¬ (0 < _connection_limit r ∧ _connection_limit r < _connected r) →
       ∃ e, acts = [SendJson e] ∧
            protocol e = JStr "system" ∧ key e = JStr "connect" ∧
            id e = JInt 0 ∧ data e = JInt socket_id ∧ exception e = JNull ∧
            _socket_pool r' !! socket_id = Some ws) ∧
    (_connection_limit r = 0 → Close ∉ acts) ∧
    (∀ n, reachable_with (S n) r → reachable_with n r').
Proof.
  intros Hr Hsize Hfuel.
  destruct (reachable_in_range r Hr) as [Hser Hpool].
  split.
  { repeat (split; [done|]). intros n [events Hrun].
    exists (events ++ [Begins]).
    assert (Happ : ∀ evs s s', registry_run evs s = Some s' →
              registry_run (evs ++ [Begins]) s
              = registry_run [Begins] s').
    { induction evs as [|ev evs IH]; intros s s' Hs; simpl in Hs.
      - by injection Hs as <-.
      - simpl. destruct (registry_step ev s); [by apply IH|done]. }
    by rewrite (Happ _ _ _ Hrun). }
  destruct (probe_enough fuel (bump (_socket_serial r)) (_socket_pool r))
    as [x Hp]; [by apply bump_range|done|done|].
  assert (Hc : ∃ acts r', on_connect_accepted fuel ws r = Some (x, acts, r')).
  { unfold on_connect_accepted, _append_socket.
    rewrite Hp. simpl. destruct (_ && _); eauto. }
  destruct Hc as (acts & r' & Hc).
  destruct (on_connect_sends _ _ _ _ _ _ Hc) as (Happend & Hrefused & Hwelcome & Hzero).
  exists x, acts, r'. split; [done|]. split.
  { apply probe_Some in Hp as (k & _ & -> & _).
    apply iter_bump_range. by apply bump_range. }
  split; [done|]. split.
  { intros Hover. destruct (Hrefused Hover) as (-> & Hpool' & Hcount).
    exists refused. by repeat (split; [done|]). }
  split.
  { intros Hok. destruct (Hwelcome Hok) as (-> & Hin).
    exists (welcome x). by repeat (split; [done|]). }
  split; [done|].
  intros n [events Hrun]. exists (events ++ [Resumes fuel ws]).
  assert (Happ : ∀ evs s s', registry_run evs s = Some s' →
            registry_run (evs ++ [Resumes fuel ws]) s
            = registry_run [Resumes fuel ws] s').
  { induction evs as [|ev evs IH]; intros s s' Hs; simpl in Hs.
    - by injection Hs as <-.
    - simpl. destruct (registry_step ev s); [by apply IH|done]. }
  rewrite (Happ _ _ _ Hrun). simpl. by rewrite Hc.
Qed.

Lemma on_connect_greeting_witness :
  let r := Registry 2 1 0 ∅ in
  reachable r ∧
  ∃ socket_id acts r',
    on_connect_accepted 1 8%nat r = Some (socket_id, acts, r') ∧
    ∃ e, acts = [SendJson e; Close] ∧
         data e = JNull ∧
         _socket_pool (on_disconnect socket_id r') = _socket_pool r.
Proof.
  intros r.
  assert (Hr : reachable r)
    by (exists 2%nat, [Limits 1; Begins; Begins]; reflexivity).
  split; [exact Hr|].
  destruct (on_connect_greeting 1 8%nat r Hr)
    as (_ & socket_id & acts & r' & Hc & _ & _ & Hrefused & _).
  - vm_compute. reflexivity.
  - vm_compute. lia.
  - destruct Hrefused as (e & He & _ & _ & _ & Hdata & _ & Hpool & _);
      [simpl; lia|].
    exists socket_id, acts, r'. split; [exact Hc|]. exists e. auto.
Defined.

End registry.

(** ** Registration of functions and topic callbacks *)

Section registration.
Import JsPyFunction.

(** C7. [expose] answers false exactly when the key is exposed with its
    running flag set, and changes nothing then; otherwise it answers true
    and the key holds a new record: the function, whether it is a
    coroutine function, the running flag cleared, and a new empty wait
    queue exactly when [exclusive] is set. *)
Theorem expose_spec (key : string) (func : pyfunc) (exclusive : bool) (st : state) :
  (fst (expose key func exclusive st) = false ↔
     ∃ r, _exposed_function st !! key = Some r ∧ ex_running r = true) ∧
  (fst (expose key func exclusive st) = false →
     snd (expose key func exclusive st) = st) ∧
  (fst (expose key func exclusive st) = true →
     ∃ record,
       _exposed_function (snd (expose key func exclusive st))
         = <[key := record]> (_exposed_function st) ∧
       ex_func record = func ∧
       ex_iscoroutine record = iscoroutinefunction func ∧
       ex_running record = false ∧
       (exclusive = true →
          ∃ q, ex_exclusive record = Some q ∧
               queues st !! q = None ∧
               queues (snd (expose key func exclusive st)) !! q = Some []) ∧
       (exclusive = false → ex_exclusive record = None)).
Proof.
  assert (Hfresh : ∀ qs : list (list nat),
            qs !! length qs = None ∧ (qs ++ [[]]) !! length qs = Some []).
  { intros qs. split; [apply lookup_ge_None_2; lia|].
    rewrite lookup_app_r by lia. by rewrite Nat.sub_diag. }
  unfold expose, is_key_running.
  destruct (_exposed_function st !! key) as [r|] eqn:Hk;
    [destruct (ex_running r) eqn:Hrun|]; simpl.
  - split; [|split]; [|done|done]. split; [eauto|done].
  - split; [|split]; [|done|].
    + split; [done|]. intros (r' & [= <-] & Hr'). congruence.
    + intros _. destruct exclusive; eexists; (split; [reflexivity|]); simpl;
        repeat split; try done.
      intros _. exists (length (queues st)). split; [done|]. apply Hfresh.
  - split; [|split]; [|done|].
    + split; [done|]. intros (r' & [=] & _).
    + intros _. destruct exclusive; eexists; (split; [reflexivity|]); simpl;
        repeat split; try done.
      intros _. exists (length (queues st)). split; [done|]. apply Hfresh.
Qed.

(** C8, as the code has it. Exposing under a key that is running answers
    false and changes nothing; subscribing a callback to a topic that has
    one already does not fail: it answers true and the new callback
    replaces the old one; the decorators [callable] and
    [exclusive_callable] raise [KeyError], and change nothing, when the
    name of the function is exposed already, and return the function
    otherwise. *)
Theorem registration_failures :
  (∀ key func exclusive st r,
     _exposed_function st !! key = Some r → ex_running r = true →
     expose key func exclusive st = (false, st)) ∧
  (∀ topic old new st,
     dict_get topic (JsPyPubsub._topic_callback st) = Some old →
     fst (JsPyPubsub.subscribe topic (Some new) st) = JsPyPubsub.PyBool true ∧
     dict_get topic
       (JsPyPubsub._topic_callback (snd (JsPyPubsub.subscribe topic (Some new) st)))
       = Some new) ∧
  (∀ func st,
     (is_Some (_exposed_function st !! fn_name func) →
        (∃ err, fst (callable func st) = inl err) ∧
        snd (callable func st) = st ∧
        (∃ err, fst (exclusive_callable func st) = inl err) ∧
        snd (exclusive_callable func st) = st) ∧
     (_exposed_function st !! fn_name func = None →
        fst (callable func st) = inr func ∧
        fst (exclusive_callable func st) = inr func)).
Proof.
  split; [|split].
  - intros key func exclusive st r Hk Hrun.
    unfold expose, is_key_running. by rewrite Hk, Hrun.
  - intros topic old new st _. simpl. split; [done|].
    induction (JsPyPubsub._topic_callback st) as [|[k v] d IH]; simpl.
    + by rewrite decide_True.
    + destruct (decide (topic = k)) as [->|Hne]; simpl.
      * by rewrite decide_True.
      * by rewrite decide_False.
  - intros func st. unfold callable, exclusive_callable. split.
    + intros [r ->]. simpl. repeat split; eauto.
    + intros ->. done.
Qed.

End registration.

(** C8 does not hold as stated: a second callback subscribed to the topic
    chat is not refused with false; [subscribe] answers true and the
    second callback replaces the first. *)
Lemma subscribe_duplicate_succeeds :
  let first := PyFunc 0 "first" false in
  let second := PyFunc 1 "second" false in
  let st := snd (JsPyPubsub.subscribe (JsPyPubsub.KStr "chat") (Some first)
                   JsPyPubsub.initial) in
  dict_get (JsPyPubsub.KStr "chat") (JsPyPubsub._topic_callback st) = Some first ∧
  JsPyPubsub.subscribe (JsPyPubsub.KStr "chat") (Some second) st
    = (JsPyPubsub.PyBool true,
       JsPyPubsub.State 0 [] [(JsPyPubsub.KStr "chat", second)]) ∧
  fst (JsPyPubsub.subscribe (JsPyPubsub.KStr "chat") (Some second) st)
    ≠ JsPyPubsub.PyBool false.
Proof. repeat split. discriminate. Qed.

(** ** Topics *)

Section topics.
Import JsPyPubsub.

Lemma dict_get_set {K V} `{EqDecision K} (k : K) (v : V) (d : list (K * V)) :
  dict_get k (dict_set k v d) = Some v.
Proof.
  induction d as [|[k' v'] d IH]; simpl.
  - by rewrite decide_True.
  - destruct (decide (k = k')) as [->|Hne]; simpl.
    + by rewrite decide_True.
    + by rewrite decide_False.
Qed.

Lemma elem_of_multicast_targets_many (s : Z) (l : list Z)
    (r : JsPyTextSocket.registry) :
  s ∈ JsPyTextSocket.multicast_targets (JsPyTextSocket.TMany l) r ↔
  s ∈ l ∧ is_Some (JsPyTextSocket._socket_pool r !! s).
Proof. simpl. rewrite list_elem_of_filter. tauto. Qed.

(** C9. The socket that sent a "pub_call" is among the receivers of the
    "pub" envelope exactly when the exception field of its envelope is the
    boolean false (and it is a connected subscriber of the topic); with
    any other value there, null included, it is left out. The other
    sockets receive the envelope whatever the field holds. *)
Theorem pub_suppress_only_on_false (ws : WebSocket) (socket_id : Z)
    (dict_data : envelope) (st : state) (r : JsPyTextSocket.registry) :
  map fst (pub (snd (_pub_from_js ws socket_id dict_data st r)))
    = fan_out socket_id dict_data st r ∧
  (socket_id ∈ fan_out socket_id dict_data st r ↔
     exception dict_data = JBool false ∧
     (∃ k subscribers,
        hash_key (key dict_data) = Some k ∧
        dict_get k (_topic_manager st) = Some subscribers ∧
        socket_id ∈ subscribers) ∧
     is_Some (JsPyTextSocket._socket_pool r !! socket_id)) ∧
  (exception dict_data ≠ JBool false →
     socket_id ∉ fan_out socket_id dict_data st r) ∧
  (exception dict_data = JNull →
     socket_id ∉ fan_out socket_id dict_data st r) ∧
  (∀ other, other ≠ socket_id →
     (other ∈ fan_out socket_id dict_data st r ↔
        (∃ k subscribers,
           hash_key (key dict_data) = Some k ∧
           dict_get k (_topic_manager st) = Some subscribers ∧
           other ∈ subscribers) ∧
        is_Some (JsPyTextSocket._socket_pool r !! other))).
Proof.
  assert (Hfalse : ∀ x, is_False x = true ↔ x = JBool false).
  { intros x. destruct x as [|[]| | | |]; simpl; split; congruence. }
  assert (Hmain : socket_id ∈ fan_out socket_id dict_data st r ↔
     exception dict_data = JBool false ∧
     (∃ k subscribers,
        hash_key (key dict_data) = Some k ∧
        dict_get k (_topic_manager st) = Some subscribers ∧
        socket_id ∈ subscribers) ∧
     is_Some (JsPyTextSocket._socket_pool r !! socket_id)).
  { unfold fan_out.
    destruct (hash_key (key dict_data)) as [k|] eqn:Hk;
      [|rewrite elem_of_nil; naive_solver].
    destruct (dict_get k (_topic_manager st)) as [subscribers|] eqn:Hsubs;
      [|rewrite elem_of_nil; naive_solver].
    rewrite elem_of_multicast_targets_many, elem_of_elements.
    destruct (is_False (exception dict_data)) eqn:Hs.
    - apply Hfalse in Hs. naive_solver.
    - assert (exception dict_data ≠ JBool false)
        by (intros Heq; apply Hfalse in Heq; congruence).
      rewrite elem_of_difference, elem_of_singleton. naive_solver. }
  split; [|split; [exact Hmain|split; [|split]]].
  - unfold _pub_from_js. simpl. rewrite map_map. simpl. apply map_id.
  - intros Hne Hin. apply Hmain in Hin as [Heq _]. done.
  - intros Heq Hin. apply Hmain in Hin as [Heq' _]. congruence.
  - intros other Hother. unfold fan_out.
    destruct (hash_key (key dict_data)) as [k|] eqn:Hk;
      [|rewrite elem_of_nil; naive_solver].
    destruct (dict_get k (_topic_manager st)) as [subscribers|] eqn:Hsubs;
      [|rewrite elem_of_nil; naive_solver].
    rewrite elem_of_multicast_targets_many, elem_of_elements.
    destruct (is_False (exception dict_data)).
    + naive_solver.
    + rewrite elem_of_difference, elem_of_singleton. naive_solver.
Qed.

(** C10. [subscribe(topic)] used as a decorator registers the decorated
    function as the callback of the topic, and binds the name of the
    function to [None]. *)
Theorem subscribe_decorator_binds_None (topic : pykey) (f : pyfunc)
    (namespace : gmap string pyvalue) (st : state) :
  ∃ st',
    decorate (fst (subscribe topic None st)) f namespace
             (snd (subscribe topic None st))
      = Some (<[fn_name f := PyNone]> namespace, st') ∧
    dict_get topic (_topic_callback st') = Some f ∧
    (<[fn_name f := PyNone]> namespace) !! fn_name f = Some PyNone ∧
    (<[fn_name f := PyNone]> namespace) !! fn_name f ≠ Some (PyFunction f).
Proof.
  eexists. split; [reflexivity|]. simpl.
  rewrite dict_get_set, lookup_insert_eq. done.
Qed.

End topics.

Section subscriptions.
Import JsPyPubsub.

Lemma Forall_dict_set {K V} `{EqDecision K} (P : K * V → Prop) k v
    (d : list (K * V)) :
  P (k, v) → Forall P d → Forall P (dict_set k v d).
Proof.
  intros Hkv. induction 1 as [|[k' v'] d Hx Hd IH]; simpl.
  - by repeat constructor.
  - destruct (decide (k = k')); by constructor.
Qed.

Lemma Forall_dict_del {K V} `{EqDecision K} (P : K * V → Prop) k
    (d : list (K * V)) :
  Forall P d → Forall P (dict_del k d).
Proof.
  induction 1 as [|[k' v'] d Hx Hd IH]; simpl; [done|].
  destruct (decide (k = k')); [done|by constructor].
Qed.

Lemma socket_event_loop_no_empty socket_id topics (m : list (pykey * gset Z)) :
  Forall (λ kv, snd kv ≠ ∅) m →
  Forall (λ kv, snd kv ≠ ∅) (fst (socket_event_loop socket_id topics m)).
Proof.
  revert m. induction topics as [|topic topics IH]; intros m Hm; simpl; [done|].
  destruct (dict_get topic m) as [subscribers|]; [|done].
  destruct (decide (subscribers ∖ {[socket_id]} = ∅)); simpl.
  - by apply Forall_dict_del.
  - apply IH. by apply Forall_dict_set.
Qed.

(** The part of C4 that the code keeps: no topic is ever stored with an
    empty set of subscribers. *)
Lemma subscription_sets_never_empty events st :
  Forall (λ kv, snd kv ≠ ∅) (_topic_manager st) →
  Forall (λ kv, snd kv ≠ ∅) (_topic_manager (handle_all events st)).
Proof.
  revert st. induction events as [|ev events IH]; intros st Hst; [done|].
  simpl. apply IH. destruct ev as [ws s e|ws s e|s]; simpl.
  - unfold _sub_from_js. destruct (hash_key (key e)) as [k|]; simpl; [|done].
    destruct (dict_get k (_topic_manager st)) as [subscribers|];
      apply Forall_dict_set; try done; simpl; set_solver.
  - unfold _unsub_from_js. destruct (hash_key (key e)) as [k|]; simpl; [|done].
    destruct (dict_get k (_topic_manager st)) as [subscribers|]; [|done].
    destruct (decide (subscribers ∖ {[s]} = ∅)).
    + by apply Forall_dict_del.
    + by apply Forall_dict_set.
  - unfold _socket_event. simpl.
    pose proof (socket_event_loop_no_empty s (dict_keys (_topic_manager st))
                  (_topic_manager st) Hst) as Hloop.
    by destruct (socket_event_loop s (dict_keys (_topic_manager st))
                   (_topic_manager st)).
Qed.

(** C4 fails on the code. Socket 1 subscribes to the topics a and b and is
    disconnected: the loop of [_socket_event] deletes a, the iteration over
    the changed dict raises, and b keeps the id of the disconnected
    socket. *)
Theorem disconnect_leaves_later_topics :
  let sub_call topic :=
    Subscribe 0%nat 1
      (Envelope (JStr "sub_call") (JStr topic) (JInt 1) JNull JNull) in
  _topic_manager (handle_all [sub_call "a"; sub_call "b"] initial)
    = [(KStr "a", {[1]}); (KStr "b", {[1]})] ∧
  _socket_event 1 "disconnect"
    (handle_all [sub_call "a"; sub_call "b"] initial)
    = (State 0 [(KStr "b", {[1]})] [], Some DictionaryChangedSize) ∧
  _topic_manager (handle_all [sub_call "a"; sub_call "b"; Disconnect 1] initial)
    = [(KStr "b", {[1]})].
Proof. vm_compute. repeat split. Qed.

End subscriptions.

(** ** Correlation of replies *)

Section correlation.
Import JsPyFunction.

Lemma return_loop_first_pending socket_id e (pre post : list slot) :
  Forall (λ ft, done ft = true) pre →
  return_loop socket_id e (pre ++ Pending :: post)
  = if is_None (exception e) then
      Some (pre ++ Result (socket_id, data e) :: post)
    else
      match new_JsPyError (exception e) (protocol e) (key e) (id e) socket_id with
      | Some err => Some (pre ++ Raised err :: post)
      | None => None
      end.
Proof.
  induction 1 as [|ft pre Hft Hpre IH]; simpl.
  - destruct (is_None (exception e)); simpl; [done|].
    by destruct (new_JsPyError _ _ _ _ _).
  - rewrite Hft, IH. destruct (is_None (exception e)); simpl; [done|].
    by destruct (new_JsPyError _ _ _ _ _).
Qed.

Lemma return_loop_all_done socket_id e (futures : list slot) :
  Forall (λ ft, done ft = true) futures →
  return_loop socket_id e futures = Some futures.
Proof.
  induction 1 as [|ft futures Hft Hpre IH]; simpl; [done|].
  by rewrite Hft, IH.
Qed.

Lemma queue_return_loop_first_pending accepts socket_id e
    (pre post : list JsPyQueue.slot) :
  Forall (λ ft, done ft = true) pre →
  JsPyQueue.queue_return_loop accepts socket_id e (pre ++ Pending :: post)
  = if negb (truthy (exception e)) then Some (pre ++ Result socket_id :: post)
    else if accepts (exception e)
         then Some (pre ++ Raised (exception e) :: post)
         else None.
Proof.
  induction 1 as [|ft pre Hft Hpre IH]; simpl.
  - destruct (truthy (exception e)); simpl; [|done].
    by destruct (accepts _).
  - rewrite Hft, IH. destruct (truthy (exception e)); simpl; [|done].
    by destruct (accepts _).
Qed.

Lemma queue_return_loop_all_done accepts socket_id e
    (futures : list JsPyQueue.slot) :
  Forall (λ ft, done ft = true) futures →
  JsPyQueue.queue_return_loop accepts socket_id e futures = Some futures.
Proof.
  induction 1 as [|ft futures Hft Hpre IH]; simpl; [done|].
  by rewrite Hft, IH.
Qed.

Lemma with_call_memory_insert_id (i : Z) (futures : list slot) (st : state) :
  _call_memory st !! i = Some futures →
  with_call_memory <[i := futures]> st = st.
Proof.
  intros Hi. destruct st. unfold with_call_memory. simpl in *.
  by rewrite insert_id.
Qed.

Lemma first_pending_split {A E} (futures : list (future A E)) :
  Forall (λ ft, done ft = true) futures ∨
  ∃ pre post, futures = pre ++ Pending :: post ∧
              Forall (λ ft, done ft = true) pre.
Proof.
  induction futures as [|ft futures [IH|(pre & post & -> & Hpre)]].
  - left. constructor.
  - destruct ft as [|v|x].
    + right. exists [], futures. split; [done|constructor].
    + left. by constructor.
    + left. by constructor.
  - destruct ft as [|v|x].
    + right. exists [], (pre ++ Pending :: post). split; [done|constructor].
    + right. exists (Result v :: pre), post. split; [done|by constructor].
    + right. exists (Raised x :: pre), post. split; [done|by constructor].
Qed.

Lemma is_None_spec (x : json) : is_None x = true ↔ x = JNull.
Proof. destruct x; simpl; split; congruence. Qed.

Lemma return_from_js_first_pending socket_id e st i (pre post : list slot) :
  as_int (id e) = Some i →
  _call_memory st !! i = Some (pre ++ Pending :: post) →
  Forall (λ ft, done ft = true) pre →
  (exception e = JNull →
     _return_from_js socket_id e st
     = with_call_memory
         <[i := pre ++ Result (socket_id, data e) :: post]> st) ∧
  (∀ msg protocol_name key_name,
     exception e = JStr msg → protocol e = JStr protocol_name →
     key e = JStr key_name →
     _return_from_js socket_id e st
     = with_call_memory
         <[i := pre ++ Raised (MkJsPyError msg protocol_name key_name (id e)
                                           socket_id) :: post]> st) ∧
  (exception e ≠ JNull →
     as_str (exception e) = None ∨ as_str (protocol e) = None ∨
     as_str (key e) = None →
     _return_from_js socket_id e st = st).
Proof.
  intros Hid Hmem Hpre. unfold _return_from_js. rewrite Hid, Hmem.
  rewrite return_loop_first_pending by done.
  split; [|split].
  - intros He. by rewrite He.
  - intros msg protocol_name key_name He Hp Hk.
    unfold new_JsPyError. by rewrite He, Hp, Hk.
  - intros Hne Hbad.
    destruct (is_None (exception e)) eqn:Hnone;
      [by apply is_None_spec in Hnone|].
    unfold new_JsPyError.
    destruct (as_str (exception e)); [|done].
    destruct (as_str (protocol e)); [|done].
    destruct (as_str (key e)); [|done].
    by destruct Hbad as [?|[?|?]].
Qed.

Lemma queue_return_first_pending accepts socket_id e st i
    (pre post : list JsPyQueue.slot) :
  as_int (id e) = Some i →
  JsPyQueue._queue_memory st !! i = Some (pre ++ Pending :: post) →
  Forall (λ ft, done ft = true) pre →
  (truthy (exception e) = false →
     JsPyQueue._queue_return accepts socket_id e st
     = JsPyQueue.State (JsPyQueue._queue_id st)
         (<[i := pre ++ Result socket_id :: post]> (JsPyQueue._queue_memory st))) ∧
  (truthy (exception e) = true → accepts (exception e) = true →
     JsPyQueue._queue_return accepts socket_id e st
     = JsPyQueue.State (JsPyQueue._queue_id st)
         (<[i := pre ++ Raised (exception e) :: post]>
            (JsPyQueue._queue_memory st))) ∧
  (truthy (exception e) = true → accepts (exception e) = false →
     JsPyQueue._queue_return accepts socket_id e st = st).
Proof.
  intros Hid Hmem Hpre. unfold JsPyQueue._queue_return. rewrite Hid, Hmem.
  rewrite queue_return_loop_first_pending by done.
  split; [|split].
  - intros He. by rewrite He.
  - intros He Ha. by rewrite He, Ha.
  - intros He Ha. by rewrite He, Ha.
Qed.

Lemma return_from_js_ignored socket_id e st :
  (as_int (id e) = None → _return_from_js socket_id e st = st) ∧
  (∀ i, as_int (id e) = Some i → _call_memory st !! i = None →
        _return_from_js socket_id e st = st) ∧
  (∀ i (futures : list slot), as_int (id e) = Some i →
        _call_memory st !! i = Some futures →
        Forall (λ ft, done ft = true) futures →
        _return_from_js socket_id e st = st).
Proof.
  unfold _return_from_js. split; [|split].
  - by intros ->.
  - by intros i -> ->.
  - intros i futures -> Hmem Hdone. rewrite Hmem.
    rewrite return_loop_all_done by done.
    by apply with_call_memory_insert_id.
Qed.

Lemma queue_return_ignored accepts socket_id e st :
  (as_int (id e) = None → JsPyQueue._queue_return accepts socket_id e st = st) ∧
  (∀ i, as_int (id e) = Some i → JsPyQueue._queue_memory st !! i = None →
        JsPyQueue._queue_return accepts socket_id e st = st) ∧
  (∀ i (futures : list JsPyQueue.slot), as_int (id e) = Some i →
        JsPyQueue._queue_memory st !! i = Some futures →
        Forall (λ ft, done ft = true) futures →
        JsPyQueue._queue_return accepts socket_id e st = st).
Proof.
  unfold JsPyQueue._queue_return. split; [|split].
  - by intros ->.
  - by intros i -> ->.
  - intros i futures -> Hmem Hdone.
    destruct st as [qid mem]. simpl in *. rewrite Hmem.
    rewrite queue_return_loop_all_done by done. by rewrite insert_id.
Qed.

(** C1, as the code has it. The slots of a call id are not tied to
    sockets. A reply for a call id, whichever socket sends it, goes to
    the first slot of the id that is still pending and to no other slot:
    without an error it settles that slot with its result; with an error
    it settles it with the error when the error can be stored (for a
    "function_return": exception, protocol and key are strings, as the
    constructor of JsPyError needs; for a "queue_return": set_exception
    takes the value), and otherwise the reply is dropped and the slot
    stays pending. A reply changes nothing exactly when its id is no int
    of the table, when every slot of the id is settled, or when its error
    cannot be stored; a settled slot is never altered. *)
Theorem reply_settles_first_pending_slot :
  (∀ socket_id e st i (pre post : list slot),
     as_int (id e) = Some i →
     _call_memory st !! i = Some (pre ++ Pending :: post) →
     Forall (λ ft, done ft = true) pre →
     (exception e = JNull →
        _return_from_js socket_id e st
        = with_call_memory
            <[i := pre ++ Result (socket_id, data e) :: post]> st) ∧
     (∀ msg protocol_name key_name,
        exception e = JStr msg → protocol e = JStr protocol_name →
        key e = JStr key_name →
        _return_from_js socket_id e st
        = with_call_memory
            <[i := pre ++ Raised (MkJsPyError msg protocol_name key_name
                                              (id e) socket_id) :: post]> st) ∧
     (exception e ≠ JNull →
        as_str (exception e) = None ∨ as_str (protocol e) = None ∨
        as_str (key e) = None →
        _return_from_js socket_id e st = st)) ∧
  (∀ socket_id e st,
     _return_from_js socket_id e st = st ↔
     ∀ i (futures : list slot),
       as_int (id e) = Some i → _call_memory st !! i = Some futures →
       Forall (λ ft, done ft = true) futures ∨
       (exception e ≠ JNull ∧
        (as_str (exception e) = None ∨ as_str (protocol e) = None ∨
         as_str (key e) = None))) ∧
  (∀ accepts socket_id e st i (pre post : list JsPyQueue.slot),
     as_int (id e) = Some i →
     JsPyQueue._queue_memory st !! i = Some (pre ++ Pending :: post) →
     Forall (λ ft, done ft = true) pre →
     (truthy (exception e) = false →
        JsPyQueue._queue_return accepts socket_id e st
        = JsPyQueue.State (JsPyQueue._queue_id st)
            (<[i := pre ++ Result socket_id :: post]>
               (JsPyQueue._queue_memory st))) ∧
     (truthy (exception e) = true → accepts (exception e) = true →
        JsPyQueue._queue_return accepts socket_id e st
        = JsPyQueue.State (JsPyQueue._queue_id st)
            (<[i := pre ++ Raised (exception e) :: post]>
               (JsPyQueue._queue_memory st))) ∧
     (truthy (exception e) = true → accepts (exception e) = false →
        JsPyQueue._queue_return accepts socket_id e st = st)) ∧
  (∀ accepts socket_id e st,
     JsPyQueue._queue_return accepts socket_id e st = st ↔
     ∀ i (futures : list JsPyQueue.slot),
       as_int (id e) = Some i →
       JsPyQueue._queue_memory st !! i = Some futures →
       Forall (λ ft, done ft = true) futures ∨
       (truthy (exception e) = true ∧ accepts (exception e) = false)).
Proof.
  split; [exact return_from_js_first_pending|].
  split; [|split; [exact queue_return_first_pending|]].
  - intros socket_id e st. split.
    + intros Hsame i futures Hid Hmem.
      destruct (first_pending_split futures) as [?|(pre & post & -> & Hpre)];
        [by left|right].
      destruct (return_from_js_first_pending socket_id e st i pre post
                  Hid Hmem Hpre) as (Hres & Herr & _).
      assert (Hstay : ∀ ft, ft ≠ Pending →
                _return_from_js socket_id e st
                = with_call_memory <[i := pre ++ ft :: post]> st → False).
      { intros ft Hft Heq. rewrite Hsame in Heq.
        apply (f_equal (λ st, _call_memory st !! i)) in Heq.
        simpl in Heq. rewrite lookup_insert_eq in Heq.
        pose proof (eq_trans (eq_sym Hmem) Heq) as Heq'.
        injection Heq' as Heq'. apply app_inv_head in Heq'. congruence. }
      destruct (exception e) as [| | |msg| |] eqn:He;
        try (split; [done|by left]).
      * exfalso. by apply (Hstay (Result (socket_id, data e))); [|apply Hres].
      * split; [done|].
        destruct (protocol e) as [| | |protocol_name| |] eqn:Hp;
          try (right; by left).
        destruct (key e) as [| | |key_name| |] eqn:Hk;
          try (right; by right).
        exfalso.
        by apply (Hstay (Raised (MkJsPyError msg protocol_name key_name (id e)
                                             socket_id)));
          [|apply Herr].
    + intros Hall.
      destruct (return_from_js_ignored socket_id e st) as (Hnoid & Hnomem & Hdone).
      destruct (as_int (id e)) as [i|] eqn:Hid; [|by apply Hnoid].
      destruct (_call_memory st !! i) as [futures|] eqn:Hmem;
        [|by apply (Hnomem i)].
      destruct (Hall i futures eq_refl Hmem) as [?|[Hne Hbad]];
        [by apply (Hdone i futures)|].
      destruct (first_pending_split futures) as [?|(pre & post & -> & Hpre)];
        [by apply (Hdone i futures)|].
      by apply (return_from_js_first_pending socket_id e st i pre post).
  - intros accepts socket_id e st. split.
    + intros Hsame i futures Hid Hmem.
      destruct (first_pending_split futures) as [?|(pre & post & -> & Hpre)];
        [by left|right].
      destruct (queue_return_first_pending accepts socket_id e st i pre post
                  Hid Hmem Hpre) as (Hres & Herr & _).
      assert (Hstay : ∀ ft, ft ≠ Pending →
                JsPyQueue._queue_return accepts socket_id e st
                = JsPyQueue.State (JsPyQueue._queue_id st)
                    (<[i := pre ++ ft :: post]> (JsPyQueue._queue_memory st)) →
                False).
      { intros ft Hft Heq. rewrite Hsame in Heq.
        apply (f_equal (λ st, JsPyQueue._queue_memory st !! i)) in Heq.
        simpl in Heq. rewrite lookup_insert_eq in Heq.
        pose proof (eq_trans (eq_sym Hmem) Heq) as Heq'.
        injection Heq' as Heq'. apply app_inv_head in Heq'. congruence. }
      destruct (truthy (exception e)) eqn:He.
      * split; [done|]. destruct (accepts (exception e)) eqn:Ha; [|done].
        exfalso. by apply (Hstay (Raised (exception e))); [|apply Herr].
      * exfalso. by apply (Hstay (Result socket_id)); [|apply Hres].
    + intros Hall.
      destruct (queue_return_ignored accepts socket_id e st)
        as (Hnoid & Hnomem & Hdone).
      destruct (as_int (id e)) as [i|] eqn:Hid; [|by apply Hnoid].
      destruct (JsPyQueue._queue_memory st !! i) as [futures|] eqn:Hmem;
        [|by apply (Hnomem i)].
      destruct (Hall i futures eq_refl Hmem) as [?|[He Ha]];
        [by apply (Hdone i futures)|].
      destruct (first_pending_split futures) as [?|(pre & post & -> & Hpre)];
        [by apply (Hdone i futures)|].
      by apply (queue_return_first_pending accepts socket_id e st i pre post).
Qed.

Lemma reply_settles_first_pending_slot_witness :
  let e := Envelope (JStr "function_return") (JStr "f") (JInt 1) (JInt 10) JNull in
  let st := State ∅ [] ∅ ∅ [] 1 {[1 := [Result (2, JInt 20); Pending; Pending]]} in
  _call_memory (_return_from_js 3 e st) !! 1
  = Some [Result (2, JInt 20); Result (3, JInt 10); Pending].
Proof.
  intros e st.
  destruct reply_settles_first_pending_slot as [Hsettle _].
  destruct (Hsettle 3 e st 1 [Result (2, JInt 20)] [Pending])
    as (Hres & _).
  - reflexivity.
  - reflexivity.
  - repeat constructor.
  - rewrite Hres by reflexivity. reflexivity.
Defined.

(** C1 does not hold as stated: two sockets are called, socket 1 answers
    twice; its second answer is not ignored but takes the slot that is
    left, and the answer of socket 2 is the one that is ignored. The same
    happens with the acknowledgements of a push. *)
Lemma duplicate_reply_takes_other_slot :
  let r := JsPyTextSocket.Registry 2 0 2 {[1 := 0%nat; 2 := 1%nat]} in
  let answer v := Envelope (JStr "function_return") (JStr "f") (JInt 1) v JNull in
  let st1 := snd (inner_issue "f" (JsPyTextSocket.TMany [1; 2]) [] r initial) in
  let st2 := _return_from_js 1 (answer (JInt 10)) st1 in
  let st3 := _return_from_js 1 (answer (JInt 10)) st2 in
  let ack := Envelope (JStr "queue_return") (JStr "q") (JInt 1) JNull JNull in
  let q1 := JsPyQueue.State 1 {[1 := [Pending; Pending]]} in
  let q2 := JsPyQueue._queue_return (λ _, false) 1 ack q1 in
  let q3 := JsPyQueue._queue_return (λ _, false) 1 ack q2 in
  _call_memory st1 !! 1 = Some [Pending; Pending] ∧
  _call_memory st2 !! 1 = Some [Result (1, JInt 10); Pending] ∧
  _call_memory st3 !! 1 = Some [Result (1, JInt 10); Result (1, JInt 10)] ∧
  st3 ≠ st2 ∧
  _return_from_js 2 (answer (JInt 20)) st3 = st3 ∧
  fst (inner_finish 1 st3) = {[1 := Value (JInt 10)]} ∧
  JsPyQueue._queue_memory q2 !! 1 = Some [Result 1; Pending] ∧
  JsPyQueue._queue_memory q3 !! 1 = Some [Result 1; Result 1] ∧
  q3 ≠ q2.
Proof.
  vm_compute. repeat split; intros Heq; discriminate Heq.
Qed.

End correlation.

(** ** The result of a call *)

Section calls.
Import JsPyFunction.

















End calls.

(** ** The running flag *)

Section running.
Import JsPyFunction.

Lemma serialized_new_finished k b waiting res tks t fr :
  serialized k b waiting res tks →
  tks !! t = None → f_pc fr = Finished →
  serialized k b waiting res (<[t := fr]> tks).
Proof.
  intros (Hnd & Hw & Hb & Hshape & Hres & Hone & Hflag) Ht Hpc.
  assert (Hnot : ¬ holding res t fr).
  { unfold holding, executing. rewrite Hpc. naive_solver. }
  repeat split; try done.
  - intros Hin. apply Hw in Hin as (fr' & Hfr' & ?).
    exists fr'. rewrite lookup_insert_ne; [done|congruence].
  - intros (fr' & Hfr' & Hpc' & Hnr). apply Hw.
    rewrite lookup_insert in Hfr'. case_decide; [|eauto].
    injection Hfr' as <-. congruence.
  - intros t' fr' Hfr'. rewrite lookup_insert in Hfr'.
    case_decide; [injection Hfr' as <-; by left|eauto].
  - intros t' Hin. rewrite lookup_insert. case_decide; [eauto|by apply Hres].
  - intros t1 t2 fr1 fr2 H1 H2 Hh1 Hh2.
    rewrite lookup_insert in H1, H2.
    repeat case_decide; simplify_eq; try done. eauto.
  - intros Hbt. apply Hflag in Hbt as (t' & fr' & Hfr' & Hh).
    exists t', fr'. rewrite lookup_insert_ne; [done|congruence].
  - intros (t' & fr' & Hfr' & Hh). apply Hflag.
    rewrite lookup_insert in Hfr'. case_decide; simplify_eq; [done|eauto].
Qed.

Lemma serialized_park k waiting res tks t fr :
  serialized k true waiting res tks →
  tks !! t = None →
  f_pc fr = AwaitTicket → f_key fr = JStr k → f_exclusive fr = Some 0%nat →
  serialized k true (waiting ++ [t]) res (<[t := fr]> tks).
Proof.
  intros (Hnd & Hw & Hb & Hshape & Hres & Hone & Hflag) Ht Hpc Hkey Hex.
  assert (Htres : t ∉ res).
  { intros Hin. apply Hres in Hin as [? ?]. congruence. }
  assert (Hnot : ¬ holding res t fr).
  { unfold holding, executing. rewrite Hpc. naive_solver. }
  assert (Htw : t ∉ waiting).
  { intros Hin. apply Hw in Hin as (? & ? & _). congruence. }
  repeat split; try done.
  - apply NoDup_app. repeat split; [done| |apply NoDup_singleton].
    intros x Hx Hx'. apply list_elem_of_singleton in Hx'. by subst.
  - intros Hin. apply elem_of_app in Hin as [Hin|Hin].
    + apply Hw in Hin as (fr' & Hfr' & ?).
      exists fr'. rewrite lookup_insert_ne; [done|congruence].
    + apply list_elem_of_singleton in Hin as ->.
      exists fr. by rewrite lookup_insert_eq.
  - intros (fr' & Hfr' & Hpc' & Hnr). apply elem_of_app.
    rewrite lookup_insert in Hfr'. case_decide; simplify_eq.
    + right. by apply list_elem_of_singleton.
    + left. apply Hw. eauto.
  - intros t' fr' Hfr'. rewrite lookup_insert in Hfr'.
    case_decide; simplify_eq; [|eauto].
    right. rewrite Hpc. done.
  - intros t' Hin. rewrite lookup_insert. case_decide; [eauto|by apply Hres].
  - intros t1 t2 fr1 fr2 H1 H2 Hh1 Hh2.
    rewrite lookup_insert in H1, H2.
    repeat case_decide; simplify_eq; try done. eauto.
  - intros _. destruct Hflag as [Hflag _].
    destruct (Hflag eq_refl) as (t' & fr' & Hfr' & Hh).
    exists t', fr'. rewrite lookup_insert_ne; [done|congruence].
Qed.

Lemma serialized_enter k waiting res tks t fr :
  serialized k false waiting res tks →
  tks !! t = None →
  executing fr = true → f_key fr = JStr k → f_exclusive fr = Some 0%nat →
  f_pc fr ≠ Crashed →
  serialized k true waiting res (<[t := fr]> tks).
Proof.
  intros (Hnd & Hw & Hb & Hshape & Hres & Hone & Hflag) Ht Hexec Hkey Hex Hpc.
  assert (Hnone : ∀ t' fr', tks !! t' = Some fr' → ¬ holding res t' fr').
  { intros t' fr' Hfr' Hh.
    assert (false = true); [|done]. apply Hflag. eauto. }
  assert (Hpc' : f_pc fr ≠ AwaitTicket).
  { intros Heq. unfold executing in Hexec. by rewrite Heq in Hexec. }
  repeat split; try done.
  - intros Hin. apply Hw in Hin as (fr' & Hfr' & ?).
    exists fr'. rewrite lookup_insert_ne; [done|congruence].
  - intros (fr' & Hfr' & Hpc'' & Hnr). apply Hw.
    rewrite lookup_insert in Hfr'. case_decide; simplify_eq. eauto.
  - intros t' fr' Hfr'. rewrite lookup_insert in Hfr'.
    case_decide; simplify_eq; [|eauto]. by right.
  - intros t' Hin. rewrite lookup_insert. case_decide; [eauto|by apply Hres].
  - intros t1 t2 fr1 fr2 H1 H2 Hh1 Hh2.
    rewrite lookup_insert in H1, H2.
    repeat case_decide; simplify_eq; try done;
      exfalso; eapply Hnone; eauto.
  - intros _. exists t, fr. rewrite lookup_insert_eq. split; [done|by left].
Qed.

Lemma serialized_move k b waiting res tks t fr fr' :
  serialized k b waiting res tks →
  tks !! t = Some fr → holding res t fr →
  executing fr' = true → f_key fr' = JStr k → f_exclusive fr' = Some 0%nat →
  f_pc fr' ≠ Crashed →
  serialized k true waiting res (<[t := fr']> tks).
Proof.
  intros (Hnd & Hw & Hb & Hshape & Hres & Hone & Hflag) Ht Hh Hexec Hkey Hex Hpc.
  assert (Hpc' : f_pc fr' ≠ AwaitTicket).
  { intros Heq. unfold executing in Hexec. by rewrite Heq in Hexec. }
  assert (Htw : ¬ (f_pc fr = AwaitTicket ∧ t ∉ res)).
  { intros [Hpark Hnr]. destruct Hh as [Hh|[_ Hh]]; [|done].
    unfold executing in Hh. by rewrite Hpark in Hh. }
  repeat split; try done.
  - intros Hin. apply Hw in Hin as (fr1 & Hfr1 & Hp1 & Hn1).
    exists fr1. rewrite lookup_insert_ne; [done|].
    intros <-. simplify_eq. by apply Htw.
  - intros (fr1 & Hfr1 & Hp1 & Hn1). apply Hw.
    rewrite lookup_insert in Hfr1. case_decide; simplify_eq. eauto.
  - intros t' fr1 Hfr1. rewrite lookup_insert in Hfr1.
    case_decide; simplify_eq; [|eauto]. by right.
  - intros t' Hin. rewrite lookup_insert. case_decide; [eauto|by apply Hres].
  - intros t1 t2 fr1 fr2 H1 H2 Hh1 Hh2.
    rewrite lookup_insert in H1, H2.
    repeat case_decide; simplify_eq; try done; eauto.
  - intros _. exists t, fr'. rewrite lookup_insert_eq. split; [done|by left].
Qed.

Lemma serialized_end_empty k b res tks t fr fr' :
  serialized k b [] res tks →
  tks !! t = Some fr → executing fr = true → f_pc fr' = Finished →
  serialized k false [] res (<[t := fr']> tks).
Proof.
  intros (Hnd & Hw & Hb & Hshape & Hres & Hone & Hflag) Ht Hexec Hpc.
  assert (Hnot : ¬ holding res t fr').
  { unfold holding, executing. rewrite Hpc. naive_solver. }
  assert (Hpark : f_pc fr ≠ AwaitTicket).
  { intros Heq. unfold executing in Hexec. by rewrite Heq in Hexec. }
  repeat split; try done.
  - intros Hin. by apply elem_of_nil in Hin.
  - intros (fr1 & Hfr1 & Hp1 & Hn1). apply Hw.
    rewrite lookup_insert in Hfr1. case_decide; simplify_eq; try congruence; eauto.
  - intros t' fr1 Hfr1. rewrite lookup_insert in Hfr1.
    case_decide; simplify_eq; try (by left); eauto.
  - intros t' Hin. rewrite lookup_insert. case_decide; [eauto|by apply Hres].
  - intros t1 t2 fr1 fr2 H1 H2 Hh1 Hh2.
    rewrite lookup_insert in H1, H2.
    repeat case_decide; simplify_eq; try done; eauto.
  - intros (t' & fr1 & Hfr1 & Hh1).
    rewrite lookup_insert in Hfr1. case_decide; simplify_eq; try done.
    assert (t' = t); [|done].
    eapply Hone; [done|done|done|by left].
Qed.

Lemma serialized_end_wake k b x waiting res tks t fr fr' :
  serialized k b (x :: waiting) res tks →
  tks !! t = Some fr → executing fr = true → f_pc fr' = Finished →
  serialized k true waiting ({[x]} ∪ res) (<[t := fr']> tks).
Proof.
  intros (Hnd & Hw & Hb & Hshape & Hres & Hone & Hflag) Ht Hexec Hpc.
  assert (Hnot : ¬ holding ({[x]} ∪ res) t fr').
  { unfold holding, executing. rewrite Hpc. naive_solver. }
  assert (Hpark : f_pc fr ≠ AwaitTicket).
  { intros Heq. unfold executing in Hexec. by rewrite Heq in Hexec. }
  apply NoDup_cons in Hnd as [Hxw Hnd].
  destruct (proj1 (Hw x)) as (frx & Hfrx & Hpcx & Hxres); [by left|].
  assert (Hxt : x ≠ t) by (intros ->; congruence).
  assert (Hsole : ∀ t' fr1, tks !! t' = Some fr1 → holding res t' fr1 → t' = t).
  { intros t' fr1 Hfr1 Hh1. eapply Hone; [done|done|done|by left]. }
  repeat split; try done.
  - intros Hin.
    destruct (proj1 (Hw t0)) as (fr1 & Hfr1 & Hp1 & Hn1); [by right|].
    exists fr1. rewrite lookup_insert_ne; [|intros <-; simplify_eq].
    repeat split; [done|done|]. set_solver.
  - intros (fr1 & Hfr1 & Hp1 & Hn1).
    rewrite lookup_insert in Hfr1. case_decide; simplify_eq; try congruence.
    assert (Hin : t0 ∈ x :: waiting) by (apply Hw; exists fr1; set_solver).
    apply elem_of_cons in Hin as [->|Hin]; [set_solver|done].
  - intros t' fr1 Hfr1. rewrite lookup_insert in Hfr1.
    case_decide; simplify_eq; try (by left); eauto.
  - intros t' Hin. rewrite lookup_insert. case_decide; [eauto|].
    apply elem_of_union in Hin as [Hin|Hin]; [|by apply Hres].
    apply elem_of_singleton in Hin as ->. eauto.
  - assert (Hx : ∀ t' fr1, <[t := fr']> tks !! t' = Some fr1 →
                           holding ({[x]} ∪ res) t' fr1 → t' = x).
    { intros t' fr1 Hfr1 Hh1. rewrite lookup_insert in Hfr1.
      case_decide; simplify_eq; try done.
      destruct Hh1 as [Hh1|[Hp1 Hin]].
      - exfalso. assert (t' = t); [|done]. apply (Hsole t' fr1); [done|by left].
      - apply elem_of_union in Hin as [Hin|Hin];
          [by apply elem_of_singleton in Hin|].
        exfalso. assert (t' = t); [|done]. apply (Hsole t' fr1); [done|by right]. }
    intros t1 t2 fr1 fr2 H1 H2 Hh1 Hh2.
    rewrite (Hx t1 fr1), (Hx t2 fr2); done.
  - intros _. exists x, frx. rewrite lookup_insert_ne by done.
    split; [done|]. right. split; [done|set_solver].
Qed.

Lemma set_running_singleton k f b b' qs res tks out cid mem :
  set_running (JStr k) b'
    (State {[k := Exposed f (iscoroutinefunction f) b (Some 0%nat)]}
           qs res tks out cid mem)
  = Some (State {[k := Exposed f (iscoroutinefunction f) b' (Some 0%nat)]}
                qs res tks out cid mem).
Proof.
  unfold set_running, with_exposed. simpl.
  rewrite lookup_singleton_eq. simpl. by rewrite insert_singleton_eq.
Qed.

Lemma exclusive_inv_reply k f fr st :
  exclusive_inv k f st → exclusive_inv k f (reply fr st).
Proof. unfold reply. by destruct (json_is_str _ _). Qed.

Lemma reply_queues fr st : queues (reply fr st) = queues st.
Proof. unfold reply. by destruct (json_is_str _ _). Qed.

Lemma reply_tasks fr st : tasks (reply fr st) = tasks st.
Proof. unfold reply. by destruct (json_is_str _ _). Qed.

(** One step of the event loop keeps the invariant; the wait queue stays
    as it is, or takes the coroutine that has just been started at its
    end, or gives up its head. *)
Lemma step_exclusive_inv k f ev st st' :
  exclusive_inv k f st → step ev st = Some st' →
  exclusive_inv k f st' ∧
  (∀ t, is_Some (tasks st !! t) → is_Some (tasks st' !! t)) ∧
  ∃ w w', queues st = [w] ∧ queues st' = [w'] ∧
          (w' = w ∨ (∃ t, w' = w ++ [t] ∧ tasks st !! t = None) ∨
           (∃ x, w = x :: w')).
Proof.
  intros (b & w & Htbl & Hqs & Hser) Hstep.
  destruct st as [tbl qs res tks out cid mem]. simpl in *. subst tbl qs.
  destruct ev as [t ws sid e|t o]; simpl in Hstep.
  - destruct (tks !! t) as [fr|] eqn:Ht; [discriminate|].
    injection Hstep as <-. unfold _call_from_js.
    assert (Hunreg : ∀ fr, f_pc fr = Finished →
      let st1 := reply fr (with_tasks <[t := fr]>
                   (State {[k := Exposed f (iscoroutinefunction f) b (Some 0%nat)]}
                          [w] res tks out cid mem)) in
      exclusive_inv k f st1 ∧
      (∀ t0, is_Some (tks !! t0) → is_Some (tasks st1 !! t0)) ∧
      ∃ w0 w', [w] = [w0] ∧ queues st1 = [w'] ∧
               (w' = w0 ∨ (∃ t0, w' = w0 ++ [t0] ∧ tks !! t0 = None) ∨
                (∃ x, w0 = x :: w'))).
    { intros fr Hpc st1. unfold st1. split; [|split].
      - apply exclusive_inv_reply. exists b, w. split; [done|]. split; [done|]. simpl.
        by apply serialized_new_finished.
      - intros t0 Ht0. rewrite reply_tasks. simpl.
        rewrite lookup_insert.
        destruct (decide (t = t0)); [by eexists|done].
      - exists w, w. rewrite reply_queues. simpl. auto. }
    pose (fr0 := with_send_dic JNull
                   (JStr "Function key name is not registered @python")
                   (Frame Finished ws (key e) (protocol e) false None
                      (Envelope (JStr "function_return") (key e) (id e)
                                JNull JNull))).
    destruct (as_str (key e)) as [k'|] eqn:Hkey; simpl;
      [|exact (Hunreg fr0 eq_refl)].
    destruct (decide (k' = k)) as [->|Hne];
      [|rewrite lookup_singleton_ne by congruence; exact (Hunreg fr0 eq_refl)].
    rewrite lookup_singleton_eq. simpl.
    assert (Hk : key e = JStr k)
      by (destruct (key e); simpl in Hkey; congruence).
    destruct b.
    + split; [|split].
      * exists true, (w ++ [t]). split; [done|]. split; [done|]. simpl.
        apply serialized_park; done.
      * intros t0 Ht0. simpl. rewrite lookup_insert.
        destruct (decide (t = t0)); [by eexists|done].
      * exists w, (w ++ [t]). simpl. repeat split; try done. right. left. eauto.
    + unfold enter. simpl. rewrite Hk, set_running_singleton. simpl.
      split; [|split].
      * exists true, w. split; [done|]. split; [done|]. simpl.
        apply serialized_enter; done.
      * intros t0 Ht0. simpl. rewrite lookup_insert.
        destruct (decide (t = t0)); [by eexists|done].
      * exists w, w. simpl. auto.
  - destruct (tks !! t) as [fr|] eqn:Ht; [|discriminate].
    pose proof Hser as (Hnd & Hw & Hb & Hshape & Hres & Hone & Hflag).
    assert (Hmoved : ∀ fr', holding res t fr →
      executing fr' = true → f_key fr' = f_key fr →
      f_exclusive fr' = f_exclusive fr → f_pc fr' ≠ Crashed →
      f_pc fr ≠ Finished →
      let st1 := State {[k := Exposed f (iscoroutinefunction f) true (Some 0%nat)]}
                       [w] res (<[t := fr']> tks) out cid mem in
      exclusive_inv k f st1 ∧
      (∀ t0, is_Some (tks !! t0) → is_Some (tasks st1 !! t0)) ∧
      ∃ w0 w', [w] = [w0] ∧ queues st1 = [w'] ∧
               (w' = w0 ∨ (∃ t0, w' = w0 ++ [t0] ∧ tks !! t0 = None) ∨
                (∃ x, w0 = x :: w'))).
    { intros fr' Hh Hexec Hkey Hex Hpc Hnf st1. unfold st1.
      destruct (Hshape t fr Ht) as [?|(Hk & Hq & _)]; [done|].
      split; [|split].
      - exists true, w. split; [done|]. split; [done|]. simpl.
        apply (serialized_move k b w res tks t fr fr');
          [done|done|done|done|congruence|congruence|done].
      - intros t0 Ht0. simpl. rewrite lookup_insert.
        destruct (decide (t = t0)); [by eexists|done].
      - exists w, w. simpl. auto. }
    destruct (f_pc fr) eqn:Hpc; try discriminate.
    + case_bool_decide as Hin; [|discriminate]. injection Hstep as <-.
      destruct (Hshape t fr Ht) as [?|(Hk & Hq & _)]; [congruence|].
      unfold enter. rewrite Hk, set_running_singleton.
      apply (Hmoved (at_pc FirstSleep fr)); try done.
      right. done.
    + assert (Hh : holding res t fr) by (left; unfold executing; by rewrite Hpc).
      assert (b = true) as -> by (apply Hflag; eauto).
      destruct (f_iscoroutine fr); injection Hstep as <-.
      * apply (Hmoved (at_pc InFunc fr)); done.
      * apply (Hmoved (after_func o fr)); try done; by destruct o.
    + assert (Hh : holding res t fr) by (left; unfold executing; by rewrite Hpc).
      assert (b = true) as -> by (apply Hflag; eauto).
      injection Hstep as <-.
      apply (Hmoved (after_func o fr)); try done; by destruct o.
    + assert (Hexec : executing fr = true) by (unfold executing; by rewrite Hpc).
      injection Hstep as <-.
      destruct (Hshape t fr Ht) as [?|(Hk & Hq & _)]; [congruence|].
      unfold call_end. rewrite Hk, set_running_singleton, Hq. simpl.
      destruct w as [|x w'].
      * split; [|split].
        -- apply exclusive_inv_reply. exists false, [].
           split; [done|]. split; [done|]. simpl.
           eapply serialized_end_empty; eauto.
        -- intros t0 Ht0. rewrite reply_tasks. simpl.
           rewrite lookup_insert.
        destruct (decide (t = t0)); [by eexists|done].
        -- exists [], []. rewrite reply_queues. simpl. auto.
      * unfold with_resolved, with_queues. simpl.
        rewrite set_running_singleton. simpl.
        split; [|split].
        -- apply exclusive_inv_reply. exists true, w'.
           split; [done|]. split; [done|]. simpl.
           eapply serialized_end_wake; eauto.
        -- intros t0 Ht0. rewrite reply_tasks. simpl.
           rewrite lookup_insert.
        destruct (decide (t = t0)); [by eexists|done].
        -- exists (x :: w'), w'. rewrite reply_queues. simpl.
           repeat split. right. right. eauto.
Qed.

Lemma run_exclusive_inv k f events st st' :
  exclusive_inv k f st → run events st = Some st' →
  exclusive_inv k f st' ∧
  (∀ t, is_Some (tasks st !! t) → is_Some (tasks st' !! t)) ∧
  ∃ w w' (n : nat) new,
    queues st = [w] ∧ queues st' = [w'] ∧ w' = drop n w ++ new ∧
    ∀ t, t ∈ new → tasks st !! t = None.
Proof.
  revert st. induction events as [|ev events IH]; intros st Hinv Hrun;
    simpl in Hrun.
  - injection Hrun as <-. split; [done|]. split; [done|].
    destruct Hinv as (b & w & _ & Hqs & _).
    exists w, w, 0%nat, []. rewrite drop_0, app_nil_r.
    repeat split; try done. intros t Ht. by apply elem_of_nil in Ht.
  - destruct (step ev st) as [st1|] eqn:Hstep; [|discriminate].
    destruct (step_exclusive_inv k f ev st st1 Hinv Hstep)
      as (Hinv1 & Hmono1 & w & w1 & Hw & Hw1 & Hqueue).
    destruct (IH st1 Hinv1 Hrun)
      as (Hinv' & Hmono' & w1' & w' & n & new & Hw1' & Hw' & Hdrop & Hnew).
    rewrite Hw1 in Hw1'. injection Hw1' as <-.
    split; [done|]. split; [by auto|].
    assert (Hfresh : ∀ t, tasks st1 !! t = None → tasks st !! t = None).
    { intros t Ht. destruct (tasks st !! t) eqn:Hst; [|done].
      destruct (Hmono1 t) as [? ?]; [by eexists|congruence]. }
    destruct Hqueue as [->|[(t & -> & Ht)|(x & ->)]].
    + exists w, w', n, new. repeat split; try done.
      intros t Ht. by apply Hfresh, Hnew.
    + exists w, w', n, (drop (n - length w) [t] ++ new).
      repeat split; try done.
      * by rewrite Hdrop, drop_app, app_assoc.
      * intros t' Ht'. apply elem_of_app in Ht' as [Ht'|Ht'].
        -- apply (subseteq_drop _ [t]) in Ht'.
           apply list_elem_of_singleton in Ht'. by subst.
        -- by apply Hfresh, Hnew.
    + exists (x :: w1), w', (S n), new. repeat split; try done.
      intros t Ht. by apply Hfresh, Hnew.
Qed.

Lemma exclusive_inv_expose k f :
  exclusive_inv k f (snd (expose k f true initial)).
Proof.
  assert (Hst : snd (expose k f true initial)
                = State {[k := Exposed f (iscoroutinefunction f) false (Some 0%nat)]}
                        [[]] ∅ ∅ [] 0 ∅).
  { unfold expose, is_key_running, with_exposed, with_queues, initial. simpl.
    rewrite lookup_empty. simpl. by rewrite insert_empty. }
  rewrite Hst. exists false, []. split; [done|]. split; [done|]. simpl.
  split; [apply NoDup_nil_2|]. split.
  { intros t. split; [intros Hin; by apply elem_of_nil in Hin|].
    intros (fr & Hfr & _). by rewrite lookup_empty in Hfr. }
  split; [done|]. split.
  { intros t fr Hfr. by rewrite lookup_empty in Hfr. }
  split.
  { intros t Hin. by apply not_elem_of_empty in Hin. }
  split.
  { intros t1 t2 fr1 fr2 Hfr. by rewrite lookup_empty in Hfr. }
  split; [done|].
  intros (t & fr & Hfr & _). by rewrite lookup_empty in Hfr.
Qed.

(** The part of C2 that the code keeps. While a key stays exposed as it
    was with [exclusive] set, whatever the clients call and however the
    event loop resumes the calls: at most one call is between the two
    assignments to the running flag, and the flag is set then; a call
    waits in the queue exactly when it is suspended on its ticket; while
    a call waits the flag is set, so that new calls wait too; and the
    queue loses calls at its head and takes new calls at its end only. *)
Lemma exclusive_calls_are_serialized k f events st :
  run events (snd (expose k f true initial)) = Some st →
  (∀ t1 t2 fr1 fr2,
     tasks st !! t1 = Some fr1 → tasks st !! t2 = Some fr2 →
     executing fr1 = true → executing fr2 = true → t1 = t2) ∧
  (∀ t fr, tasks st !! t = Some fr → executing fr = true →
           is_running k st = true) ∧
  (∃ waiting,
     queues st = [waiting] ∧
     (waiting ≠ [] → is_running k st = true) ∧
     ∀ t, t ∈ waiting ↔
          ∃ fr, tasks st !! t = Some fr ∧ f_pc fr = AwaitTicket ∧
                t ∉ resolved st) ∧
  (∀ events' st',
     run events' st = Some st' →
     ∃ waiting waiting' (n : nat) new,
       queues st = [waiting] ∧ queues st' = [waiting'] ∧
       waiting' = drop n waiting ++ new ∧
       ∀ t, t ∈ new → tasks st !! t = None).
Proof.
  intros Hrun.
  destruct (run_exclusive_inv k f events _ st (exclusive_inv_expose k f) Hrun)
    as (Hinv & _ & _).
  pose proof Hinv as (b & w & Htbl & Hqs & Hnd & Hw & Hb & Hshape & Hres & Hone & Hflag).
  assert (Hrunning : is_running k st = b).
  { unfold is_running, is_key_running. by rewrite Htbl, lookup_singleton_eq. }
  split; [|split; [|split]].
  - intros t1 t2 fr1 fr2 H1 H2 He1 He2. eapply Hone; [done|done|by left|by left].
  - intros t fr Hfr Hexec. rewrite Hrunning. apply Hflag.
    exists t, fr. split; [done|by left].
  - exists w. split; [done|]. split; [|done].
    intros Hne. rewrite Hrunning. destruct b; [done|]. by destruct Hne; apply Hb.
  - intros events' st' Hrun'.
    by destruct (run_exclusive_inv k f events' st st' Hinv Hrun') as (_ & _ & ?).
Qed.

(** C2 fails on the code for a function that is not exclusive. Two
    clients call the coroutine function py_normal; both calls are inside
    the function when the first one ends and clears the flag: the flag is
    false while the second call is still running. [clear] then removes
    the key, and the second call ends in a [KeyError] without a reply. *)
Theorem running_flag_cleared_while_running :
  let py_normal := PyFunc 0 "py_normal" true in
  let call_py_normal :=
    Envelope (JStr "function_call") (JStr "py_normal") (JInt 1)
             (JList [JStr "a"]) JNull in
  let st0 := snd (expose "py_normal" py_normal false initial) in
  let events :=
    [Call 1 0%nat 1 call_py_normal;      (* first call: flag set *)
     Call 2 1%nat 2 call_py_normal;      (* second call: flag set *)
     Resume 1 (Returns JNull);           (* first call enters py_normal *)
     Resume 2 (Returns JNull);           (* second call enters py_normal *)
     Resume 1 (Returns (JBool true));    (* py_normal of the first call ends *)
     Resume 1 (Returns JNull)] in        (* first call clears the flag *)
  ∃ st,
    run events st0 = Some st ∧
    is_running "py_normal" st = false ∧
    (f_pc <$> tasks st !! 1%nat) = Some Finished ∧
    (f_pc <$> tasks st !! 2%nat) = Some InFunc ∧
    (executing <$> tasks st !! 2%nat) = Some true ∧
    fst (clear "py_normal" st) = true ∧
    ∃ st',
      run [Resume 2 (Returns (JBool true)); Resume 2 (Returns JNull)]
          (snd (clear "py_normal" st)) = Some st' ∧
      (f_pc <$> tasks st' !! 2%nat) = Some Crashed ∧
      map fst (outbox st') = [0%nat].
Proof.
  eexists. split; [vm_compute; reflexivity|].
  vm_compute. repeat split. eexists. repeat split.
Qed.

End running.

(** * More of the code *)

(** ** Python dicts as association lists *)

Section pydict_facts.
Context {K V : Type} `{EqDecision K}.

Lemma dict_get_set_ne (k k' : K) (v : V) (d : list (K * V)) :
  k ≠ k' → dict_get k' (dict_set k v d) = dict_get k' d.
Proof.
  intros Hne. induction d as [|[k0 v0] d IH]; simpl.
  - by rewrite decide_False by congruence.
  - destruct (decide (k = k0)) as [->|Hk]; simpl.
    + by rewrite !decide_False by congruence.
    + by rewrite IH.
Qed.

Lemma dict_get_del_ne (k k' : K) (d : list (K * V)) :
  k ≠ k' → dict_get k' (dict_del k d) = dict_get k' d.
Proof.
  intros Hne. induction d as [|[k0 v0] d IH]; simpl; [done|].
  destruct (decide (k = k0)) as [->|Hk]; simpl.
  - by rewrite decide_False by congruence.
  - by rewrite IH.
Qed.

Lemma dict_get_None (k : K) (d : list (K * V)) :
  dict_get k d = None ↔ k ∉ dict_keys d.
Proof.
  unfold dict_keys. induction d as [|[k0 v0] d IH]; simpl.
  - split; [intros _; apply not_elem_of_nil|done].
  - rewrite not_elem_of_cons. destruct (decide (k = k0)); naive_solver.
Qed.

Lemma dict_get_del (k : K) (d : list (K * V)) :
  NoDup (dict_keys d) → dict_get k (dict_del k d) = None.
Proof.
  unfold dict_keys. induction d as [|[k0 v0] d IH]; simpl; [done|].
  intros [Hfresh Hnd]%NoDup_cons.
  destruct (decide (k = k0)) as [->|Hk]; simpl.
  - by apply dict_get_None.
  - rewrite decide_False by done. by apply IH.
Qed.

Lemma dict_keys_set (k : K) (v : V) (d : list (K * V)) :
  dict_keys (dict_set k v d)
  = match dict_get k d with
    | Some _ => dict_keys d
    | None => dict_keys d ++ [k]
    end.
Proof.
  unfold dict_keys. induction d as [|[k0 v0] d IH]; simpl; [done|].
  destruct (decide (k = k0)) as [->|Hk]; simpl; [done|].
  rewrite IH. by destruct (dict_get k d).
Qed.

Lemma dict_keys_del (k : K) (d : list (K * V)) :
  NoDup (dict_keys d) →
  NoDup (dict_keys (dict_del k d)) ∧
  ∀ k', k' ∈ dict_keys (dict_del k d) ↔ k' ∈ dict_keys d ∧ k' ≠ k.
Proof.
  unfold dict_keys. induction d as [|[k0 v0] d IH]; simpl.
  - intros _. split; [constructor|]. intros k'. rewrite elem_of_nil. tauto.
  - intros [Hfresh Hnd]%NoDup_cons.
    destruct (decide (k = k0)) as [->|Hk]; simpl.
    + split; [done|]. intros k'. rewrite elem_of_cons. split.
      * intros Hin. split; [by right|]. by intros ->.
      * intros [[->|Hin] Hne]; done.
    + destruct (IH Hnd) as [Hnd' Hin']. split.
      * apply NoDup_cons. split; [|done]. rewrite Hin'. tauto.
      * intros k'. rewrite !elem_of_cons, Hin'. naive_solver.
Qed.

Lemma dict_keys_set_NoDup (k : K) (v : V) (d : list (K * V)) :
  NoDup (dict_keys d) → NoDup (dict_keys (dict_set k v d)).
Proof.
  intros Hnd. rewrite dict_keys_set.
  destruct (dict_get k d) eqn:Hk; [done|].
  apply NoDup_app. split; [done|]. split; [|apply NoDup_singleton].
  intros k' Hin Hin'. apply list_elem_of_singleton in Hin' as ->.
  by apply dict_get_None in Hk.
Qed.

Lemma dict_set_set (k : K) (v v' : V) (d : list (K * V)) :
  dict_set k v (dict_set k v' d) = dict_set k v d.
Proof.
  induction d as [|[k0 v0] d IH]; simpl.
  - by rewrite decide_True.
  - destruct (decide (k = k0)) as [->|Hk]; simpl.
    + by rewrite decide_True.
    + by rewrite decide_False, IH.
Qed.

Lemma dict_set_same (k : K) (v : V) (d : list (K * V)) :
  dict_get k d = Some v → dict_set k v d = d.
Proof.
  induction d as [|[k0 v0] d IH]; simpl; [done|].
  destruct (decide (k = k0)) as [->|Hk].
  - by intros [= ->].
  - intros Hget. by rewrite IH.
Qed.

Lemma dict_del_set_fresh (k : K) (v : V) (d : list (K * V)) :
  dict_get k d = None → dict_del k (dict_set k v d) = d.
Proof.
  induction d as [|[k0 v0] d IH]; simpl.
  - by rewrite decide_True.
  - destruct (decide (k = k0)) as [->|Hk]; [done|].
    intros Hget. simpl. by rewrite decide_False, IH.
Qed.

End pydict_facts.

(** ** The queues of the server *)

Section queue_stack.
Import JsPyQueueStack.

Lemma json_is_str_spec (x : json) (s : string) :
  json_is_str x s = true ↔ x = JStr s.
Proof.
  destruct x; simpl; try (split; [discriminate|congruence]).
  rewrite String.eqb_eq. split; congruence.
Qed.

Lemma arrived_one k e :
  arrived k [e]
  = if decide (JsPyPubsub.hash_key (key e) = Some k) then [data e] else [].
Proof.
  unfold arrived. rewrite filter_cons, filter_nil.
  by destruct (decide (JsPyPubsub.hash_key (key e) = Some k)).
Qed.

Lemma queue_step_content ws socket_id e st k :
  default [] (dict_get k (_queue_stack (fst (fst (_queue ws socket_id e st)))))
  = default [] (dict_get k (_queue_stack st)) ++ arrived k [e] ∧
  (is_Some (dict_get k (_queue_stack (fst (fst (_queue ws socket_id e st))))) ↔
   is_Some (dict_get k (_queue_stack st)) ∨ arrived k [e] ≠ []) ∧
  _queue_callbacks (fst (fst (_queue ws socket_id e st))) = _queue_callbacks st.
Proof.
  rewrite arrived_one. unfold _queue.
  destruct (JsPyPubsub.hash_key (key e)) as [k0|] eqn:Hk; simpl.
  - destruct (decide (Some k0 = Some k)) as [[= ->]|Hne].
    + destruct (dict_get k (_queue_stack st)) as [q|] eqn:Hq; simpl;
        rewrite dict_get_set; simpl; repeat split; eauto.
    + rewrite app_nil_r.
      assert (k0 ≠ k) by congruence.
      destruct (dict_get k0 (_queue_stack st)) as [q|]; simpl;
        rewrite dict_get_set_ne by done; repeat split; try tauto; naive_solver.
  - destruct (decide (None = Some k)) as [?|_]; [done|]. rewrite app_nil_r.
    repeat split; try tauto; naive_solver.
Qed.

(** Every queue of the server holds, in the order of arrival, the data of
    the "queue" and "queue_call" envelopes whose key is its key; a queue
    exists once an envelope has arrived for it; the arrival callbacks are
    not changed by arrivals. *)
Theorem queue_holds_arrivals_in_order (ws : WebSocket) (socket_id : Z)
    (envs : list envelope) (st : store) (k : JsPyPubsub.pykey) :
  default [] (dict_get k (_queue_stack (arrivals ws socket_id envs st)))
  = default [] (dict_get k (_queue_stack st)) ++ arrived k envs ∧
  (is_Some (dict_get k (_queue_stack (arrivals ws socket_id envs st))) ↔
   is_Some (dict_get k (_queue_stack st)) ∨ arrived k envs ≠ []) ∧
  _queue_callbacks (arrivals ws socket_id envs st) = _queue_callbacks st.
Proof.
  revert st. induction envs as [|e envs IH]; intros st.
  - simpl. rewrite app_nil_r. unfold arrived. simpl. naive_solver.
  - change (arrivals ws socket_id (e :: envs) st)
      with (arrivals ws socket_id envs (fst (fst (_queue ws socket_id e st)))).
    destruct (IH (fst (fst (_queue ws socket_id e st)))) as (Hc & Hs & Hcb).
    destruct (queue_step_content ws socket_id e st k) as (Hc1 & Hs1 & Hcb1).
    assert (Hsplit : arrived k (e :: envs) = arrived k [e] ++ arrived k envs).
    { unfold arrived. rewrite <- map_app. f_equal.
      change (e :: envs) with ([e] ++ envs). by rewrite filter_app. }
    rewrite Hc, Hc1, Hs, Hs1, Hcb, Hcb1, Hsplit, app_assoc.
    split; [done|]. split; [|done].
    destruct (arrived k [e]), (arrived k envs); naive_solver.
Qed.

Lemma shifts_all k (q : list json) default_value st :
  dict_get k (_queue_stack st) = Some q →
  shifts (length q) k default_value st
  = (q, Store (dict_set k [] (_queue_stack st)) (_queue_callbacks st)).
Proof.
  revert st. induction q as [|x q IH]; intros st Hq; simpl.
  - rewrite dict_set_same by done. by destruct st.
  - unfold shift at 1. rewrite Hq.
    rewrite (IH (Store (dict_set k q (_queue_stack st)) (_queue_callbacks st)))
      by (simpl; apply dict_get_set).
    simpl. by rewrite dict_set_set.
Qed.

Lemma pops_all k (q : list json) default_value st :
  dict_get k (_queue_stack st) = Some q →
  pops (length q) k default_value st
  = (rev q, Store (dict_set k [] (_queue_stack st)) (_queue_callbacks st)).
Proof.
  revert st. induction q as [|x q IH] using rev_ind; intros st Hq.
  - simpl. rewrite dict_set_same by done. by destruct st.
  - rewrite length_app, Nat.add_1_r, rev_unit. cbn [pops].
    unfold pop at 1. rewrite Hq, last_snoc, removelast_last.
    rewrite (IH (Store (dict_set k q (_queue_stack st)) (_queue_callbacks st)))
      by (simpl; apply dict_get_set).
    simpl. by rewrite dict_set_set.
Qed.

(** [shift] takes the items of a queue in the order of arrival, [pop] in
    the reverse order; when the items are taken the queue is still there,
    empty; on an empty queue and on a key that has no queue both return
    the default value and change nothing. *)
Theorem shift_is_fifo_pop_is_lifo (k : JsPyPubsub.pykey) (q : list json)
    (default_value : json) (st : store) :
  dict_get k (_queue_stack st) = Some q →
  let emptied := Store (dict_set k [] (_queue_stack st)) (_queue_callbacks st) in
  shifts (length q) k default_value st = (q, emptied) ∧
  pops (length q) k default_value st = (rev q, emptied) ∧
  has k emptied = true ∧ is_empty k emptied = true ∧
  shift k default_value emptied = (default_value, emptied) ∧
  pop k default_value emptied = (default_value, emptied) ∧
  ∀ k' st', dict_get k' (_queue_stack st') = None →
            shift k' default_value st' = (default_value, st') ∧
            pop k' default_value st' = (default_value, st').
Proof.
  intros Hq emptied.
  assert (He : dict_get k (_queue_stack emptied) = Some []) by apply dict_get_set.
  split; [by apply shifts_all|]. split; [by apply pops_all|].
  split; [unfold has; rewrite He; apply bool_decide_eq_true; eauto|].
  split; [unfold is_empty; by rewrite He|].
  split; [unfold shift; by rewrite He|].
  split; [unfold pop; by rewrite He|].
  intros k' st' Hnone. unfold shift, pop. by rewrite Hnone.
Qed.

Lemma shift_is_fifo_pop_is_lifo_witness :
  let k := JsPyPubsub.KStr "jobs" in
  let st := arrivals 0%nat 1
              [Envelope (JStr "queue") (JStr "jobs") (JInt 1) (JInt 10) JNull;
               Envelope (JStr "queue") (JStr "jobs") (JInt 2) (JInt 20) JNull]
              initial in
  dict_get k (_queue_stack st) = Some [JInt 10; JInt 20] ∧
  fst (shifts 2 k JNull st) = [JInt 10; JInt 20] ∧
  fst (pops 2 k JNull st) = [JInt 20; JInt 10].
Proof.
  intros k st.
  assert (Hq : dict_get k (_queue_stack st) = Some [JInt 10; JInt 20])
    by reflexivity.
  split; [exact Hq|].
  destruct (shift_is_fifo_pop_is_lifo k _ JNull st Hq) as (Hs & Hp & _).
  split.
  - exact (f_equal fst Hs).
  - exact (f_equal fst Hp).
Defined.

(** A "queue_call" envelope is answered by one "queue_return" envelope
    with its key and id; the answer carries an exception exactly when the
    key cannot be the key of a dict, and then nothing is stored and no
    callback is started. Other envelopes are not answered. When the data
    is stored, one call is started for each arrival callback. *)
Theorem queue_call_is_acknowledged (ws : WebSocket) (socket_id : Z)
    (e : envelope) (st : store) :
  (protocol e = JStr "queue_call" →
     ∃ exc,
       snd (fst (_queue ws socket_id e st))
         = [(ws, Envelope (JStr "queue_return") (key e) (id e) JNull exc)] ∧
       (exc = JNull ↔ is_Some (JsPyPubsub.hash_key (key e)))) ∧
  (protocol e ≠ JStr "queue_call" → snd (fst (_queue ws socket_id e st)) = []) ∧
  (JsPyPubsub.hash_key (key e) = None →
     fst (fst (_queue ws socket_id e st)) = st ∧
     snd (_queue ws socket_id e st) = []) ∧
  (is_Some (JsPyPubsub.hash_key (key e)) →
     length (snd (_queue ws socket_id e st)) = length (_queue_callbacks st)).
Proof.
  unfold _queue.
  destruct (json_is_str (protocol e) "queue_call") eqn:Hp.
  - apply json_is_str_spec in Hp.
    destruct (JsPyPubsub.hash_key (key e)) as [k|]; simpl.
    + split; [intros _; exists JNull; split; [done|]; split; eauto|].
      split; [done|]. split; [done|]. intros _. by rewrite length_map.
    + split.
      { intros _. eexists. split; [done|]. split; [done|]. by intros [? ?]. }
      split; [done|]. split; [done|]. by intros [? ?].
  - assert (protocol e ≠ JStr "queue_call").
    { intros Heq. apply json_is_str_spec in Heq. congruence. }
    destruct (JsPyPubsub.hash_key (key e)) as [k|]; simpl.
    + split; [done|]. split; [done|]. split; [done|].
      intros _. by rewrite length_map.
    + split; [done|]. split; [done|]. split; [done|]. by intros [? ?].
Qed.

Lemma dict_get_map_empty (k : JsPyPubsub.pykey)
    (d : list (JsPyPubsub.pykey * list json)) :
  dict_get k (map (λ kq, (fst kq, @nil json)) d)
  = (λ _, @nil json) <$> dict_get k d.
Proof.
  induction d as [|[k0 q0] d IH]; simpl; [done|].
  by destruct (decide (k = k0)).
Qed.

(** [clear] empties a queue and keeps its key, [remove] deletes the key;
    both leave the other queues as they are and do nothing for a key that
    has no queue. [clear_all] empties every queue and keeps every key,
    [remove_all] leaves no key. *)
Theorem clear_keeps_the_key_remove_deletes_it (k : JsPyPubsub.pykey) (st : store) :
  NoDup (get_keys st) →
  (get_keys (clear k st) = get_keys st ∧
   is_empty k (clear k st) = true ∧
   has k (clear k st) = has k st ∧
   ∀ k', k' ≠ k →
         dict_get k' (_queue_stack (clear k st)) = dict_get k' (_queue_stack st)) ∧
  (has k (remove k st) = false ∧
   NoDup (get_keys (remove k st)) ∧
   (∀ k', k' ∈ get_keys (remove k st) ↔ k' ∈ get_keys st ∧ k' ≠ k) ∧
   ∀ k', k' ≠ k →
         dict_get k' (_queue_stack (remove k st)) = dict_get k' (_queue_stack st)) ∧
  (has k st = false → clear k st = st ∧ remove k st = st) ∧
  (get_keys (clear_all st) = get_keys st ∧
   ∀ k', is_empty k' (clear_all st) = true) ∧
  get_keys (remove_all st) = [].
Proof.
  intros Hnd. unfold get_keys in *.
  split; [|split; [|split; [|split]]].
  - unfold clear, is_empty, has.
    destruct (dict_get k (_queue_stack st)) as [q|] eqn:Hq; simpl.
    + rewrite dict_keys_set, Hq, dict_get_set. repeat split; try done.
      intros k' Hne. by apply dict_get_set_ne.
    + rewrite Hq. repeat split; done.
  - unfold remove, has.
    destruct (dict_get k (_queue_stack st)) as [q|] eqn:Hq; simpl.
    + destruct (dict_keys_del k (_queue_stack st) Hnd) as [Hnd' Hin].
      rewrite dict_get_del by done.
      split; [apply bool_decide_eq_false; by intros [? ?]|].
      split; [done|]. split; [done|].
      intros k' Hne. by apply dict_get_del_ne.
    + rewrite Hq.
      split; [apply bool_decide_eq_false; by intros [? ?]|].
      split; [done|]. split; [|done].
      intros k'. split; [|tauto].
      intros Hin. split; [done|]. intros ->. by apply dict_get_None in Hq.
  - unfold has, clear, remove. intros Hhas.
    apply bool_decide_eq_false in Hhas.
    destruct (dict_get k (_queue_stack st)); [|done].
    destruct Hhas. eauto.
  - unfold clear_all, is_empty. simpl. split.
    + unfold dict_keys. rewrite map_map. done.
    + intros k'. rewrite dict_get_map_empty.
      by destruct (dict_get k' (_queue_stack st)).
  - done.
Qed.

Lemma clear_keeps_the_key_remove_deletes_it_witness :
  let k := JsPyPubsub.KStr "jobs" in
  let st := Store [(k, [JInt 1; JInt 2]); (JsPyPubsub.KNum 7, [JNull])] [] in
  NoDup (get_keys st) ∧
  get_keys (clear k st) = get_keys st ∧
  is_empty k (clear k st) = true ∧
  has k (remove k st) = false.
Proof.
  intros k st.
  assert (Hnd : NoDup (get_keys st)) by compute_done.
  split; [exact Hnd|].
  destruct (clear_keeps_the_key_remove_deletes_it k st Hnd)
    as ((Hkeys & Hempty & _) & (Hgone & _) & _).
  auto.
Defined.

(** The arrival callbacks are a set: registering a function that is
    registered changes nothing, and every arrival with a key that can be
    stored starts each registered function once, as a task when it is a
    coroutine function and as a reservation for the event loop
    otherwise. After [clear_callback] an arrival starts nothing. *)
Theorem arrival_callbacks_form_a_set (func : pyfunc) (st : store) :
  NoDup (_queue_callbacks st) →
  NoDup (_queue_callbacks (add_callback func st)) ∧
  (∀ g, g ∈ _queue_callbacks (add_callback func st) ↔
        g = func ∨ g ∈ _queue_callbacks st) ∧
  add_callback func (add_callback func st) = add_callback func st ∧
  _queue_stack (add_callback func st) = _queue_stack st ∧
  (∀ ws socket_id e,
     is_Some (JsPyPubsub.hash_key (key e)) →
     NoDup (snd (_queue ws socket_id e (add_callback func st))) ∧
     ∀ s, s ∈ snd (_queue ws socket_id e (add_callback func st)) ↔
          ∃ g, (g = func ∨ g ∈ _queue_callbacks st) ∧
               s = if iscoroutinefunction g then CreateTask g (key e)
                   else Reserve g (key e)) ∧
  (∀ ws socket_id e, snd (_queue ws socket_id e (clear_callback st)) = []).
Proof.
  intros Hnd.
  assert (Hin : ∀ g, g ∈ _queue_callbacks (add_callback func st) ↔
                     g = func ∨ g ∈ _queue_callbacks st).
  { intros g. unfold add_callback. simpl. case_bool_decide as Hf.
    - split; [by right|]. by intros [->|?].
    - rewrite elem_of_app, list_elem_of_singleton. tauto. }
  assert (Hnd' : NoDup (_queue_callbacks (add_callback func st))).
  { unfold add_callback. simpl. case_bool_decide as Hf; [done|].
    apply NoDup_app. split; [done|]. split; [|apply NoDup_singleton].
    by intros g Hg ->%list_elem_of_singleton. }
  split; [exact Hnd'|]. split; [exact Hin|]. split.
  { unfold add_callback at 1. rewrite bool_decide_eq_true_2; [|apply Hin; by left].
    by destruct (add_callback func st). }
  split; [done|]. split.
  - intros ws socket_id e [k Hk]. unfold _queue. rewrite Hk.
    cbn [snd]. split.
    + apply NoDup_fmap_2; [|exact Hnd'].
      intros g1 g2.
      destruct (iscoroutinefunction g1), (iscoroutinefunction g2); congruence.
    + intros s. rewrite list_elem_of_fmap. split.
      * intros (g & -> & Hg). exists g. split; [by apply Hin|done].
      * intros (g & Hg & ->). exists g. split; [done|by apply Hin].
  - intros ws socket_id e. unfold _queue, clear_callback.
    by destruct (JsPyPubsub.hash_key (key e)).
Qed.

Lemma arrival_callbacks_form_a_set_witness :
  let f := PyFunc 0 "qprint" false in
  NoDup (_queue_callbacks initial) ∧
  add_callback f (add_callback f initial) = add_callback f initial.
Proof.
  intros f.
  assert (Hnd : NoDup (_queue_callbacks initial)) by constructor.
  split; [exact Hnd|].
  by destruct (arrival_callbacks_form_a_set f initial Hnd) as (_ & _ & Hidem & _).
Defined.

End queue_stack.

(** ** push and its acknowledgments *)

Section pushes.
Import JsPyQueue.

Lemma queue_return_loop_results accepts sid e (slots slots' : list slot) :
  queue_return_loop accepts sid e slots = Some slots' →
  length slots' = length slots ∧
  (∀ s, Result s ∈ slots' →
        Result s ∈ slots ∨ (s = sid ∧ truthy (exception e) = false)) ∧
  (unsettled slots ≤ S (unsettled slots'))%nat.
Proof.
  unfold unsettled. revert slots'.
  induction slots as [|ft rest IH]; intros slots'; simpl.
  - intros [= <-]. split; [done|]. split; [|simpl; lia].
    intros s Hin. by apply elem_of_nil in Hin.
  - destruct (done ft) eqn:Hdone; simpl.
    + destruct (queue_return_loop accepts sid e rest) as [rest'|] eqn:Hloop;
        simpl; [|done].
      intros [= <-]. destruct (IH rest' eq_refl) as (Hlen & Hres & Hpend).
      simpl. rewrite Hdone. simpl. split; [by rewrite Hlen|]. split; [|done].
      intros s [->|Hin]%elem_of_cons.
      * left. by left.
      * destruct (Hres s Hin) as [?|?]; [left; by right|by right].
    + destruct (truthy (exception e)) eqn:Hexc; simpl.
      * destruct (accepts (exception e)); [|done].
        intros [= <-]. simpl. split; [done|]. split; [|lia].
        intros s [[=]|Hin]%elem_of_cons. left. by right.
      * intros [= <-]. simpl. split; [done|]. split; [|lia].
        intros s [[= ->]|Hin]%elem_of_cons; [by right|]. left. by right.
Qed.

Lemma queue_return_entry accepts sid e st i :
  match _queue_memory st !! i with
  | None => _queue_memory (_queue_return accepts sid e st) !! i = None
  | Some slots =>
      ∃ slots', _queue_memory (_queue_return accepts sid e st) !! i = Some slots' ∧
        length slots' = length slots ∧
        (∀ s, Result s ∈ slots' →
              Result s ∈ slots ∨
              (s = sid ∧ as_int (id e) = Some i ∧ truthy (exception e) = false)) ∧
        (unsettled slots ≤ S (unsettled slots'))%nat
  end.
Proof.
  assert (Hsame : ∀ slots, _queue_memory st !! i = Some slots →
    ∃ slots', _queue_memory st !! i = Some slots' ∧
      length slots' = length slots ∧
      (∀ s, Result s ∈ slots' →
            Result s ∈ slots ∨
            (s = sid ∧ as_int (id e) = Some i ∧ truthy (exception e) = false)) ∧
      (unsettled slots ≤ S (unsettled slots'))%nat).
  { intros slots Hi. exists slots. split; [done|]. split; [done|].
    split; [by left|lia]. }
  unfold _queue_return.
  destruct (as_int (id e)) as [j|] eqn:Hid.
  2: { destruct (_queue_memory st !! i) eqn:Hi; [by apply Hsame|done]. }
  destruct (_queue_memory st !! j) as [futures|] eqn:Hj.
  2: { destruct (_queue_memory st !! i) eqn:Hi; [by apply Hsame|done]. }
  destruct (queue_return_loop accepts sid e futures) as [futures'|] eqn:Hloop.
  2: { destruct (_queue_memory st !! i) eqn:Hi; [by apply Hsame|done]. }
  simpl. destruct (decide (i = j)) as [->|Hne].
  - rewrite Hj, lookup_insert_eq.
    destruct (queue_return_loop_results _ _ _ _ _ Hloop) as (Hlen & Hres & Hpend).
    exists futures'. split; [done|]. split; [done|]. split; [|done].
    intros s Hin. destruct (Hres s Hin) as [?|[? ?]]; [by left|by right].
  - rewrite lookup_insert_ne by done.
    destruct (_queue_memory st !! i) eqn:Hi; [by apply Hsame|done].
Qed.

Lemma collect_results (slots : list slot) :
  (length (collect slots) ≤ length slots)%nat ∧
  ∀ s, s ∈ collect slots → Result s ∈ slots.
Proof.
  induction slots as [|ft rest [IHlen IHin]]; simpl.
  - split; [done|]. intros s Hin. by apply elem_of_nil in Hin.
  - destruct ft as [|v|x]; simpl.
    + split; [lia|]. intros s Hin. right. by apply IHin.
    + split; [lia|]. intros s [->|Hin]%elem_of_cons; [by left|].
      right. by apply IHin.
    + split; [lia|]. intros s Hin. right. by apply IHin.
Qed.

Lemma forallb_done_unsettled (slots : list slot) :
  forallb done slots = true → unsettled slots = 0%nat.
Proof.
  unfold unsettled. induction slots as [|ft rest IH]; simpl; [done|].
  intros [Hft Hrest]%andb_true_iff. rewrite Hft. simpl. by apply IH.
Qed.

Lemma run_push_returned accepts timeout this_id events rv st :
  fst (run_push accepts timeout this_id events (HasReturned rv) st)
  = HasReturned rv.
Proof.
  revert st. induction events as [|[sid e|] rest IH]; intros st; simpl;
    [done| |]; apply IH.
Qed.

Lemma run_push_absent accepts timeout this_id events rv st :
  _queue_memory st !! this_id = None →
  _queue_memory (snd (run_push accepts timeout this_id events (HasReturned rv) st))
    !! this_id = None.
Proof.
  revert st. induction events as [|[sid e|] rest IH]; intros st Hnone; simpl;
    [done| |by apply IH].
  apply IH. pose proof (queue_return_entry accepts sid e st this_id) as Hentry.
  by rewrite Hnone in Hentry.
Qed.

Lemma run_push_sound accepts timeout this_id (n : nat) (Q : Z → Prop)
    events st (slots : list slot) rv :
  (∀ s e, Ack s e ∈ events → as_int (id e) = Some this_id →
          truthy (exception e) = false → Q s) →
  _queue_memory st !! this_id = Some slots →
  length slots = n →
  (∀ s, Result s ∈ slots → Q s) →
  fst (run_push accepts timeout this_id events StillWaiting st) = HasReturned rv →
  (length rv ≤ n)%nat ∧ (∀ s, s ∈ rv → Q s) ∧
  _queue_memory (snd (run_push accepts timeout this_id events StillWaiting st))
    !! this_id = None.
Proof.
  revert st slots.
  induction events as [|ev rest IH]; intros st slots HQ Hmem Hlen Hres; simpl;
    [done|].
  assert (HQ' : ∀ s e, Ack s e ∈ rest → as_int (id e) = Some this_id →
                       truthy (exception e) = false → Q s).
  { intros s e Hin. apply HQ. by right. }
  assert (Hfinish : ∀ st1 slots1,
    _queue_memory st1 !! this_id = Some slots1 → length slots1 = n →
    (∀ s, Result s ∈ slots1 → Q s) →
    fst (let '(rv0, st2) := inner_finish this_id st1 in
         run_push accepts timeout this_id rest (HasReturned rv0) st2)
    = HasReturned rv →
    (length rv ≤ n)%nat ∧ (∀ s, s ∈ rv → Q s) ∧
    _queue_memory (snd (let '(rv0, st2) := inner_finish this_id st1 in
         run_push accepts timeout this_id rest (HasReturned rv0) st2))
      !! this_id = None).
  { intros st1 slots1 Hmem1 Hlen1 Hres1. unfold inner_finish.
    rewrite Hmem1. simpl. rewrite run_push_returned. intros [= <-].
    destruct (collect_results slots1) as [Hclen Hcin].
    split; [lia|]. split; [intros s Hin; by apply Hres1, Hcin|].
    apply run_push_absent. simpl. apply lookup_delete_eq. }
  destruct ev as [sid e|].
  - pose proof (queue_return_entry accepts sid e st this_id) as Hentry.
    rewrite Hmem in Hentry.
    destruct Hentry as (slots1 & Hmem1 & Hlen1 & Hres1 & _).
    assert (HQ1 : ∀ s, Result s ∈ slots1 → Q s).
    { intros s Hin. destruct (Hres1 s Hin) as [?|(-> & Hid & Hexc)]; [by apply Hres|].
      apply (HQ sid e); [by left|done|done]. }
    destruct (all_done this_id (_queue_return accepts sid e st)).
    + apply (Hfinish _ slots1); [done|lia|done].
    + apply (IH _ slots1); [done|done|lia|done].
  - destruct (JsPyFunction.effective_timeout timeout).
    + by apply (Hfinish _ slots).
    + by apply (IH _ slots).
Qed.

Lemma run_push_timer accepts timeout this_id events status st :
  is_Some (JsPyFunction.effective_timeout timeout) →
  TimerFires ∈ events →
  ∃ rv, fst (run_push accepts timeout this_id events status st) = HasReturned rv.
Proof.
  intros [t Ht]. revert status st.
  induction events as [|ev rest IH]; intros status st Hin;
    [by apply elem_of_nil in Hin|].
  destruct status as [|rv]; [|exists rv; apply run_push_returned].
  simpl. destruct ev as [sid e|].
  - apply elem_of_cons in Hin as [[=]|Hin].
    destruct (all_done this_id (_queue_return accepts sid e st)).
    + eexists. apply run_push_returned.
    + by apply IH.
  - rewrite Ht. eexists. apply run_push_returned.
Qed.

Lemma run_push_waits accepts timeout this_id events st (slots : list slot) :
  JsPyFunction.effective_timeout timeout = None →
  _queue_memory st !! this_id = Some slots →
  (acks events < unsettled slots)%nat →
  fst (run_push accepts timeout this_id events StillWaiting st) = StillWaiting.
Proof.
  intros Ht. revert st slots.
  induction events as [|ev rest IH]; intros st slots Hmem Hacks; simpl; [done|].
  destruct ev as [sid e|].
  - pose proof (queue_return_entry accepts sid e st this_id) as Hentry.
    rewrite Hmem in Hentry.
    destruct Hentry as (slots1 & Hmem1 & _ & _ & Hpend).
    unfold acks in Hacks. simpl in Hacks. fold (acks rest) in Hacks.
    destruct (all_done this_id (_queue_return accepts sid e st)) eqn:Hall.
    + unfold all_done in Hall. unfold slot in *.
      rewrite Hmem1 in Hall. simpl in Hall.
      apply forallb_done_unsettled in Hall. unfold slot in *. lia.
    + apply (IH _ slots1); [done|lia].
  - rewrite Ht. by apply (IH _ slots).
Qed.

Lemma unsettled_pending {A} (l : list A) :
  unsettled (map (λ _, Pending) l) = length l.
Proof. unfold unsettled. induction l; simpl; [done|]. by f_equal. Qed.

(** The closure of [push], for any behaviour of [set_exception]:
    without a connected target it returns the empty list at once; a list
    it returns is no longer than the list of targets, and every socket id
    in it sent an acknowledgment with the id of this push and no
    exception; with a positive timeout it returns when the timer fires;
    with no timeout (None, zero or negative) it does not return before as
    many acknowledgments as targets have arrived; when it has returned,
    its entry of [_queue_memory] is deleted. *)
Theorem push_returns_acknowledging_sockets (accepts_exception : json → bool)
    (key : string) (timeout : option Z) (t : JsPyTextSocket.target)
    (data : json) (events : list wire_event) (r : JsPyTextSocket.registry)
    (st : state) :
  let this_id := next_queue_id (_queue_id st) in
  let targets := target_sockets t r in
  let result := push accepts_exception key timeout t data events r st in
  (targets = [] → fst result = HasReturned []) ∧
  (∀ rv, fst result = HasReturned rv →
     (length rv ≤ length targets)%nat ∧
     ∀ s, s ∈ rv →
          ∃ e, Ack s e ∈ events ∧ as_int (id e) = Some this_id ∧
               truthy (exception e) = false) ∧
  (is_Some (JsPyFunction.effective_timeout timeout) → TimerFires ∈ events →
     ∃ rv, fst result = HasReturned rv) ∧
  (JsPyFunction.effective_timeout timeout = None →
     (acks events < length targets)%nat → fst result = StillWaiting) ∧
  (targets ≠ [] → ∀ rv, fst result = HasReturned rv →
     _queue_memory (snd result) !! this_id = None).
Proof.
  intros this_id targets result. subst result. unfold push, inner_issue.
  fold this_id. fold targets.
  destruct targets as [|s0 targets0] eqn:Htargets.
  - simpl. rewrite run_push_returned.
    split; [done|]. split.
    { intros rv [= <-]. split; [done|]. intros s Hin. by apply elem_of_nil in Hin. }
    split; [eauto|]. split; [simpl; lia|]. done.
  - rewrite bool_decide_eq_false_2 by done.
    set (slots := map (λ _, Pending) (s0 :: targets0) : list slot).
    set (st1 := State this_id (<[this_id := slots]> (_queue_memory st))).
    assert (Hmem : _queue_memory st1 !! this_id = Some slots)
      by apply lookup_insert_eq.
    assert (Hlen : length slots = length (s0 :: targets0))
      by apply length_map.
    assert (Hres : ∀ s, Result s ∈ slots → False).
    { intros s (x & [=] & _)%list_elem_of_fmap. }
    split; [done|]. split.
    { intros rv Hrv.
      destruct (run_push_sound accepts_exception timeout this_id
                  (length (s0 :: targets0))
                  (λ s, ∃ e, Ack s e ∈ events ∧ as_int (id e) = Some this_id ∧
                             truthy (exception e) = false)
                  events st1 slots rv) as (Hl & Hin & _); eauto.
      intros s Hs. by destruct (Hres s Hs). }
    split; [by apply run_push_timer|]. split.
    { intros Ht Hacks. apply (run_push_waits _ _ _ _ _ slots); [done|done|].
      subst slots. by rewrite unsettled_pending. }
    intros _ rv Hrv.
    destruct (run_push_sound accepts_exception timeout this_id
                (length (s0 :: targets0)) (λ _, True)
                events st1 slots rv) as (_ & _ & Hgone); eauto.
Qed.

End pushes.

(** ** The ids of the calls without reply *)

Section ids.
Import JsPyTextSocket.

Lemma iter_bump_shift (n : nat) (c : Z) :
  Nat.iter (S n) bump c = Nat.iter n bump (bump c).
Proof. by rewrite Nat.iter_succ_r. Qed.

Lemma ids_shift (len : nat) (c : Z) :
  map (λ n, Nat.iter (S n) bump c) (seq 0 (S len))
  = bump c :: map (λ n, Nat.iter (S n) bump (bump c)) (seq 0 len).
Proof.
  cbn [seq map]. f_equal. rewrite <- seq_shift, map_map.
  apply map_ext. intros n. by rewrite iter_bump_shift.
Qed.

Lemma ids_fresh (len : nat) (c : Z) :
  0 ≤ c ≤ SERIAL_MAX → Z.of_nat len < SERIAL_MAX →
  NoDup (map (λ n, Nat.iter (S n) bump c) (seq 0 len)) ∧
  ∀ i, i ∈ map (λ n, Nat.iter (S n) bump c) (seq 0 len) → 1 ≤ i ≤ SERIAL_MAX.
Proof.
  intros Hc Hlen. pose proof (bump_range c Hc) as Hb. split.
  - apply (NoDup_fmap_2_strong (λ n, Nat.iter (S n) bump c)); [|apply NoDup_seq].
    intros i j Hi%elem_of_seq Hj%elem_of_seq. rewrite !iter_bump_shift.
    apply iter_bump_inj; [done|lia|lia].
  - intros i (n & -> & _)%list_elem_of_fmap. rewrite iter_bump_shift.
    by apply iter_bump_range.
Qed.

Lemma nowaits_queue key t argss st bg :
  JsPyBackground._func_queue (snd (nowaits key t argss st bg))
  = JsPyBackground._func_queue bg ++
    zip_with (λ i args,
                ReserveMulticast
                  (Envelope (JStr "function") (JStr key) (JInt i) (JList args)
                            JNull) t)
             (map (λ n, Nat.iter (S n) bump (JsPyFunction._call_id st))
                  (seq 0 (length argss)))
             argss.
Proof.
  unfold nowaits. revert st bg.
  induction argss as [|args rest IH]; intros st bg.
  - simpl. by rewrite app_nil_r.
  - cbn [fold_left length]. rewrite ids_shift.
    cbn [fst snd].
    rewrite (surjective_pairing (JsPyFunction.inner_nowait key t args st bg)).
    rewrite IH.
    unfold JsPyFunction.inner_nowait, reservecast,
      JsPyBackground.register_function.
    cbn [fst snd JsPyBackground._func_queue JsPyFunction.with_call_id
         JsPyFunction._call_id zip_with].
    by rewrite <- app_assoc.
Qed.

Lemma push_nowaits_queue key t datas st bg :
  0 ≤ JsPyQueue._queue_id st ≤ SERIAL_MAX →
  JsPyBackground._func_queue (snd (push_nowaits key t datas st bg))
  = JsPyBackground._func_queue bg ++
    zip_with (λ i data,
                ReserveMulticast
                  (Envelope (JStr "queue") (JStr key) (JInt i) data JNull) t)
             (map (λ n, Nat.iter (S n) bump (JsPyQueue._queue_id st))
                  (seq 0 (length datas)))
             datas.
Proof.
  unfold push_nowaits. revert st bg.
  induction datas as [|data rest IH]; intros st bg Hc.
  - simpl. by rewrite app_nil_r.
  - cbn [fold_left length]. rewrite ids_shift.
    cbn [fst snd].
    pose proof (bump_range _ Hc) as Hb.
    rewrite (surjective_pairing (JsPyQueue.inner_nowait key t data st bg)).
    rewrite IH
      by (unfold JsPyQueue.inner_nowait; cbn [fst JsPyQueue._queue_id];
          change (JsPyQueue.next_queue_id (JsPyQueue._queue_id st))
            with (bump (JsPyQueue._queue_id st)); lia).
    unfold JsPyQueue.inner_nowait, reservecast,
      JsPyBackground.register_function.
    change (JsPyQueue.next_queue_id (JsPyQueue._queue_id st))
      with (bump (JsPyQueue._queue_id st)).
    cbn [fst snd JsPyBackground._func_queue JsPyQueue._queue_id zip_with].
    rewrite <- app_assoc. do 4 f_equal.
    unfold JsPyQueue._QUEUE_ID_MAX. unfold SERIAL_MAX in Hb.
    destruct (Z.ltb_spec 4294967295 (bump (JsPyQueue._queue_id st))); [lia|done].
Qed.

(** Fewer than 2^32-1 successive calls of the closure of [call_nowait]
    (of [push_nowait]) reserve one multicast each, in the order of the
    calls, behind what was reserved before; the envelopes carry the key,
    the arguments (the data) of the call and ids between 1 and 2^32-1 that
    are pairwise different. *)
Theorem nowait_ids_are_fresh (key : string) (t : target)
    (bg : JsPyBackground.state reservation) :
  (∀ (argss : list (list json)) (st : JsPyFunction.state),
     0 ≤ JsPyFunction._call_id st ≤ JsPyFunction._CALL_ID_MAX →
     Z.of_nat (length argss) < JsPyFunction._CALL_ID_MAX →
     ∃ ids : list Z,
       length ids = length argss ∧ NoDup ids ∧
       (∀ i, i ∈ ids → 1 ≤ i ≤ JsPyFunction._CALL_ID_MAX) ∧
       JsPyBackground._func_queue (snd (nowaits key t argss st bg))
       = JsPyBackground._func_queue bg ++
         zip_with (λ i args,
                     ReserveMulticast
                       (Envelope (JStr "function") (JStr key) (JInt i)
                                 (JList args) JNull) t)
                  ids argss) ∧
  (∀ (datas : list json) (st : JsPyQueue.state),
     0 ≤ JsPyQueue._queue_id st ≤ JsPyQueue._QUEUE_ID_MAX →
     Z.of_nat (length datas) < JsPyQueue._QUEUE_ID_MAX →
     ∃ ids : list Z,
       length ids = length datas ∧ NoDup ids ∧
       (∀ i, i ∈ ids → 1 ≤ i ≤ JsPyQueue._QUEUE_ID_MAX) ∧
       JsPyBackground._func_queue (snd (push_nowaits key t datas st bg))
       = JsPyBackground._func_queue bg ++
         zip_with (λ i data,
                     ReserveMulticast
                       (Envelope (JStr "queue") (JStr key) (JInt i) data JNull) t)
                  ids datas).
Proof.
  split.
  - intros argss st Hc Hlen.
    destruct (ids_fresh (length argss) (JsPyFunction._call_id st) Hc Hlen)
      as [Hnd Hrange].
    eexists. split; [|split; [exact Hnd|split; [exact Hrange|]]].
    + by rewrite length_map, length_seq.
    + apply nowaits_queue.
  - intros datas st Hc Hlen.
    destruct (ids_fresh (length datas) (JsPyQueue._queue_id st) Hc Hlen)
      as [Hnd Hrange].
    eexists. split; [|split; [exact Hnd|split; [exact Hrange|]]].
    + by rewrite length_map, length_seq.
    + by apply push_nowaits_queue.
Qed.

End ids.

(** ** Exposed functions: clear, and one invocation from a client *)

Section invocations.
Import JsPyFunction.

(** [clear] answers true exactly for a key that is exposed and not
    running; then the key is no longer exposed and the other keys are
    untouched; when it answers false nothing changes. Clearing a key that
    [expose] has just added to a table without it gives the table back
    (the whole state when the exposure is not exclusive). *)
Theorem clear_undoes_expose (key : string) (st : state) :
  (fst (clear key st) = true ↔ has key st = true ∧ is_running key st = false) ∧
  (fst (clear key st) = true →
     has key (snd (clear key st)) = false ∧
     ∀ k', k' ≠ key →
           _exposed_function (snd (clear key st)) !! k'
           = _exposed_function st !! k') ∧
  (fst (clear key st) = false → snd (clear key st) = st) ∧
  (∀ func exclusive, has key st = false →
     fst (clear key (snd (expose key func exclusive st))) = true ∧
     _exposed_function (snd (clear key (snd (expose key func exclusive st))))
     = _exposed_function st) ∧
  (∀ func, has key st = false →
     clear key (snd (expose key func false st)) = (true, st)).
Proof.
  assert (Hexpose : ∀ func exclusive, has key st = false →
    fst (clear key (snd (expose key func exclusive st))) = true ∧
    _exposed_function (snd (clear key (snd (expose key func exclusive st))))
    = _exposed_function st).
  { intros func exclusive Hhas. apply bool_decide_eq_false in Hhas.
    assert (Hnone : _exposed_function st !! key = None).
    { destruct (_exposed_function st !! key) eqn:Hk; [|done].
      destruct Hhas. eauto. }
    unfold expose, is_key_running, clear. rewrite Hnone.
    destruct exclusive; simpl; rewrite lookup_insert_eq; simpl;
      (split; [done|]); by apply delete_insert_id. }
  split; [|split; [|split; [|split; [exact Hexpose|]]]].
  - unfold clear, has, is_running, is_key_running.
    destruct (_exposed_function st !! key) as [r|] eqn:Hk; simpl.
    + destruct (ex_running r); simpl.
      * split; [done|by intros [_ ?]].
      * done.
    + split; [done|]. by intros [Hhas _].
  - unfold clear, has.
    destruct (_exposed_function st !! key) as [r|] eqn:Hk; simpl; [|done].
    destruct (ex_running r); simpl; [done|].
    intros _. rewrite lookup_delete_eq. split; [done|].
    intros k' Hne. by apply lookup_delete_ne.
  - unfold clear.
    destruct (_exposed_function st !! key) as [r|] eqn:Hk; simpl; [|done].
    by destruct (ex_running r).
  - intros func Hhas. apply bool_decide_eq_false in Hhas.
    assert (Hnone : _exposed_function st !! key = None).
    { destruct (_exposed_function st !! key) eqn:Hk; [|done].
      destruct Hhas. eauto. }
    unfold expose, is_key_running, clear. rewrite Hnone.
    simpl. rewrite lookup_insert_eq. simpl.
    destruct st as [ef qs res tks out cid mem]. unfold with_exposed. simpl.
    simpl in Hnone. by rewrite delete_insert_id.
Qed.

Lemma frame_answers_at_pc all t p f :
  frame_answers all t f → frame_answers all t (at_pc p f).
Proof. done. Qed.

Lemma frame_answers_after_func all t o f :
  frame_answers all t f → frame_answers all t (after_func o f).
Proof.
  intros (Hp & _ & Hreq). unfold after_func.
  destruct o; (split; [done|]); (split; [|done]); simpl; done.
Qed.

Lemma frame_answers_sent all t f :
  frame_answers all t f → json_is_str (f_protocol f) "function_call" = true →
  answers all (f_ws f, f_send_dic f).
Proof.
  intros (Hp & Hd & sid & req & Hin & Hproto & Hkey & Hid) Hcall.
  apply json_is_str_spec in Hcall.
  split; [done|]. split; [done|]. exists t, sid, req.
  split; [done|]. split; [congruence|done].
Qed.

Lemma enter_effect t f st :
  (∃ p, tasks (enter t f st) = <[t := at_pc p f]> (tasks st)) ∧
  outbox (enter t f st) = outbox st.
Proof.
  unfold enter, set_running.
  destruct (as_str (f_key f)) as [k|]; [|split; [by eexists|done]].
  destruct (_exposed_function st !! k); split; try done; by eexists.
Qed.

Lemma call_end_effect t f st :
  (∃ p, tasks (call_end t f st) = <[t := at_pc p f]> (tasks st)) ∧
  (outbox (call_end t f st) = outbox st ∨
   json_is_str (f_protocol f) "function_call" = true ∧
   outbox (call_end t f st) = outbox st ++ [(f_ws f, f_send_dic f)]).
Proof.
  unfold call_end.
  destruct (set_running (f_key f) false st) as [st1|] eqn:Hset;
    [|split; [by eexists|by left]].
  assert (Hst1 : tasks st1 = tasks st ∧ outbox st1 = outbox st).
  { unfold set_running in Hset. destruct (as_str (f_key f)); [|done].
    destruct (_exposed_function st !! s); [|done]. by injection Hset as <-. }
  destruct Hst1 as [Ht1 Ho1].
  set (st2 := match f_exclusive f with Some _ => _ | None => _ end).
  assert (Hst2 : tasks st2 = tasks st ∧ outbox st2 = outbox st).
  { subst st2. destruct (f_exclusive f) as [q|]; [|done].
    destruct (queues st1 !! q) as [[|waiter waiting]|]; [done| |done].
    set (st' := with_resolved _ _).
    destruct (set_running (f_key f) true st') as [st''|] eqn:Hset'; simpl.
    - unfold set_running in Hset'. destruct (as_str (f_key f)); [|done].
      destruct (_exposed_function st' !! s); [|done]. by injection Hset' as <-.
    - done. }
  destruct Hst2 as [Ht2 Ho2].
  rewrite reply_tasks. simpl. rewrite Ht2. split; [by eexists|].
  unfold reply. destruct (json_is_str (f_protocol f) "function_call"); simpl.
  - right. by rewrite Ho2.
  - by left.
Qed.

Lemma call_from_js_effect all t ws sid e st :
  Call t ws sid e ∈ all →
  (∃ f, tasks (_call_from_js t ws e st) = <[t := f]> (tasks st) ∧
        frame_answers all t f) ∧
  (outbox (_call_from_js t ws e st) = outbox st ∨
   ∃ sent, answers all sent ∧
           outbox (_call_from_js t ws e st) = outbox st ++ [sent]).
Proof.
  intros Hin. unfold _call_from_js.
  set (send_dic := Envelope (JStr "function_return") (key e) (id e) JNull JNull).
  set (f0 := Frame Finished ws (key e) (protocol e) false None send_dic).
  set (fu := with_send_dic JNull
               (JStr "Function key name is not registered @python") f0).
  assert (Hfu : frame_answers all t fu).
  { split; [done|]. split; [done|]. by exists sid, e. }
  assert (Hunreg :
    (∃ f, tasks (reply fu (with_tasks <[t := fu]> st)) = <[t := f]> (tasks st) ∧
          frame_answers all t f) ∧
    (outbox (reply fu (with_tasks <[t := fu]> st)) = outbox st ∨
     ∃ sent, answers all sent ∧
             outbox (reply fu (with_tasks <[t := fu]> st)) = outbox st ++ [sent])).
  { rewrite reply_tasks. split; [by exists fu|].
    unfold reply.
    destruct (json_is_str (f_protocol fu) "function_call") eqn:Hcall; simpl.
    - right. eexists. split; [|done]. by apply (frame_answers_sent all t fu).
    - by left. }
  destruct (as_str (key e)) as [k|]; [|exact Hunreg].
  destruct (_exposed_function st !! k) as [r|]; [|exact Hunreg].
  set (f := Frame AwaitTicket ws (key e) (protocol e) (ex_iscoroutine r)
                  (ex_exclusive r) send_dic).
  assert (Hf : frame_answers all t f).
  { split; [done|]. split; [done|]. by exists sid, e. }
  assert (Henter :
    (∃ f', tasks (enter t f st) = <[t := f']> (tasks st) ∧
           frame_answers all t f') ∧
    (outbox (enter t f st) = outbox st ∨
     ∃ sent, answers all sent ∧ outbox (enter t f st) = outbox st ++ [sent])).
  { destruct (enter_effect t f st) as [[p Hp] Ho]. split; [|by left].
    exists (at_pc p f). split; [done|]. by apply frame_answers_at_pc. }
  destruct (ex_exclusive r) as [q|]; [|exact Henter].
  destruct (ex_running r); [|exact Henter].
  simpl. split; [by exists f|by left].
Qed.

Lemma step_answers all ev st st' :
  ev ∈ all →
  (∀ t f, tasks st !! t = Some f → frame_answers all t f) →
  step ev st = Some st' →
  (∀ t f, tasks st' !! t = Some f → frame_answers all t f) ∧
  ∃ new, outbox st' = outbox st ++ new ∧ Forall (answers all) new.
Proof.
  intros Hin Hinv Hstep.
  assert (Hkeep : ∀ t0 f0 tks, tks = <[t0 := f0]> (tasks st) →
            frame_answers all t0 f0 →
            ∀ t f, tks !! t = Some f → frame_answers all t f).
  { intros t0 f0 tks -> Hf0 t f. destruct (decide (t = t0)) as [->|Hne].
    - rewrite lookup_insert_eq. by intros [= <-].
    - rewrite lookup_insert_ne by done. apply Hinv. }
  assert (Hnone : ∀ o, o = outbox st →
            ∃ new, o = outbox st ++ new ∧ Forall (answers all) new).
  { intros o ->. exists []. by rewrite app_nil_r. }
  destruct ev as [t ws sid e|t o]; simpl in Hstep.
  - destruct (tasks st !! t); [done|]. injection Hstep as <-.
    destruct (call_from_js_effect all t ws sid e st Hin)
      as [(f & Htasks & Hf) Hout].
    split; [by apply (Hkeep t f)|].
    destruct Hout as [Ho|(sent & Hsent & Ho)]; [by apply Hnone|].
    exists [sent]. split; [done|]. by constructor.
  - destruct (tasks st !! t) as [f|] eqn:Hf; [|done].
    pose proof (Hinv t f Hf) as Hfa.
    destruct (f_pc f).
    + destruct (bool_decide (t ∈ resolved st)); [|done]. injection Hstep as <-.
      destruct (enter_effect t f st) as [[p Hp] Ho].
      split; [|by apply Hnone].
      apply (Hkeep t (at_pc p f)); [done|by apply frame_answers_at_pc].
    + destruct (f_iscoroutine f); injection Hstep as <-.
      * split; [|by apply Hnone].
        apply (Hkeep t (at_pc InFunc f)); [done|by apply frame_answers_at_pc].
      * split; [|by apply Hnone].
        apply (Hkeep t (after_func o f)); [done|by apply frame_answers_after_func].
    + injection Hstep as <-. split; [|by apply Hnone].
      apply (Hkeep t (after_func o f)); [done|by apply frame_answers_after_func].
    + injection Hstep as <-.
      destruct (call_end_effect t f st) as [[p Hp] Ho].
      split; [apply (Hkeep t (at_pc p f)); [done|by apply frame_answers_at_pc]|].
      destruct Ho as [Ho|[Hcall Ho]]; [by apply Hnone|].
      exists [(f_ws f, f_send_dic f)]. split; [done|].
      constructor; [|done]. by apply (frame_answers_sent all t f).
    + done.
    + done.
Qed.

Lemma run_answers all events st st' :
  (∀ ev, ev ∈ events → ev ∈ all) →
  (∀ t f, tasks st !! t = Some f → frame_answers all t f) →
  run events st = Some st' →
  ∃ new, outbox st' = outbox st ++ new ∧ Forall (answers all) new.
Proof.
  revert st. induction events as [|ev rest IH]; intros st Hall Hinv Hrun.
  - injection Hrun as <-. exists []. by rewrite app_nil_r.
  - simpl in Hrun. destruct (step ev st) as [st1|] eqn:Hstep; [|done].
    destruct (step_answers all ev st st1) as (Hinv1 & new1 & Ho1 & Hnew1);
      [apply Hall; by left|done|done|].
    destruct (IH st1) as (new & Ho & Hnew); [|done|done|].
    { intros ev' Hin. apply Hall. by right. }
    exists (new1 ++ new). rewrite Ho, Ho1, app_assoc. split; [done|].
    by apply Forall_app.
Qed.

(** Whatever the clients send and however the coroutines of
    [_call_from_js] are interleaved, every text frame they write is a
    "function_return" envelope that answers a "function_call" envelope
    received on the same websocket, with the key and the id of that
    request, and with no data when it reports an exception; a "function"
    envelope (or any other protocol) is never answered. *)
Theorem replies_answer_function_calls (events : list event) (st st' : state) :
  tasks st = ∅ →
  run events st = Some st' →
  ∃ new,
    outbox st' = outbox st ++ new ∧
    ∀ ws reply, (ws, reply) ∈ new →
      protocol reply = JStr "function_return" ∧
      (exception reply ≠ JNull → data reply = JNull) ∧
      ∃ t socket_id request,
        Call t ws socket_id request ∈ events ∧
        protocol request = JStr "function_call" ∧
        key reply = key request ∧ id reply = id request.
Proof.
  intros Hempty Hrun.
  destruct (run_answers events events st st') as (new & Ho & Hnew);
    [done| |done|].
  { intros t f. by rewrite Hempty, lookup_empty. }
  exists new. split; [done|]. intros ws reply0 Hin.
  rewrite Forall_forall in Hnew. apply (Hnew (ws, reply0) Hin).
Qed.

Lemma replies_answer_function_calls_witness :
  let request :=
    Envelope (JStr "function_call") (JStr "f") (JInt 7) (JList []) JNull in
  let events := [Call 0%nat 0%nat 1 request] in
  tasks initial = ∅ ∧
  ∃ st', run events initial = Some st' ∧
    ∃ new, outbox st' = outbox initial ++ new ∧
           ∀ ws reply, (ws, reply) ∈ new →
                       protocol reply = JStr "function_return".
Proof.
  intros request events. split; [reflexivity|].
  eexists. split; [reflexivity|].
  destruct (replies_answer_function_calls events initial _ eq_refl eq_refl)
    as (new & Ho & Hnew).
  exists new. split; [exact Ho|]. intros ws reply0 Hin.
  by destruct (Hnew ws reply0 Hin).
Defined.

Lemma after_func_at_pc o p f : after_func o (at_pc p f) = after_func o f.
Proof. by destruct o. Qed.

(** One invocation of a function that is exposed and not running, with
    nobody in its wait list, from the arrival of the request to the end
    of the coroutine (its two or three resumptions): [is_running] is
    true at every suspension and false at the end, the table of exposed
    functions is as before, and a "function_call" request is answered by
    one envelope with the returned value, or with the text of the
    exception followed by " @python" and no data; a "function" request is
    run the same and not answered. *)
Theorem invocation_round_trip (t : nat) (ws : WebSocket) (socket_id : Z)
    (request : envelope) (k : string) (r : exposed) (o : outcome) (st : state) :
  key request = JStr k →
  _exposed_function st !! k = Some r →
  ex_running r = false →
  (∀ q, ex_exclusive r = Some q → default [] (queues st !! q) = []) →
  tasks st !! t = None →
  let resumes := if ex_iscoroutine r then 3%nat else 2%nat in
  let events := Call t ws socket_id request :: replicate resumes (Resume t o) in
  let result :=
    match o with
    | Returns v => (v, JNull)
    | ReturnsUnserializable m | Raises m => (JNull, JStr (m +:+ " @python"))
    end in
  ∃ st',
    run events st = Some st' ∧
    _exposed_function st' = _exposed_function st ∧
    is_running k st' = false ∧
    outbox st' =
      outbox st ++
      (if json_is_str (protocol request) "function_call"
       then [(ws, Envelope (JStr "function_return") (JStr k) (id request)
                           (fst result) (snd result))]
       else []) ∧
    ∀ n, (0 < n ≤ resumes)%nat →
         ∃ st_n, run (take n events) st = Some st_n ∧ is_running k st_n = true.
Proof.
  intros Hkey Hk Hrun Hq Ht resumes events result.
  destruct st as [ef qs res tks out cid mem].
  destruct r as [func co running excl]. simpl in Hk, Hrun, Hq, Ht.
  subst running.
  set (send_dic := Envelope (JStr "function_return") (JStr k) (id request) JNull JNull).
  set (f := Frame AwaitTicket ws (JStr k) (protocol request) co excl send_dic).
  set (ef1 := <[k := Exposed func co true excl]> ef).
  set (S1 := State ef1 qs res (<[t := at_pc FirstSleep f]> tks) out cid mem).
  set (S2 := State ef1 qs res (<[t := at_pc InFunc f]> tks) out cid mem).
  set (S3 := State ef1 qs res (<[t := after_func o f]> tks) out cid mem).
  set (S4 := State ef qs res (<[t := at_pc Finished (after_func o f)]> tks)
     (out ++ (if json_is_str (protocol request) "function_call"
       then [(ws, f_send_dic (after_func o f))] else [])) cid mem).
  assert (H1 : step (Call t ws socket_id request) (State ef qs res tks out cid mem) = Some S1).
  { simpl. rewrite Ht. f_equal. unfold _call_from_js. rewrite Hkey. simpl.
    rewrite Hk. simpl.
    assert (Henter : enter t f (State ef qs res tks out cid mem) = S1).
    { unfold enter, set_running. simpl. by rewrite Hk. }
    destruct excl; exact Henter. }
  assert (H2 : co = true → step (Resume t o) S1 = Some S2).
  { intros ->. simpl. rewrite lookup_insert_eq. simpl. unfold with_tasks. simpl.
    by rewrite insert_insert_eq. }
  assert (H2' : co = false → step (Resume t o) S1 = Some S3).
  { intros ->. simpl. rewrite lookup_insert_eq. simpl. unfold with_tasks. simpl.
    by rewrite insert_insert_eq, after_func_at_pc. }
  assert (H3 : step (Resume t o) S2 = Some S3).
  { simpl. rewrite lookup_insert_eq. simpl. unfold with_tasks. simpl.
    by rewrite insert_insert_eq, after_func_at_pc. }
  assert (Hfk : f_key (after_func o f) = JStr k) by (by destruct o).
  assert (Hfe : f_exclusive (after_func o f) = excl) by (by destruct o).
  assert (Hfp : f_protocol (after_func o f) = protocol request)
    by (by destruct o).
  assert (Hfw : f_ws (after_func o f) = ws) by (by destruct o).
  assert (Hset : set_running (JStr k) false S3
                 = Some (State ef qs res (tasks S3) out cid mem)).
  { unfold set_running. simpl. unfold ef1. rewrite lookup_insert_eq. simpl.
    unfold with_exposed. simpl. unfold ef1.
    by rewrite insert_insert_eq, insert_id. }
  assert (H4 : step (Resume t o) S3 = Some S4).
  { cbn [step tasks S3]. rewrite lookup_insert_eq.
    replace (f_pc (after_func o f)) with SecondSleep by (by destruct o).
    f_equal. unfold call_end. rewrite Hfk, Hset, Hfe.
    set (st2 := match excl with Some _ => _ | None => _ end).
    assert (Hst2 : st2 = State ef qs res (tasks S3) out cid mem).
    { subst st2. destruct excl as [q|]; [|done]. simpl.
      specialize (Hq q eq_refl). by destruct (qs !! q) as [[|? ?]|]. }
    rewrite Hst2. unfold reply. rewrite Hfp, Hfw. unfold S4.
    destruct (json_is_str (protocol request) "function_call");
      unfold with_tasks, with_outbox; simpl; rewrite insert_insert_eq;
      [done|by rewrite app_nil_r]. }
  assert (Hrunning : ∀ tks' out', is_running k (State ef1 qs res tks' out' cid mem) = true).
  { intros tks' out'. unfold is_running, is_key_running. simpl. unfold ef1.
    by rewrite lookup_insert_eq. }
  assert (Hsent : f_send_dic (after_func o f)
                  = Envelope (JStr "function_return") (JStr k) (id request)
                             (fst result) (snd result)) by (by destruct o).
  exists S4. subst events resumes. cbn [ex_iscoroutine].
  split; [|split; [done|split; [|split]]].
  - destruct co; cbn [replicate run].
    + rewrite H1; cbn [run]; rewrite (H2 eq_refl); cbn [run];
        rewrite H3; cbn [run]; by rewrite H4.
    + rewrite H1; cbn [run]; rewrite (H2' eq_refl); cbn [run]; by rewrite H4.
  - unfold is_running, is_key_running. simpl. by rewrite Hk.
  - unfold S4. cbn [outbox]. by rewrite Hsent.
  - intros n Hn. destruct co.
    + destruct n as [|[|[|[|n]]]]; [lia| | | |lia]; cbn [replicate take run].
      * exists S1. rewrite H1. split; [done|apply Hrunning].
      * exists S2. rewrite H1; cbn [run]; rewrite (H2 eq_refl). split; [done|apply Hrunning].
      * exists S3. rewrite H1; cbn [run]; rewrite (H2 eq_refl); cbn [run]; rewrite H3.
        split; [done|apply Hrunning].
    + destruct n as [|[|[|n]]]; [lia| | |lia]; cbn [replicate take run].
      * exists S1. rewrite H1. split; [done|apply Hrunning].
      * exists S3. rewrite H1; cbn [run]; rewrite (H2' eq_refl).
        split; [done|apply Hrunning].
Qed.

Lemma invocation_round_trip_witness :
  let func := PyFunc 0 "f" false in
  let st := snd (expose "f" func false initial) in
  let request :=
    Envelope (JStr "function_call") (JStr "f") (JInt 7) (JList []) JNull in
  _exposed_function st !! "f" = Some (Exposed func false false None) ∧
  ∃ st',
    run [Call 0%nat 0%nat 1 request; Resume 0%nat (Returns (JInt 42));
         Resume 0%nat (Returns (JInt 42))] st = Some st' ∧
    is_running "f" st' = false ∧
    outbox st' = [(0%nat, Envelope (JStr "function_return") (JStr "f") (JInt 7)
                                   (JInt 42) JNull)].
Proof.
  intros func st request.
  assert (Hk : _exposed_function st !! "f" = Some (Exposed func false false None))
    by reflexivity.
  split; [exact Hk|].
  destruct (invocation_round_trip 0%nat 0%nat 1 request "f"
              (Exposed func false false None) (Returns (JInt 42)) st
              eq_refl Hk eq_refl)
    as (st' & Hrun & _ & Hidle & Hout & _).
  - intros q [=].
  - reflexivity.
  - exists st'. split; [exact Hrun|]. split; [exact Hidle|exact Hout].
Defined.

End invocations.

(** ** The broker: subscriptions of the clients and of the server *)

Section broker.
Import JsPyPubsub.

(** A "sub_call" adds the socket to the subscribers of the topic and an
    "unsub_call" removes it, whatever else the envelopes hold; the other
    topics are untouched. Subscribing twice is subscribing once,
    unsubscribing a socket that is not subscribed changes nothing, and
    unsubscribing after subscribing gives back the subscriptions there
    were. Both are answered by one envelope with the key and id of the
    request and no exception. *)
Theorem client_subscription_round_trip (ws : WebSocket) (socket_id : Z)
    (e : envelope) (k : pykey) (st : state) :
  hash_key (key e) = Some k →
  NoDup (dict_keys (_topic_manager st)) →
  dict_get k (_topic_manager st) ≠ Some ∅ →
  let subscribers st := default ∅ (dict_get k (_topic_manager st)) in
  let subscribed := fst (_sub_from_js ws socket_id e st) in
  let unsubscribed := fst (_unsub_from_js ws socket_id e st) in
  subscribers subscribed = subscribers st ∪ {[socket_id]} ∧
  subscribers unsubscribed = subscribers st ∖ {[socket_id]} ∧
  (∀ k', k' ≠ k →
     dict_get k' (_topic_manager subscribed) = dict_get k' (_topic_manager st) ∧
     dict_get k' (_topic_manager unsubscribed) = dict_get k' (_topic_manager st)) ∧
  NoDup (dict_keys (_topic_manager subscribed)) ∧
  NoDup (dict_keys (_topic_manager unsubscribed)) ∧
  (socket_id ∈ subscribers st → subscribed = st) ∧
  (socket_id ∉ subscribers st → unsubscribed = st) ∧
  (socket_id ∉ subscribers st →
     ∀ k', dict_get k' (_topic_manager (fst (_unsub_from_js ws socket_id e subscribed)))
           = dict_get k' (_topic_manager st)) ∧
  snd (_sub_from_js ws socket_id e st)
    = [(ws, Envelope (JStr "sub_return") (key e) (id e) JNull JNull)] ∧
  snd (_unsub_from_js ws socket_id e st)
    = [(ws, Envelope (JStr "unsub_return") (key e) (id e) JNull JNull)].
Proof.
  intros Hk Hnd Hne subscribers subscribed unsubscribed.
  subst subscribers subscribed unsubscribed.
  destruct st as [pid m cb]. simpl in Hnd, Hne.
  unfold _sub_from_js, _unsub_from_js, with_manager. rewrite Hk.
  cbn [fst snd _topic_manager _pubsub_id _topic_callback].
  destruct (dict_get k m) as [S|] eqn:Hm; cbn [default from_option Datatypes.id].
  - assert (HS : S ≠ ∅) by congruence.
    rewrite dict_get_set.
    split; [done|]. split.
    { destruct (decide (S ∖ {[socket_id]} = ∅)) as [He|He].
      - rewrite dict_get_del by done. by rewrite He.
      - by rewrite dict_get_set. }
    split.
    { intros k' Hk'. split; [by apply dict_get_set_ne|].
      destruct (decide (S ∖ {[socket_id]} = ∅));
        [by apply dict_get_del_ne|by apply dict_get_set_ne]. }
    split; [by apply dict_keys_set_NoDup|]. split.
    { destruct (decide (S ∖ {[socket_id]} = ∅));
        [by apply dict_keys_del|by apply dict_keys_set_NoDup]. }
    split.
    { intros Hin. f_equal. apply dict_set_same. rewrite Hm. f_equal.
      set_solver. }
    split.
    { intros Hnin. assert (Hsame : S ∖ {[socket_id]} = S) by set_solver.
      rewrite Hsame. rewrite decide_False by done. f_equal.
      by apply dict_set_same. }
    split; [|done].
    intros Hnin k'.
    assert (Hsame : (S ∪ {[socket_id]}) ∖ {[socket_id]} = S) by set_solver.
    rewrite Hsame. rewrite decide_False by done. rewrite dict_set_set.
    by rewrite dict_set_same.
  - rewrite dict_get_set, Hm. cbn [default from_option Datatypes.id].
    split; [set_solver|]. split; [set_solver|]. split.
    { intros k' Hk'. split; [by apply dict_get_set_ne|done]. }
    split; [by apply dict_keys_set_NoDup|]. split; [done|].
    split; [set_solver|]. split; [done|]. split; [|done].
    intros _ k'.
    assert (Hsame : ({[socket_id]} : gset Z) ∖ {[socket_id]} = ∅) by set_solver.
    rewrite Hsame. rewrite decide_True by done.
    by rewrite dict_del_set_fresh.
Qed.

Lemma client_subscription_round_trip_witness :
  let e := Envelope (JStr "sub_call") (JStr "news") (JInt 1) JNull JNull in
  let st := State 0 [(KStr "news", {[2]})] [] in
  NoDup (dict_keys (_topic_manager st)) ∧
  default ∅ (dict_get (KStr "news")
               (_topic_manager (fst (_sub_from_js 0%nat 1 e st))))
  = {[2]} ∪ {[1]}.
Proof.
  intros e st.
  assert (Hnd : NoDup (dict_keys (_topic_manager st))) by compute_done.
  split; [exact Hnd|].
  destruct (client_subscription_round_trip 0%nat 1 e (KStr "news") st eq_refl Hnd)
    as (Hsub & _).
  - simpl. by intros [= Hempty].
  - exact Hsub.
Defined.

(** A "pub_call" is acknowledged to the publisher whatever the topic is;
    the "pub" envelope goes to connected sockets only and to none of them
    twice, and it carries the topic, the message and the new value of the
    counter, which lies between 1 and 2^32-1 and differs from the value
    before; the subscriptions are not changed. A topic that cannot be a
    key of a dict reaches nobody. *)
Theorem pub_call_delivers_once (ws : WebSocket) (socket_id : Z) (e : envelope)
    (st : state) (r : JsPyTextSocket.registry) :
  let result := _pub_from_js ws socket_id e st r in
  let pubsub_id := next_pubsub_id (_pubsub_id st) in
  pub_return (snd result)
    = (ws, Envelope (JStr "pub_return") (key e) (id e) JNull JNull) ∧
  NoDup (map fst (pub (snd result))) ∧
  (∀ i env, (i, env) ∈ pub (snd result) →
     is_Some (JsPyTextSocket._socket_pool r !! i) ∧
     env = Envelope (JStr "pub") (key e) (JInt pubsub_id) (data e) JNull) ∧
  _topic_manager (fst result) = _topic_manager st ∧
  _topic_callback (fst result) = _topic_callback st ∧
  _pubsub_id (fst result) = pubsub_id ∧
  (0 ≤ _pubsub_id st ≤ _PUBSUB_ID_MAX →
     1 ≤ pubsub_id ≤ _PUBSUB_ID_MAX ∧ pubsub_id ≠ _pubsub_id st) ∧
  (hash_key (key e) = None →
     pub (snd result) = [] ∧ called_back (snd result) = None).
Proof.
  intros result pubsub_id. subst result. unfold _pub_from_js.
  cbn [fst snd pub_return pub called_back _topic_manager _topic_callback
       _pubsub_id].
  split; [done|]. split.
  { rewrite map_map. cbn [fst]. rewrite map_id. unfold fan_out.
    destruct (hash_key (key e)) as [k|]; [|constructor].
    destruct (dict_get k (_topic_manager st)) as [S|]; [|constructor].
    simpl. apply NoDup_filter, NoDup_elements. }
  split.
  { intros i env (j & [= -> ->] & Hin)%list_elem_of_fmap. split; [|done].
    unfold fan_out in Hin.
    destruct (hash_key (key e)) as [k|]; [|by apply elem_of_nil in Hin].
    destruct (dict_get k (_topic_manager st)) as [S|];
      [|by apply elem_of_nil in Hin].
    by apply elem_of_multicast_targets_many in Hin as [_ ?]. }
  split; [done|]. split; [done|]. split; [done|]. split.
  { subst pubsub_id. unfold next_pubsub_id, _PUBSUB_ID_MAX. intros Hc.
    destruct (Z.ltb_spec 4294967295 (_pubsub_id st + 1)); lia. }
  intros Hk. unfold fan_out. by rewrite Hk.
Qed.

Lemma dict_del_absent {K V} `{EqDecision K} (k : K) (d : list (K * V)) :
  dict_get k d = None → dict_del k d = d.
Proof.
  induction d as [|[k0 v0] d IH]; simpl; [done|].
  destruct (decide (k = k0)); [done|]. intros Hget. by rewrite IH.
Qed.

(** The subscriptions of the server: [subscribe(topic, func)] makes the
    topic one of [get_topics()] and [func] what a "pub_call" on the topic
    calls; [unsubscribe(topic)] takes the topic away and nothing is
    called; both answer true. Unsubscribing a topic without subscription
    changes nothing, and unsubscribing after subscribing a new topic
    gives the state there was. *)
Theorem server_subscription_round_trip (topic : pykey) (f : pyfunc) (st : state) :
  NoDup (get_topics st) →
  let subscribed := snd (subscribe topic (Some f) st) in
  let unsubscribed := snd (unsubscribe topic st) in
  (∀ x, x ∈ get_topics subscribed ↔ x = topic ∨ x ∈ get_topics st) ∧
  (∀ x, x ∈ get_topics unsubscribed ↔ x ∈ get_topics st ∧ x ≠ topic) ∧
  NoDup (get_topics subscribed) ∧ NoDup (get_topics unsubscribed) ∧
  (∀ ws socket_id e r, hash_key (key e) = Some topic →
     called_back (snd (_pub_from_js ws socket_id e subscribed r)) = Some f ∧
     called_back (snd (_pub_from_js ws socket_id e unsubscribed r)) = None) ∧
  (topic ∉ get_topics st →
     unsubscribed = st ∧ snd (unsubscribe topic subscribed) = st) ∧
  fst (subscribe topic (Some f) st) = PyBool true ∧
  fst (unsubscribe topic st) = PyBool true.
Proof.
  intros Hnd subscribed unsubscribed. subst subscribed unsubscribed.
  destruct st as [pid m cb]. unfold get_topics in *. simpl in Hnd.
  unfold subscribe, unsubscribe, _pub_from_js.
  cbn [fst snd _topic_callback _topic_manager _pubsub_id called_back].
  destruct (dict_keys_del topic cb Hnd) as [Hnd' Hin'].
  split.
  { intros x. rewrite dict_keys_set.
    destruct (dict_get topic cb) eqn:Hget.
    - split; [by right|]. intros [->|?]; [|done].
      apply dec_stable. intros Hnin. apply dict_get_None in Hnin. congruence.
    - rewrite elem_of_app, list_elem_of_singleton. tauto. }
  split; [exact Hin'|]. split; [by apply dict_keys_set_NoDup|].
  split; [exact Hnd'|]. split.
  { intros ws socket_id e r ->. by rewrite dict_get_set, dict_get_del. }
  split; [|done].
  intros Hnin. apply dict_get_None in Hnin.
  by rewrite dict_del_absent, dict_del_set_fresh.
Qed.

Lemma server_subscription_round_trip_witness :
  let f := PyFunc 0 "on_news" false in
  let st := State 0 [] [(KStr "weather", PyFunc 1 "on_weather" true)] in
  NoDup (get_topics st) ∧
  snd (unsubscribe (KStr "news") (snd (subscribe (KStr "news") (Some f) st)))
  = st.
Proof.
  intros f st.
  assert (Hnd : NoDup (get_topics st)) by compute_done.
  split; [exact Hnd|].
  destruct (server_subscription_round_trip (KStr "news") f st Hnd)
    as (_ & _ & _ & _ & _ & Hback & _).
  apply Hback. compute_done.
Defined.

End broker.

(** ** The registry: counting, sending, limiting *)

Section connections.
Import JsPyTextSocket.

Lemma orderly_counted events s s' :
  _connected (registry_of s)
  = Z.of_nat (size (_socket_pool (registry_of s))) + Z.of_nat (accepting s) →
  orderly events s = true →
  registry_run events s = Some s' →
  _connected (registry_of s')
  = Z.of_nat (size (_socket_pool (registry_of s'))) + Z.of_nat (accepting s').
Proof.
  revert s. induction events as [|ev rest IH]; intros s Hs Hord Hrun;
    simpl in Hrun, Hord.
  - by injection Hrun as <-.
  - destruct (registry_step ev s) as [s1|] eqn:Hstep; [|discriminate].
    apply andb_true_iff in Hord as [Hev Hord].
    apply (IH s1); [|done|done].
    destruct ev as [|fuel ws|sid|limit]; simpl in Hstep.
    + injection Hstep as <-. simpl. lia.
    + destruct (accepting s) as [|n] eqn:Hn; [discriminate|].
      destruct (on_connect_accepted fuel ws (registry_of s))
        as [[[sid acts] r2]|] eqn:Hc; [|discriminate].
      injection Hstep as <-. apply on_connect_accepted_inv in Hc as [Hp ->].
      apply probe_Some in Hp as (_ & _ & _ & Hfree & _). simpl.
      rewrite map_size_insert_None by done. lia.
    + injection Hstep as <-. apply bool_decide_eq_true in Hev as [ws Hws].
      simpl. unfold on_disconnect, _delete_socket. rewrite Hws. simpl.
      rewrite map_size_delete, Hws. simpl.
      assert (size (_socket_pool (registry_of s)) ≠ 0%nat).
      { intros Hz. apply map_size_empty_iff in Hz.
        by rewrite Hz, lookup_empty in Hws. }
      lia.
    + by injection Hstep as <-.
Qed.

(** As long as only connected sockets are disconnected,
    [number_of_connections()] is the number of ids of [get_socket_id()],
    which holds no id twice, plus the number of handshakes in progress:
    a connection is counted when [on_connect] begins, before the accept,
    and listed when the handler is resumed; a refused connection is
    counted and listed like any other until it is disconnected. A
    disconnect for an id that is not connected still lowers the count
    and leaves the pool alone. *)
Theorem connections_are_counted (events : list registry_event) (s : server) :
  orderly events (Server initial 0) = true →
  registry_run events (Server initial 0) = Some s →
  number_of_connections (registry_of s)
  = Z.of_nat (length (get_socket_id (registry_of s)))
    + Z.of_nat (accepting s) ∧
  NoDup (get_socket_id (registry_of s)) ∧
  (∀ socket_id, socket_id ∈ get_socket_id (registry_of s) ↔
                is_Some (_socket_pool (registry_of s) !! socket_id)) ∧
  (number_of_connections (snd (on_connect_begin (registry_of s)))
   = number_of_connections (registry_of s) + 1 ∧
   get_socket_id (snd (on_connect_begin (registry_of s)))
   = get_socket_id (registry_of s)) ∧
  (∀ fuel ws socket_id acts r',
     on_connect_accepted fuel ws (registry_of s) = Some (socket_id, acts, r') →
     (socket_id ∉ get_socket_id (registry_of s)) ∧
     socket_id ∈ get_socket_id r' ∧
     number_of_connections r' = number_of_connections (registry_of s) ∧
     number_of_connections (on_disconnect socket_id r')
       = number_of_connections (registry_of s) - 1 ∧
     _socket_pool (on_disconnect socket_id r') = _socket_pool (registry_of s)) ∧
  (∀ socket_id, socket_id ∉ get_socket_id (registry_of s) →
     number_of_connections (on_disconnect socket_id (registry_of s))
       = number_of_connections (registry_of s) - 1 ∧
     _socket_pool (on_disconnect socket_id (registry_of s))
       = _socket_pool (registry_of s)).
Proof.
  intros Hord Hrun.
  assert (Hin : ∀ r0 socket_id, socket_id ∈ get_socket_id r0 ↔
                                is_Some (_socket_pool r0 !! socket_id)).
  { intros r0 socket_id. unfold get_socket_id.
    by rewrite elem_of_elements, elem_of_dom. }
  split.
  { unfold number_of_connections, get_socket_id.
    rewrite (orderly_counted events (Server initial 0) s); [|done|done|done].
    do 2 f_equal. rewrite <- size_dom. reflexivity. }
  split; [unfold get_socket_id; apply NoDup_elements|].
  split; [apply Hin|]. split; [done|]. split.
  - intros fuel ws socket_id acts r' Hc.
    apply on_connect_accepted_inv in Hc as [Hp ->].
    apply probe_Some in Hp as (_ & _ & _ & Hfree & _).
    rewrite !Hin. unfold number_of_connections, on_disconnect, _delete_socket.
    simpl. rewrite lookup_insert_eq. simpl.
    split; [rewrite Hfree; by intros [? ?]|]. split; [eauto|].
    split; [done|]. split; [done|]. by apply delete_insert_id.
  - intros socket_id Hnot. rewrite Hin in Hnot.
    unfold number_of_connections, on_disconnect, _delete_socket.
    destruct (_socket_pool (registry_of s) !! socket_id) eqn:Hs;
      [destruct Hnot; eauto|].
    done.
Qed.

Lemma connections_are_counted_witness :
  let events :=
    [Limits 1; Begins; Begins; Resumes 5 0%nat; Disconnects 1; Begins] in
  orderly events (Server initial 0) = true ∧
  ∃ s, registry_run events (Server initial 0) = Some s ∧
       number_of_connections (registry_of s)
       = Z.of_nat (length (get_socket_id (registry_of s)))
         + Z.of_nat (accepting s) ∧
       accepting s = 2%nat.
Proof.
  intros events.
  assert (Hord : orderly events (Server initial 0) = true)
    by (vm_compute; reflexivity).
  split; [exact Hord|].
  eexists. split; [vm_compute; reflexivity|].
  destruct (connections_are_counted events _ Hord eq_refl) as [Hcount _].
  split; [exact Hcount|reflexivity].
Defined.

Lemma multicast_targets_connected (t : target) (r : registry) (i : Z) :
  i ∈ multicast_targets t r ↔
  is_Some (_socket_pool r !! i) ∧
  match t with
  | TNone => True
  | TInt s => i = s
  | TMany l => i ∈ l
  | TOther => False
  end.
Proof.
  destruct t as [|s|l|]; simpl.
  - unfold get_socket_id. rewrite elem_of_elements, elem_of_dom. tauto.
  - destruct (_socket_pool r !! s) eqn:Hs.
    + rewrite list_elem_of_singleton. split; [intros ->; eauto|tauto].
    + rewrite elem_of_nil. split; [done|]. intros [[? Hi] ->]. congruence.
  - rewrite list_elem_of_filter. tauto.
  - rewrite elem_of_nil. tauto.
Qed.

Lemma length_omap_is_Some {A B} (f : A → option B) (l : list A) :
  (∀ x, x ∈ l → is_Some (f x)) → length (omap f l) = length l.
Proof.
  induction l as [|x l IH]; intros Hall; simpl; [done|].
  destruct (Hall x) as [y Hy]; [by left|]. rewrite Hy. simpl. f_equal.
  apply IH. intros x' Hin. apply Hall. by right.
Qed.

(** [multicast] writes the data, as it is given, to websockets of the
    pool only: to those of the connected ids among the targets, once for
    each time an id is listed, and to nobody when the target is neither
    None, an int nor a collection. [broadcast] writes to every connected
    socket, once. *)
Theorem multicast_reaches_connected_targets (data : envelope) (t : target)
    (r : registry) :
  let targeted socket_id :=
    match t with
    | TNone => True
    | TInt s => socket_id = s
    | TMany l => socket_id ∈ l
    | TOther => False
    end in
  (∀ ws env, (ws, env) ∈ multicast data t r ↔
     env = data ∧
     ∃ socket_id, _socket_pool r !! socket_id = Some ws ∧ targeted socket_id) ∧
  length (multicast data t r) = length (multicast_targets t r) ∧
  (∀ l, multicast_targets (TMany l) r
        = filter (λ i, is_Some (_socket_pool r !! i)) l) ∧
  length (broadcast data r) = size (_socket_pool r) ∧
  (∀ socket_id ws, _socket_pool r !! socket_id = Some ws →
                   (ws, data) ∈ broadcast data r).
Proof.
  intros targeted.
  assert (Hmem : ∀ t' ws env, (ws, env) ∈ multicast data t' r ↔
     env = data ∧
     ∃ socket_id, _socket_pool r !! socket_id = Some ws ∧
                  socket_id ∈ multicast_targets t' r).
  { intros t' ws env. unfold multicast. rewrite list_elem_of_omap. split.
    - intros (i & Hi & Hf). destruct (_socket_pool r !! i) as [ws'|] eqn:Hws;
        [|done]. simpl in Hf. injection Hf as <- <-. eauto.
    - intros [-> (i & Hws & Hi)]. exists i. split; [done|]. by rewrite Hws. }
  assert (Hlen : ∀ t', length (multicast data t' r)
                       = length (multicast_targets t' r)).
  { intros t'. unfold multicast. apply length_omap_is_Some.
    intros i [[ws Hws] _]%multicast_targets_connected. rewrite Hws. eauto. }
  split; [|split; [apply Hlen|split; [done|split]]].
  - intros ws env. rewrite Hmem. split.
    + intros [-> (i & Hws & [_ Hi]%multicast_targets_connected)]. eauto.
    + intros [-> (i & Hws & Hi)]. split; [done|]. exists i. split; [done|].
      apply multicast_targets_connected. eauto.
  - unfold broadcast. rewrite Hlen. simpl. unfold get_socket_id.
    rewrite <- size_dom. reflexivity.
  - intros socket_id ws Hws. unfold broadcast. apply Hmem. split; [done|].
    exists socket_id. split; [done|].
    apply multicast_targets_connected. eauto.
Qed.

(** [set_connection_limit] changes neither the pool nor the count, and a
    negative limit is no limit. In every registry the server can be in
    that still has a free id, a handler that is resumed after the accept
    is given an id of the pool and is either refused and closed, or
    welcomed: it is closed exactly when the limit is positive and smaller
    than the count at that time, in which this connection is counted
    since its begin. *)
Theorem connection_limit_semantics (limit : Z) (fuel : nat) (ws : WebSocket)
    (r : registry) :
  reachable r →
  Z.of_nat (size (_socket_pool r)) < SERIAL_MAX →
  (size (_socket_pool r) < fuel)%nat →
  _socket_pool (set_connection_limit limit r) = _socket_pool r ∧
  number_of_connections (set_connection_limit limit r)
    = number_of_connections r ∧
  _connection_limit (set_connection_limit limit r) = Z.max 0 limit ∧
  ∃ socket_id acts r',
    on_connect_accepted fuel ws (set_connection_limit limit r)
      = Some (socket_id, acts, r') ∧
    (Close ∈ acts ↔ 0 < limit ∧ limit < number_of_connections r) ∧
    (acts = [SendJson refused; Close] ∨
     acts = [SendJson (welcome socket_id)]) ∧
    (limit ≤ 0 → acts = [SendJson (welcome socket_id)]) ∧
    _socket_pool r' !! socket_id = Some ws ∧
    _connection_limit r' = Z.max 0 limit.
Proof.
  intros Hr Hsize Hfuel.
  destruct (reachable_in_range r Hr) as [Hser Hpool].
  assert (Hlim : (if 0 <=? limit then limit else 0) = Z.max 0 limit).
  { destruct (Z.leb_spec 0 limit); lia. }
  split; [done|]. split; [done|]. split; [exact Hlim|].
  destruct (probe_enough fuel (bump (_socket_serial r)) (_socket_pool r))
    as [x Hp]; [by apply bump_range|done|done|].
  assert (Hnot : Close ∈ [SendJson (welcome x)] → False).
  { intros Hin. apply elem_of_cons in Hin as [?|Hin]; [done|].
    by apply elem_of_nil in Hin. }
  unfold on_connect_accepted, _append_socket, number_of_connections.
  simpl. rewrite Hp. simpl. rewrite Hlim.
  destruct (Z.ltb_spec 0 (Z.max 0 limit)) as [Hpos|Hzero];
    destruct (Z.ltb_spec (Z.max 0 limit) (_connected r)) as [Hex|Hok];
    simpl; eexists _, _, _; (split; [reflexivity|]).
  - split; [split; [intros _; lia|intros _; set_solver]|].
    split; [by left|]. split; [intros ?; lia|].
    split; [apply lookup_insert_eq|done].
  - split; [split; [by intros ?%Hnot|intros [? ?]; lia]|].
    split; [by right|]. split; [done|].
    split; [apply lookup_insert_eq|done].
  - split; [split; [by intros ?%Hnot|intros [? ?]; lia]|].
    split; [by right|]. split; [done|].
    split; [apply lookup_insert_eq|done].
  - split; [split; [by intros ?%Hnot|intros [? ?]; lia]|].
    split; [by right|]. split; [done|].
    split; [apply lookup_insert_eq|done].
Qed.

Lemma connection_limit_semantics_witness :
  let r := Registry 2 0 0 ∅ in
  reachable r ∧
  ∃ socket_id acts r',
    on_connect_accepted 1 0%nat (set_connection_limit 1 r)
      = Some (socket_id, acts, r') ∧
    Close ∈ acts.
Proof.
  intros r.
  assert (Hr : reachable r) by (exists 2%nat, [Begins; Begins]; reflexivity).
  split; [exact Hr|].
  destruct (connection_limit_semantics 1 1 0%nat r Hr)
    as (_ & _ & _ & socket_id & acts & r' & Hc & Hclose & _).
  - vm_compute. reflexivity.
  - vm_compute. lia.
  - exists socket_id, acts, r'. split; [exact Hc|].
    apply Hclose. vm_compute. split; reflexivity.
Defined.

End connections.

(** ** Dispatching what is received *)

Section dispatch.
Import JsPyTextSocket.
Context {H : Type}.

Lemma dict_item_last (k : string) (v : json) (kvs : list (string * json)) :
  dict_item k (kvs ++ [(k, v)]) = Some v.
Proof.
  induction kvs as [|[k' v'] kvs IH]; simpl.
  - by rewrite String.eqb_refl.
  - by rewrite IH.
Qed.

(** [on_receive] hands an envelope to a handler exactly when the text is
    a JSON object that has the five members protocol, key, id, data and
    exception and whose protocol is a string registered in the table; the
    handler is the one registered last under that protocol, it is given
    the five members as they were sent (the last one of members with the
    same name), and it is made a task when it is a coroutine function.
    Everything else is dropped. *)
Theorem on_receive_dispatch (iscoroutine : H → bool) (table : gmap string H)
    (data : option json) :
  (∀ d, on_receive iscoroutine table data = Some d ↔
     ∃ kvs name call_func k i dd e,
       data = Some (JDict kvs) ∧
       dict_item "protocol" kvs = Some (JStr name) ∧
       dict_item "key" kvs = Some k ∧
       dict_item "id" kvs = Some i ∧
       dict_item "data" kvs = Some dd ∧
       dict_item "exception" kvs = Some e ∧
       table !! name = Some call_func ∧
       d = if iscoroutine call_func
           then CreateTask call_func (Envelope (JStr name) k i dd e)
           else CallNow call_func (Envelope (JStr name) k i dd e)) ∧
  (∀ name func kvs k i dd e,
     data = Some (JDict kvs) →
     dict_item "protocol" kvs = Some (JStr name) →
     dict_item "key" kvs = Some k →
     dict_item "id" kvs = Some i →
     dict_item "data" kvs = Some dd →
     dict_item "exception" kvs = Some e →
     on_receive iscoroutine (add_protocol name func table) data
     = Some (if iscoroutine func
             then CreateTask func (Envelope (JStr name) k i dd e)
             else CallNow func (Envelope (JStr name) k i dd e))) ∧
  (∀ name func kvs,
     data = Some (JDict kvs) →
     dict_item "protocol" kvs ≠ Some (JStr name) →
     on_receive iscoroutine (add_protocol name func table) data
     = on_receive iscoroutine table data) ∧
  (∀ kvs k v, dict_item k (kvs ++ [(k, v)]) = Some v).
Proof.
  split; [|split; [|split]].
  - intros d. unfold on_receive. split.
    + destruct data as [[| | | | |kvs]|]; try done.
      destruct (dict_item "protocol" kvs) as [p|] eqn:Hp; [|done].
      destruct (dict_item "key" kvs) as [k|] eqn:Hk; [|done].
      destruct (dict_item "id" kvs) as [i|] eqn:Hi; [|done].
      destruct (dict_item "data" kvs) as [dd|] eqn:Hdd; [|done].
      destruct (dict_item "exception" kvs) as [e|] eqn:He; [|done].
      destruct p as [| | |name| |]; try done. simpl.
      destruct (table !! name) as [call_func|] eqn:Ht; [|done].
      intros Hd. exists kvs, name, call_func, k, i, dd, e.
      repeat (split; [done|]).
      destruct (iscoroutine call_func); by injection Hd as <-.
    + intros (kvs & name & call_func & k & i & dd & e & -> & -> & -> & -> &
              -> & -> & Ht & ->).
      simpl. rewrite Ht. by destruct (iscoroutine call_func).
  - intros name func kvs k i dd e -> Hp Hk Hi Hd He. unfold on_receive.
    rewrite Hp, Hk, Hi, Hd, He. simpl. unfold add_protocol.
    rewrite lookup_insert_eq. by destruct (iscoroutine func).
  - intros name func kvs -> Hp. unfold on_receive.
    destruct (dict_item "protocol" kvs) as [p|]; [|done].
    destruct (dict_item "key" kvs) as [k|]; [|done].
    destruct (dict_item "id" kvs) as [i|]; [|done].
    destruct (dict_item "data" kvs) as [dd|]; [|done].
    destruct (dict_item "exception" kvs) as [e|]; [|done].
    destruct p as [| | |name'| |]; try done. simpl.
    unfold add_protocol. rewrite lookup_insert_ne; [done|]. congruence.
  - intros kvs k v. apply dict_item_last.
Qed.

End dispatch.

(** ** The calls reserved for the event loop *)

Section background.
Import JsPyBackground.
Context {R : Type}.

Lemma event_loop_stopped (ends : R → ending) (rounds : nat) (st : state R) :
  looping st = false → _event_loop rounds ends st = st.
Proof.
  intros Hstop. induction rounds as [|rounds IH]; simpl; [done|].
  unfold _event_loop_round. by rewrite Hstop.
Qed.

Lemma event_loop_conserves (ends : R → ending) (rounds : nat) (st : state R) :
  called (_event_loop rounds ends st) ++ _func_queue (_event_loop rounds ends st)
  = called st ++ _func_queue st.
Proof.
  revert st. induction rounds as [|rounds IH]; intros st; simpl; [done|].
  rewrite IH. unfold _event_loop_round.
  destruct (looping st); [|done].
  destruct (_func_queue st) as [|x rest] eqn:Hq; [by rewrite Hq|]. simpl.
  by rewrite <- app_assoc.
Qed.

Lemma event_loop_runs (ends : R → ending) (rounds : nat) (st : state R) :
  looping st = true →
  (∀ x, x ∈ _func_queue st → ends x ≠ RaisedCancelled) →
  looping (_event_loop rounds ends st) = true ∧
  called (_event_loop rounds ends st)
    = called st ++ take rounds (_func_queue st) ∧
  _func_queue (_event_loop rounds ends st) = drop rounds (_func_queue st).
Proof.
  revert st. induction rounds as [|rounds IH]; intros st Hloop Hok; simpl.
  - by rewrite take_0, app_nil_r.
  - unfold _event_loop_round. rewrite Hloop.
    destruct (_func_queue st) as [|x rest] eqn:Hq.
    + destruct (IH st Hloop) as (Hl & Hc & Hf); [by rewrite Hq|].
      rewrite Hq in Hc, Hf. rewrite Hl, Hc, Hf.
      by rewrite take_nil, drop_nil.
    + assert (Hx : ends x ≠ RaisedCancelled) by (apply Hok; by left).
      destruct (IH (State rest (called st ++ [x])
                          match ends x with
                          | RaisedCancelled => false | _ => true end))
        as (Hl & Hc & Hf).
      { simpl. by destruct (ends x). }
      { simpl. intros y Hy. apply Hok. by right. }
      simpl in Hc, Hf. rewrite Hl, Hc, Hf. simpl.
      by rewrite <- app_assoc.
Qed.

Lemma event_loop_cancelled (ends : R → ending) (pre : list R) (x : R)
    (post : list R) (rounds : nat) (st : state R) :
  looping st = true →
  _func_queue st = pre ++ x :: post →
  (∀ y, y ∈ pre → ends y ≠ RaisedCancelled) →
  ends x = RaisedCancelled →
  (length pre < rounds)%nat →
  looping (_event_loop rounds ends st) = false ∧
  called (_event_loop rounds ends st) = called st ++ pre ++ [x] ∧
  _func_queue (_event_loop rounds ends st) = post.
Proof.
  revert rounds st. induction pre as [|y pre IH];
    intros rounds st Hloop Hq Hok Hx Hlen;
    (destruct rounds as [|rounds]; [simpl in Hlen; lia|]);
    simpl; unfold _event_loop_round; rewrite Hloop, Hq; simpl.
  - rewrite Hx. by rewrite event_loop_stopped.
  - assert (Hy : ends y ≠ RaisedCancelled) by (apply Hok; by left).
    destruct (IH rounds (State (pre ++ x :: post) (called st ++ [y])
                               match ends y with
                               | RaisedCancelled => false | _ => true end))
      as (Hl & Hc & Hf).
    + simpl. by destruct (ends y).
    + done.
    + intros z Hz. apply Hok. by right.
    + done.
    + simpl in Hlen. lia.
    + simpl in Hc. rewrite Hl, Hc, Hf. by rewrite <- app_assoc.
Qed.

(** The loop calls what was reserved in the order of the reservations,
    one call in each round, and loses or repeats nothing; an exception of
    a call does not stop it. A call that ends in a cancellation stops
    it: what was reserved behind that call is never called. *)
Theorem reserved_calls_run_in_order (ends : R → ending) (rounds : nat)
    (st : state R) :
  let st' := _event_loop rounds ends st in
  called st' ++ _func_queue st' = called st ++ _func_queue st ∧
  (looping st = true →
   (∀ x, x ∈ _func_queue st → ends x ≠ RaisedCancelled) →
   looping st' = true ∧
   called st' = called st ++ take rounds (_func_queue st) ∧
   _func_queue st' = drop rounds (_func_queue st)) ∧
  (looping st = true →
   ∀ pre x post,
     _func_queue st = pre ++ x :: post →
     (∀ y, y ∈ pre → ends y ≠ RaisedCancelled) →
     ends x = RaisedCancelled →
     (length pre < rounds)%nat →
     looping st' = false ∧
     called st' = called st ++ pre ++ [x] ∧
     _func_queue st' = post ∧
     ∀ more, _event_loop more ends st' = st') ∧
  (looping st = false → st' = st).
Proof.
  intros st'. subst st'.
  split; [apply event_loop_conserves|].
  split; [apply event_loop_runs|].
  split; [|apply event_loop_stopped].
  intros Hloop pre x post Hq Hok Hx Hlen.
  destruct (event_loop_cancelled ends pre x post rounds st) as (Hl & Hc & Hf);
    try done.
  split; [done|]. split; [done|]. split; [done|].
  intros more. by apply event_loop_stopped.
Qed.

End background.

Section closing.
Import JsPyTextSocket.

(** [close_socket] answers true exactly for a connected id; it then closes
    nothing itself but reserves the close of the websocket of that id,
    which the event loop calls once, after everything that was reserved
    before; for an id that is not connected nothing is reserved.
    [reservecast] reserves its multicast the same way, whatever the
    target. *)
Theorem close_socket_reserves_the_close (socket_id : Z) (r : registry)
    (bg : JsPyBackground.state reservation)
    (ends : reservation → JsPyBackground.ending) :
  (fst (close_socket socket_id r bg) = true ↔ socket_id ∈ get_socket_id r) ∧
  (fst (close_socket socket_id r bg) = false →
   snd (close_socket socket_id r bg) = bg) ∧
  (JsPyBackground.looping bg = true →
   (∀ x, x ∈ JsPyBackground._func_queue bg →
         ends x ≠ JsPyBackground.RaisedCancelled) →
   (∀ ws, _socket_pool r !! socket_id = Some ws →
      ends (ReserveClose ws) ≠ JsPyBackground.RaisedCancelled →
      let served :=
        JsPyBackground._event_loop
          (S (length (JsPyBackground._func_queue bg))) ends
          (snd (close_socket socket_id r bg)) in
      JsPyBackground.called served
        = JsPyBackground.called bg ++ JsPyBackground._func_queue bg
          ++ [ReserveClose ws] ∧
      JsPyBackground._func_queue served = []) ∧
   (∀ data t,
      ends (ReserveMulticast data t) ≠ JsPyBackground.RaisedCancelled →
      let served :=
        JsPyBackground._event_loop
          (S (length (JsPyBackground._func_queue bg))) ends
          (reservecast data t bg) in
      JsPyBackground.called served
        = JsPyBackground.called bg ++ JsPyBackground._func_queue bg
          ++ [ReserveMulticast data t] ∧
      JsPyBackground._func_queue served = [])).
Proof.
  assert (Hserved : ∀ x,
    JsPyBackground.looping bg = true →
    (∀ y, y ∈ JsPyBackground._func_queue bg →
          ends y ≠ JsPyBackground.RaisedCancelled) →
    ends x ≠ JsPyBackground.RaisedCancelled →
    JsPyBackground.called
      (JsPyBackground._event_loop
         (S (length (JsPyBackground._func_queue bg))) ends
         (JsPyBackground.register_function x bg))
    = JsPyBackground.called bg ++ JsPyBackground._func_queue bg ++ [x] ∧
    JsPyBackground._func_queue
      (JsPyBackground._event_loop
         (S (length (JsPyBackground._func_queue bg))) ends
         (JsPyBackground.register_function x bg)) = []).
  { intros x Hloop Hok Hx.
    destruct (event_loop_runs ends (S (length (JsPyBackground._func_queue bg)))
                (JsPyBackground.register_function x bg))
      as (_ & Hc & Hf); [done| |].
    - simpl. intros y [Hy|Hy%list_elem_of_singleton]%elem_of_app;
        [by apply Hok|by subst].
    - rewrite Hc, Hf. unfold JsPyBackground.register_function.
      cbn [JsPyBackground._func_queue JsPyBackground.called].
      rewrite take_ge by (rewrite length_app; simpl; lia).
      rewrite drop_ge by (rewrite length_app; simpl; lia). done. }
  unfold close_socket, get_socket_id.
  rewrite elem_of_elements, elem_of_dom.
  destruct (_socket_pool r !! socket_id) as [ws|] eqn:Hws; cbn [fst snd].
  - split; [split; eauto|]. split; [done|].
    intros Hloop Hok. split.
    + intros ws' [= <-] Hx. by apply Hserved.
    + intros data t Hx. by apply Hserved.
  - split; [split; [done|by intros [? ?]]|]. split; [done|].
    intros Hloop Hok. split; [done|].
    intros data t Hx. by apply Hserved.
Qed.

End closing.
